(** * The option tree of nix-gui (nixui/options/option_tree.py)

    A shallow embedding of [OptionData] and [OptionTree] and of the parts of
    the [treelib] container they call, followed by the properties of the
    specification that were checked against it.

    Conventions of the embedding.
    - A Python call either returns, raises, or does not come back; this is
      the type [result].  A raised exception aborts the whole call: the
      traces studied below are made of calls that returned.
    - Python dictionaries are finite maps ([gmap]); the order in which a
      dictionary or a generator enumerates its entries is not modelled,
      only which entries it enumerates.
    - A node object of [treelib] is identified with the identifier it is
      registered under. *)

From Stdlib Require Import Ascii.
From stdpp Require Import gmap strings list fin_maps.

Open Scope string_scope.

(** ** Outcomes of a call *)

Inductive exn :=
  | ValueError | NameError | KeyError | AttributeError | TypeError | IndexError
  | NodeIDAbsentError | DuplicatedNodeIdError | MultipleRootError.

#[global] Instance exn_eq_dec : EqDecision exn.
Proof. solve_decision. Defined.

(** [OutOfFuel]: the loop bound given to the model was used up (a Python
    loop that would still be running). *)
Inductive result (A : Type) :=
  | Ok (a : A)
  | Raise (e : exn)
  | OutOfFuel.
Arguments Ok {A} a.
Arguments Raise {A} e.
Arguments OutOfFuel {A}.

Definition rbind {A B} (r : result A) (k : A -> result B) : result B :=
  match r with
  | Ok a => k a
  | Raise e => Raise e
  | OutOfFuel => OutOfFuel
  end.

Notation "'let*' x ':=' e 'in' k" := (rbind e (fun x => k))
  (at level 10, x name, e at level 100, k at level 200).

(** [for x in l: acc = body(acc, x)], stopping at the first exception. *)
Fixpoint for_each {A S} (body : S -> A -> result S) (l : list A) (acc : S) : result S :=
  match l with
  | [] => Ok acc
  | x :: l' => let* acc' := body acc x in for_each body l' acc'
  end.

(** [[f(x) for x in l]] *)
Fixpoint map_result {A B} (f : A -> result B) (l : list A) : result (list B) :=
  match l with
  | [] => Ok []
  | x :: l' => let* y := f x in let* ys := map_result f l' in Ok (y :: ys)
  end.

(** ** Python strings *)

Module PyStr.

(** [sub in s] *)
Fixpoint contains (sub s : string) : bool :=
  String.prefix sub s ||
  match s with
  | EmptyString => false
  | String _ s' => contains sub s'
  end.

(** [s.removeprefix(p)] *)
Definition removeprefix (p s : string) : string :=
  if String.prefix p s then String.substring (String.length p) (String.length s - String.length p) s
  else s.

(** [s.removesuffix(q)]; Python leaves [s] alone when [q] is empty. *)
Definition removesuffix (q s : string) : string :=
  let n := String.length s - String.length q in
  if bool_decide (q <> "") && bool_decide (String.length q <= String.length s)
     && bool_decide (String.substring n (String.length q) s = q)
  then String.substring 0 n s
  else s.

(** [s.replace(old, "")] for a non-empty [old]: the occurrences of [old]
    are dropped from left to right, without overlap.  [skip] counts the
    characters of an occurrence still to be dropped. *)
Fixpoint remove_from (old : string) (skip : nat) (s : string) : string :=
  match s with
  | EmptyString => EmptyString
  | String c s' =>
      match skip with
      | S k => remove_from old k s'
      | O => if String.prefix old s then remove_from old (String.length old - 1) s'
             else String c (remove_from old 0 s')
      end
  end.
Definition remove_all (old s : string) : string := remove_from old 0 s.

(** [sorted(l, key=key)] on string keys: a stable sort by code points. *)
Fixpoint insert_sorted {A} (key : A -> string) (x : A) (l : list A) : list A :=
  match l with
  | [] => [x]
  | y :: l' => if String.leb (key x) (key y) then x :: l
               else y :: insert_sorted key x l'
  end.
Definition sorted {A} (key : A -> string) (l : list A) : list A :=
  foldr (insert_sorted key) [] l.

End PyStr.

(** ** Values stored in records and dictionaries *)

Module OptionDefinition.
(** Modelled from the spec: nixui/options/option_definition.py is not part
    of the sources at hand.  An option definition is a tagged value, either
    "no value" or a value expression; definitions are compared by content
    and [undefined] is the distinguished sentinel
    ([OptionDefinition.undefined()]). *)
Inductive t :=
  | undefined
  | expression (e : string).

#[global] Instance eq_dec : EqDecision t.
Proof. solve_decision. Defined.
End OptionDefinition.

(** The objects that occur as fields of a record or as values of a metadata
    dictionary.  Python's [==] on them is equality of the tagged values.
    [Undefined] is the sentinel imported from option_definition. *)
Inductive value :=
  | Undefined
  | VNone
  | VBool (b : bool)
  | VInt (z : Z)
  | VStr (s : string)
  | VDef (d : OptionDefinition.t).

#[global] Instance value_eq_dec : EqDecision value.
Proof. solve_decision. Defined.

(** [OptionDefinition.undefined()] as a value. *)
Definition undefined : value := VDef OptionDefinition.undefined.

(** ** Attribute paths *)

Module Attribute.
(** Modelled from the spec: nixui/options/attribute.py is not part of the
    sources at hand.  An attribute is an immutable path, a sequence of
    segments ([loc]); two attributes are equal iff their segments are;
    the root is the empty path.  Iterating an attribute, [len], slicing,
    [get_end] (last segment), [get_set] (parent path) and [x in attr]
    (membership of a segment) are those of the sequence. *)
Abbreviation t := (list string).

Definition from_insertion (attribute_set : t) (attribute : string) : t :=
  attribute_set ++ [attribute].

(** [self.loc[-1]]; an IndexError on the root. *)
Definition get_end (a : t) : result string :=
  match last a with
  | Some s => Ok s
  | None => Raise IndexError
  end.

(** [Attribute(self.loc[:-1])] *)
Definition get_set (a : t) : t := removelast a.

(** [attr[:i]] *)
Definition slice_to (a : t) (i : nat) : t := take i a.

(** [segment in attr] *)
Definition contains (segment : string) (a : t) : bool :=
  bool_decide (segment ∈ a).

(** [loc.index(x)]; a ValueError when [x] is no segment. *)
Fixpoint index (x : string) (loc : list string) : result nat :=
  match loc with
  | [] => Raise ValueError
  | s :: loc' => if decide (s = x) then Ok 0
                 else let* i := index x loc' in Ok (S i)
  end.
End Attribute.

(** The placeholder segment of an attribute-set-of template. *)
Definition name_placeholder : string := "<name>".

(** ** The record of a node *)

Module OptionData.

(** The dataclass [OptionData].  [instance_attrs] holds what [setattr]
    stores under a name that is no field: the class also has the names
    [update] and [copy], and an instance attribute of that name hides the
    method.  (The names every Python object has, such as [__class__], are
    left out: they are no keys of a metadata dictionary.) *)
Record t := mk {
  description : value;
  readOnly : value;
  _type : value;
  system_default_definition : value;
  configured_definition : value;
  in_memory_definition : value;
  instance_attrs : list (string * value)
}.

#[global] Instance eq_dec : EqDecision t.
Proof. solve_decision. Defined.

(** [OptionData()] *)
Definition new : t :=
  mk Undefined Undefined Undefined undefined undefined undefined [].

(** [OptionData(_type=ty)] *)
Definition new_of_type (ty : string) : t :=
  mk Undefined Undefined (VStr ty) undefined undefined undefined [].

Definition field_names : list string :=
  ["description"; "readOnly"; "_type"; "system_default_definition";
   "configured_definition"; "in_memory_definition"].

Definition method_names : list string := ["update"; "copy"].

Definition hasattr (self : t) (key : string) : bool :=
  bool_decide (key ∈ field_names) || bool_decide (key ∈ method_names)
  || bool_decide (key ∈ (instance_attrs self).*1).

Definition setattr (self : t) (key : string) (v : value) : t :=
  if decide (key = "description") then
    mk v (readOnly self) (_type self) (system_default_definition self)
       (configured_definition self) (in_memory_definition self) (instance_attrs self)
  else if decide (key = "readOnly") then
    mk (description self) v (_type self) (system_default_definition self)
       (configured_definition self) (in_memory_definition self) (instance_attrs self)
  else if decide (key = "_type") then
    mk (description self) (readOnly self) v (system_default_definition self)
       (configured_definition self) (in_memory_definition self) (instance_attrs self)
  else if decide (key = "system_default_definition") then
    mk (description self) (readOnly self) (_type self) v
       (configured_definition self) (in_memory_definition self) (instance_attrs self)
  else if decide (key = "configured_definition") then
    mk (description self) (readOnly self) (_type self) (system_default_definition self)
       v (in_memory_definition self) (instance_attrs self)
  else if decide (key = "in_memory_definition") then
    mk (description self) (readOnly self) (_type self) (system_default_definition self)
       (configured_definition self) v (instance_attrs self)
  else
    mk (description self) (readOnly self) (_type self) (system_default_definition self)
       (configured_definition self) (in_memory_definition self)
       ((key, v) :: filter (fun kv => kv.1 <> key) (instance_attrs self)).

(** [getattr(self, name)] for a data attribute: a field, or what [setattr]
    stored under another name; [None] when the record has no such data. *)
Definition getattr (self : t) (name : string) : option value :=
  if decide (name = "description") then Some (description self)
  else if decide (name = "readOnly") then Some (readOnly self)
  else if decide (name = "_type") then Some (_type self)
  else if decide (name = "system_default_definition") then
    Some (system_default_definition self)
  else if decide (name = "configured_definition") then Some (configured_definition self)
  else if decide (name = "in_memory_definition") then Some (in_memory_definition self)
  else snd <$> head (filter (fun kv => kv.1 = name) (instance_attrs self)).

(** One turn of the loop of [update]. *)
Definition update_item (self : t) (item : string * value) : t :=
  let '(key, v) := item in
  if hasattr self key then setattr self key v
  else if hasattr self ("_" +:+ key) then setattr self ("_" +:+ key) v
  else self.

(** The body of the method [update]: [for key, value in new.items()]. *)
Definition update (self : t) (new : list (string * value)) : t :=
  foldl update_item self new.

(** The body of the method [copy]: [dataclasses.replace(self)] builds a new
    record from the six fields. *)
Definition copy (self : t) : t :=
  mk (description self) (readOnly self) (_type self) (system_default_definition self)
     (configured_definition self) (in_memory_definition self) [].

(** [self.name(...)] for a method [name]: an instance attribute of that
    name is looked up first, and no value stored by [update] is callable. *)
Definition call_method {A} (self : t) (name : string) (body : A) : result A :=
  if bool_decide (name ∈ (instance_attrs self).*1) then Raise TypeError
  else Ok body.

(** [self.update(new)] *)
Definition call_update (self : t) (new : list (string * value)) : result t :=
  call_method self "update" (update self new).

(** [self.copy()] *)
Definition call_copy (self : t) : result t :=
  call_method self "copy" (copy self).

End OptionData.

(** ** The tree container

    The part of the library treelib (1.6) that the option tree calls.  A
    tree registers its node objects under their identifiers; a node carries
    its tag, its payload and its links to the parent and the children.
    treelib keeps the links of a node per tree; here every tree owns its
    nodes (a template branch is a deep copy), so a node has one pair of
    links.  treelib visits the children of a node sorted by tag; the order
    of a traversal is not modelled. *)

Module treelib.

Record Node := mkNode {
  tag : Attribute.t;
  data : option OptionData.t;
  predecessor : option Attribute.t;
  successors : list Attribute.t
}.

Definition set_tag (v : Attribute.t) (n : Node) : Node :=
  mkNode v (data n) (predecessor n) (successors n).
Definition set_data (d : option OptionData.t) (n : Node) : Node :=
  mkNode (tag n) d (predecessor n) (successors n).
Definition set_predecessor (p : option Attribute.t) (n : Node) : Node :=
  mkNode (tag n) (data n) p (successors n).
Definition set_successors (l : list Attribute.t) (n : Node) : Node :=
  mkNode (tag n) (data n) (predecessor n) l.

(** [len(node.successors) == 0] *)
Definition is_leaf (n : Node) : bool :=
  match successors n with [] => true | _ => false end.

Record Tree := mkTree {
  nodes : gmap Attribute.t Node;
  root : option Attribute.t
}.

(** [Tree()] *)
Definition new : Tree := mkTree ∅ None.

(** [nid in tree] *)
Definition contains (t : Tree) (nid : Attribute.t) : bool :=
  bool_decide (is_Some (nodes t !! nid)).

(** [tree.get_node(nid)]: the node, or [None]. *)
Definition get_node (t : Tree) (nid : Attribute.t) : option Node :=
  nodes t !! nid.

(** [tree[nid]] *)
Definition getitem (m : gmap Attribute.t Node) (nid : Attribute.t) : result Node :=
  match m !! nid with
  | Some n => Ok n
  | None => Raise NodeIDAbsentError
  end.

(** A node object as a loop sees it: its identifier and its content. *)
Definition resolve (m : gmap Attribute.t Node) (nid : Attribute.t)
  : result (Attribute.t * Node) :=
  let* n := getitem m nid in Ok (nid, n).

(** [tree.add_node(node, parent)] for a node of identifier [identifier]. *)
Definition add_node (t : Tree) (identifier : Attribute.t) (node : Node)
    (parent : option Attribute.t) : result Tree :=
  if contains t identifier then Raise DuplicatedNodeIdError
  else match parent with
       | None =>
           match root t with
           | Some _ => Raise MultipleRootError
           | None =>
               Ok (mkTree (<[identifier := set_predecessor None node]> (nodes t))
                          (Some identifier))
           end
       | Some pid =>
           match nodes t !! pid with
           | None => Raise NodeIDAbsentError
           | Some p =>
               Ok (mkTree
                     (<[identifier := set_predecessor (Some pid) node]>
                        (<[pid := set_successors (successors p ++ [identifier]) p]>
                           (nodes t)))
                     (root t))
           end
       end.

(** [tree.create_node(tag, identifier, parent=parent, data=data)] *)
Definition create_node (t : Tree) (tag identifier : Attribute.t)
    (parent : option Attribute.t) (d : option OptionData.t) : result Tree :=
  add_node t identifier (mkNode tag d None []) parent.

(** [tree.update_node(nid, data=d)] *)
Definition update_node_data (t : Tree) (nid : Attribute.t) (d : option OptionData.t)
  : result Tree :=
  let* cn := getitem (nodes t) nid in
  Ok (mkTree (<[nid := set_data d cn]> (nodes t)) (root t)).

(** [successors[successors.index(nid)] = val] *)
Fixpoint replace_first (nid val : Attribute.t) (l : list Attribute.t)
  : result (list Attribute.t) :=
  match l with
  | [] => Raise ValueError
  | x :: l' => if decide (x = nid) then Ok (val :: l')
               else let* r := replace_first nid val l' in Ok (x :: r)
  end.

(** [tree.update_node(nid, identifier=val, tag=val)]: the node is taken out
    of the registry and registered under [val] (over whatever was there),
    the parent's list of children and the children's parent link follow,
    then the tag is set. *)
Definition update_node_identifier (t : Tree) (nid val : Attribute.t) : result Tree :=
  let* cn := getitem (nodes t) nid in
  let m1 := <[val := cn]> (delete nid (nodes t)) in
  let* m2 :=
    match predecessor cn with
    | None => Ok m1
    | Some p =>
        let* pn := getitem m1 p in
        let* l := replace_first nid val (successors pn) in
        Ok (<[p := set_successors l pn]> m1)
    end in
  let* cn2 := getitem m2 val in
  let* m3 :=
    for_each (fun m fp => let* c := getitem m fp in
                          Ok (<[fp := set_predecessor (Some val) c]> m))
             (successors cn2) m2 in
  let root' := if decide (root t = Some nid) then Some val else root t in
  Ok (mkTree (alter (set_tag val) val m3) root').

(** [tree.is_branch(nid)]: the identifiers of the children. *)
Definition is_branch (t : Tree) (nid : Attribute.t) : result (list Attribute.t) :=
  let* n := getitem (nodes t) nid in Ok (successors n).

(** [tree.children(nid)] *)
Definition children (t : Tree) (nid : Attribute.t)
  : result (list (Attribute.t * Node)) :=
  let* fp := is_branch t nid in
  map_result (resolve (nodes t)) fp.

(** The loop of [tree.expand_tree(nid)] (depth first): the head of the
    queue is produced and replaced by its children. *)
Fixpoint expand_queue (fuel : nat) (t : Tree) (queue : list (Attribute.t * Node))
  : result (list Attribute.t) :=
  match queue with
  | [] => Ok []
  | (i, n) :: rest =>
      match fuel with
      | O => OutOfFuel
      | S fuel' =>
          let* expansion := map_result (resolve (nodes t)) (successors n) in
          let* tl := expand_queue fuel' t (expansion ++ rest) in
          Ok (i :: tl)
      end
  end.

(** [list(tree.expand_tree(nid))] *)
Definition expand_tree (fuel : nat) (t : Tree) (nid : Attribute.t)
  : result (list Attribute.t) :=
  let* n := getitem (nodes t) nid in
  let* queue := map_result (resolve (nodes t)) (successors n) in
  let* tl := expand_queue fuel t queue in
  Ok (nid :: tl).

(** [tree.leaves(nid)] for an identifier [nid]: the nodes without children
    met by the traversal from [nid], [nid] itself when it has none. *)
Definition leaves (fuel : nat) (t : Tree) (nid : Attribute.t)
  : result (list (Attribute.t * Node)) :=
  let* ids := expand_tree fuel t nid in
  let* ns := map_result (resolve (nodes t)) ids in
  Ok (filter (fun x => is_leaf x.2 = true) ns).

(** [tree.subtree(nid)]: the nodes met by the traversal from [nid], the
    parent link of [nid] cleared. *)
Definition subtree (fuel : nat) (t : Tree) (nid : Attribute.t) : result Tree :=
  let* ids := expand_tree fuel t nid in
  let* ns := map_result (resolve (nodes t)) ids in
  Ok (mkTree
        (foldl (fun m x => <[x.1 := if decide (x.1 = nid)
                                    then set_predecessor None x.2 else x.2]> m) ∅ ns)
        (Some nid)).

(** [Tree(tree, deep=True)]: copies of equal content. *)
Definition deep_copy (t : Tree) : Tree := t.

(** [tree.all_nodes()] *)
Definition all_nodes (t : Tree) : list (Attribute.t * Node) :=
  map_to_list (nodes t).

(** [tree.paste(nid, new_tree)] *)
Definition paste (t : Tree) (nid : Attribute.t) (new_tree : Tree) : result Tree :=
  match root new_tree with
  | None => Ok t
  | Some new_root =>
      if negb (contains t nid) then Raise NodeIDAbsentError
      else if bool_decide (nodes new_tree ##ₘ nodes t) then
        let m1 := nodes new_tree ∪ nodes t in
        let* r := getitem m1 new_root in
        let m2 := <[new_root := set_predecessor (Some nid) r]> m1 in
        let* p := getitem m2 nid in
        Ok (mkTree (<[nid := set_successors (successors p ++ [new_root]) p]> m2)
                   (root t))
      else Raise ValueError
  end.

End treelib.

(** ** The option tree *)

Module OptionTree.

Import treelib.

(** A double quote, and the placeholder segment as [str] prints it and as
    the source writes it in two places: the six characters between quotes. *)
Definition dquote : string := String "034"%char EmptyString.
Definition quoted_name_placeholder : string :=
  dquote +:+ name_placeholder +:+ dquote.

(** [uuid.uuid4()] draws from a supply that never repeats: the n-th draw
    is the token [n]. *)
Definition uuid := nat.

(** The object: its tree, its two caches and its marker.  Two more fields
    stand for the surroundings the methods use: the number of tokens drawn
    so far, and the table that [functools.lru_cache] keeps for
    [get_change_set_with_ancestors], most recent entry first.  The table
    finds an entry by the hash of the object, which is the hash of its
    marker, and by the flag. *)
Record t := mk {
  tree : Tree;
  in_memory_change_cache : gmap Attribute.t value;
  configured_change_cache : gmap Attribute.t value;
  change_marker : option uuid;
  uuid4_drawn : nat;
  lru : list (option uuid * bool * gset Attribute.t)
}.

Definition set_tree (self : t) (tr : Tree) : t :=
  mk tr (in_memory_change_cache self) (configured_change_cache self)
     (change_marker self) (uuid4_drawn self) (lru self).

(** *** Methods that read and write [self.tree] only

    They are given the tree. *)

(** [self.tree.get_node(attribute).data]: no node, no attribute [data]. *)
Definition node_data (tr : Tree) (attribute : Attribute.t)
  : result (option OptionData.t) :=
  match get_node tr attribute with
  | None => Raise AttributeError
  | Some n => Ok (data n)
  end.

Definition _is_attribute_set (tr : Tree) (attribute : Attribute.t) : result bool :=
  let* d := node_data tr attribute in
  match d with
  | Some d =>
      match OptionData._type d with
      | VStr ty => Ok (PyStr.contains "attribute set of" ty)
      | _ => Raise TypeError
      end
  | None => Ok false
  end.

(** One turn of the loop that renames the nodes of a copied template. *)
Definition substitute_name (attribute : Attribute.t) (tr : Tree)
    (node : Attribute.t * Node) : result Tree :=
  let attr := node.1 in
  let* segment := Attribute.get_end attribute in
  let* i := Attribute.index name_placeholder attr in
  let new_attr := <[i := segment]> attr in
  update_node_identifier tr attr new_attr.

Definition _get_attribute_set_template_branch (fuel : nat) (tr : Tree)
    (attribute : Attribute.t) : result Tree :=
  let parent_attribute := Attribute.get_set attribute in
  let* d := node_data tr parent_attribute in
  match d with
  | None => Raise AttributeError
  | Some d =>
      if decide (OptionData._type d = VStr "attribute set of submodules") then
        let submodule_spec_attribute :=
          Attribute.from_insertion parent_attribute name_placeholder in
        let* st := subtree fuel tr submodule_spec_attribute in
        let branch := deep_copy st in
        for_each (substitute_name attribute) (all_nodes branch) branch
      else
        let* option_data_spec := OptionData.call_copy d in
        let* ty :=
          match OptionData._type d with
          | VStr ty => Ok (PyStr.removesuffix "s" (PyStr.removeprefix "attribute set of " ty))
          | _ => Raise AttributeError
          end in
        let option_data_spec := OptionData.setattr option_data_spec "_type" (VStr ty) in
        add_node new attribute (mkNode attribute (Some option_data_spec) None []) None
  end.

(** One turn of the loop of [_upsert_node_data] over the segments of the
    path: [st] is the tree and [parent_option_path]. *)
Definition insert_segment (fuel : nat) (st : Tree * Attribute.t)
    (option_path_key : string) : result (Tree * Attribute.t) :=
  let '(tr, parent_option_path) := st in
  let child_option_path := Attribute.from_insertion parent_option_path option_path_key in
  let* tr' :=
    if contains tr child_option_path then Ok tr
    else
      let* is_set := _is_attribute_set tr parent_option_path in
      let* from_template :=
        if is_set then
          let* e := Attribute.get_end child_option_path in
          Ok (bool_decide (e <> name_placeholder))
        else Ok false in
      if from_template then
        let* new_branch := _get_attribute_set_template_branch fuel tr child_option_path in
        paste tr parent_option_path new_branch
      else
        create_node tr child_option_path child_option_path (Some parent_option_path)
                    (Some (OptionData.new_of_type "attribute set")) in
  Ok (tr', child_option_path).

Definition _upsert_node_data (fuel : nat) (tr : Tree) (option_path : Attribute.t)
    (option_data_dict : list (string * value)) : result Tree :=
  let* tr1 :=
    match get_node tr option_path with
    | Some _ => Ok tr
    | None =>
        let* st := for_each (insert_segment fuel) option_path (tr, []) in
        Ok st.1
    end in
  let* d := node_data tr1 option_path in
  let option_data := default OptionData.new d in
  let* option_data := OptionData.call_update option_data option_data_dict in
  update_node_data tr1 option_path (Some option_data).

Definition _get_data (tr : Tree) (attribute : Attribute.t) : result OptionData.t :=
  let* d := node_data tr attribute in
  match d with
  | None => Raise ValueError
  | Some d => Ok d
  end.

Definition get_in_memory_definition (tr : Tree) (attribute : Attribute.t) : result value :=
  let* d := _get_data tr attribute in Ok (OptionData.in_memory_definition d).

Definition get_configured_definition (tr : Tree) (attribute : Attribute.t) : result value :=
  let* d := _get_data tr attribute in Ok (OptionData.configured_definition d).

Definition get_system_default_definition (tr : Tree) (attribute : Attribute.t)
  : result value :=
  let* d := _get_data tr attribute in Ok (OptionData.system_default_definition d).

Definition get_type (tr : Tree) (attribute : Attribute.t) : result value :=
  let* d := _get_data tr attribute in Ok (OptionData._type d).

Definition get_description (tr : Tree) (attribute : Attribute.t) : result value :=
  let* d := _get_data tr attribute in Ok (OptionData.description d).

Definition is_readonly (tr : Tree) (attribute : Attribute.t) : result value :=
  let* d := _get_data tr attribute in Ok (OptionData.readOnly d).

Definition get_definition (tr : Tree) (attribute : Attribute.t)
    (include_in_memory_definition include_configured_change : bool) : result value :=
  let* found :=
    if include_in_memory_definition then
      let* in_memory_definition := get_in_memory_definition tr attribute in
      if decide (in_memory_definition <> undefined) then
        let* v := get_in_memory_definition tr attribute in Ok (Some v)
      else Ok None
    else Ok None in
  match found with
  | Some v => Ok v
  | None =>
      let* found :=
        if include_configured_change then
          let* configured_definition := get_configured_definition tr attribute in
          if decide (configured_definition <> undefined) then Ok (Some configured_definition)
          else Ok None
        else Ok None in
      match found with
      | Some v => Ok v
      | None =>
          let* system_default_definition := get_system_default_definition tr attribute in
          if decide (system_default_definition <> undefined) then Ok system_default_definition
          else Ok undefined
      end
  end.

(** [for node in self.tree.all_nodes(): if '<name>' not in node.tag: yield
    (node.identifier, node.data)] *)
Definition iter_attribute_data (tr : Tree) : list (Attribute.t * option OptionData.t) :=
  omap (fun node : Attribute.t * Node =>
          if negb (Attribute.contains name_placeholder (tag node.2))
          then Some (node.1, data node.2) else None)
       (all_nodes tr).

Definition iter_attributes (tr : Tree) : list Attribute.t :=
  (iter_attribute_data tr).*1.

(** The recursion of [rename_attribute]; [fuel] bounds its depth. *)
Fixpoint rename_attribute_tree (fuel : nat) (tr : Tree)
    (old_attribute new_attribute : Attribute.t) : result Tree :=
  match fuel with
  | O => OutOfFuel
  | S fuel' =>
      let* tr := update_node_identifier tr old_attribute new_attribute in
      let* cs := treelib.children tr new_attribute in
      for_each (fun tr (node : Attribute.t * Node) =>
                  let old_child_attribute := node.1 in
                  let* e := Attribute.get_end old_child_attribute in
                  let new_child_attribute := Attribute.from_insertion new_attribute e in
                  rename_attribute_tree fuel' tr old_child_attribute new_child_attribute)
               cs tr
  end.

(** The module imports the names [Tree] and [Node] from treelib and never
    binds the name [treelib]: looking up
    [treelib.exceptions.NodeIDAbsentError] raises NameError. *)
Definition treelib_exceptions_NodeIDAbsentError : result exn := Raise NameError.

(** [try: body / except exc_class: handler].  The class is looked up when
    the body has raised. *)
Definition try_except {A} (body : result A) (exc_class : result exn)
    (handler : result A) : result A :=
  match body with
  | Raise e =>
      let* c := exc_class in
      if decide (e = c) then handler else Raise e
  | r => r
  end.

(** The dictionary [{node.tag: node.data for node in children if ...}]. *)
Definition children (fuel : nat) (tr : Tree) (attribute : Attribute.t) (mode : string)
  : result (gmap Attribute.t (option OptionData.t)) :=
  let* children :=
    try_except
      (if decide (mode = "direct") then treelib.children tr attribute
       else if decide (mode = "leaves") then treelib.leaves fuel tr attribute
       else Raise ValueError)
      treelib_exceptions_NodeIDAbsentError
      (Raise ValueError) in
  Ok (foldl (fun (d : gmap Attribute.t (option OptionData.t)) (node : Attribute.t * Node) =>
               if negb (Attribute.contains quoted_name_placeholder (tag node.2))
               then <[tag node.2 := data node.2]> d else d)
            ∅ children).

(** [d[0]] on the dictionary returned by [children]: its keys are
    attributes, none of them equals the integer [0], and the subscript
    raises KeyError.  (Had it returned, the loop below would go on with
    its result.) *)
Definition getitem_int (d : gmap Attribute.t (option OptionData.t)) (i : Z)
  : result Attribute.t :=
  Raise KeyError.

Fixpoint get_next_branching_option (fuel : nat) (tr : Tree) (attribute : Attribute.t)
  : result Attribute.t :=
  match fuel with
  | O => OutOfFuel
  | S fuel' =>
      let* c := children fuel tr attribute "direct" in
      if decide (size c = 1) then
        let* c := children fuel tr attribute "direct" in
        let* attribute := getitem_int c 0 in
        get_next_branching_option fuel' tr attribute
      else Ok attribute
  end.

(** *** Methods on the whole object *)

Definition sort_key (str : Attribute.t -> string)
    (s : Attribute.t * list (string * value)) : string :=
  PyStr.remove_all quoted_name_placeholder (str s.1).

(** One turn of the loop of [__init__] over [config_options.items()]; [st]
    is the tree and [self.configured_change_cache].  An option that has no
    node is reported to the log and dropped. *)
Definition load_config_option (fuel : nat) (st : Tree * gmap Attribute.t value)
    (item : Attribute.t * value) : result (Tree * gmap Attribute.t value) :=
  let '(tr, cache) := st in
  let '(option_path, option_definition) := item in
  match get_node tr option_path with
  | Some _ =>
      let* tr := _upsert_node_data fuel tr option_path
                   [("configured_definition", option_definition)] in
      Ok (tr, <[option_path := option_definition]> cache)
  | None => Ok (tr, cache)
  end.

(** [OptionTree(system_option_data, config_options)].  The two
    dictionaries are given by their items; [str] is the printing of
    attributes ([Attribute.__str__], not part of the sources at hand). *)
Definition __init__ (str : Attribute.t -> string) (fuel : nat)
    (system_option_data : list (Attribute.t * list (string * value)))
    (config_options : list (Attribute.t * value)) : result t :=
  let* tr := create_node new [] [] None (Some (OptionData.new_of_type "attribute set")) in
  let* tr :=
    for_each (fun tr (item : Attribute.t * list (string * value)) =>
                _upsert_node_data fuel tr item.1 item.2)
             (PyStr.sorted (sort_key str) system_option_data) tr in
  let* st := for_each (load_config_option fuel) config_options (tr, ∅) in
  Ok (mk st.1 ∅ st.2 None 0 []).

Definition _update_in_memory_change_cache (self : t) (attribute : Attribute.t)
    (option_definition : value) : result t :=
  let* d := node_data (tree self) attribute in
  match d with
  | None => Raise AttributeError
  | Some d =>
      let in_memory_definition := OptionData.in_memory_definition d in
      let cache :=
        if decide (in_memory_definition = OptionData.configured_definition d) then
          if decide (is_Some (in_memory_change_cache self !! attribute))
          then delete attribute (in_memory_change_cache self)
          else in_memory_change_cache self
        else <[attribute := option_definition]> (in_memory_change_cache self) in
      Ok (mk (tree self) cache (configured_change_cache self)
             (Some (uuid4_drawn self)) (S (uuid4_drawn self)) (lru self))
  end.

(** The generator [iter_changes]: what it yields, and how it ends
    ([Ok tt] when it is exhausted). *)
Fixpoint iter_changes_loop (tr : Tree) (include_configured_change : bool)
    (items : list (Attribute.t * value))
  : list (Attribute.t * value * value) * result unit :=
  match items with
  | [] => ([], Ok tt)
  | (attr, new_definition) :: items' =>
      match get_definition tr attr false include_configured_change with
      | Ok old_definition =>
          let '(ys, fin) := iter_changes_loop tr include_configured_change items' in
          if decide (new_definition <> old_definition)
          then ((attr, old_definition, new_definition) :: ys, fin)
          else (ys, fin)
      | Raise e => ([], Raise e)
      | OutOfFuel => ([], OutOfFuel)
      end
  end.

Definition iter_changes (self : t) (get_configured_changes : bool)
  : list (Attribute.t * value * value) * result unit :=
  let change_cache :=
    if get_configured_changes then configured_change_cache self
    else in_memory_change_cache self in
  iter_changes_loop (tree self) (negb get_configured_changes) (map_to_list change_cache).

(** The body of [get_change_set_with_ancestors]. *)
Definition change_set_with_ancestors (self : t) (get_configured_changes : bool)
  : result (gset Attribute.t) :=
  let '(changes, fin) := iter_changes self get_configured_changes in
  let* _ := fin in
  Ok (foldl (fun (acc : gset Attribute.t) (c : Attribute.t * value * value) =>
               let attr := c.1.1 in
               foldl (fun (acc : gset Attribute.t) i => acc ∪ {[ Attribute.slice_to attr i ]})
                     acc (seq 0 (length attr)))
            ∅ changes).

(** The table of [functools.lru_cache()], which keeps 128 entries. *)
Definition lru_maxsize : nat := 128.

Definition lru_key_is (marker : option uuid) (flag : bool)
    (entry : option uuid * bool * gset Attribute.t) : bool :=
  bool_decide (entry.1 = (marker, flag)).

Definition lru_find (marker : option uuid) (flag : bool)
    (table : list (option uuid * bool * gset Attribute.t))
  : option (gset Attribute.t) :=
  snd <$> head (filter (fun e => lru_key_is marker flag e = true) table).

(** [get_change_set_with_ancestors] as decorated: the set, and the object
    with the table brought up to date. *)
Definition get_change_set_with_ancestors (self : t) (get_configured_changes : bool)
  : result (gset Attribute.t * t) :=
  let key := (change_marker self, get_configured_changes) in
  let others :=
    filter (fun e => lru_key_is (change_marker self) get_configured_changes e = false)
           (lru self) in
  let store r :=
    mk (tree self) (in_memory_change_cache self) (configured_change_cache self)
       (change_marker self) (uuid4_drawn self) (take lru_maxsize ((key, r) :: others)) in
  match lru_find (change_marker self) get_configured_changes (lru self) with
  | Some r => Ok (r, store r)
  | None =>
      let* r := change_set_with_ancestors self get_configured_changes in
      Ok (r, store r)
  end.

Definition insert_attribute (fuel : nat) (self : t) (attribute : Attribute.t) : result t :=
  let* tr := _upsert_node_data fuel (tree self) attribute [] in
  Ok (set_tree self tr).

Definition rename_attribute (fuel : nat) (self : t)
    (old_attribute new_attribute : Attribute.t) : result t :=
  let* tr := rename_attribute_tree fuel (tree self) old_attribute new_attribute in
  Ok (set_tree self tr).

Definition set_definition (fuel : nat) (self : t) (option_path : Attribute.t)
    (option_definition : value) : result t :=
  let* tr := _upsert_node_data fuel (tree self) option_path
               [("in_memory_definition", option_definition)] in
  _update_in_memory_change_cache (set_tree self tr) option_path option_definition.

End OptionTree.

(** * Vocabulary of the properties *)

(** ** Payload of the nodes

    [node_ok P k n]: the node registered under [k] is tagged [k] and carries
    a record that satisfies [P].  [same_payload] relates two registries that
    differ in the links of their nodes only; [extends m m'] says that [m']
    keeps every node of [m] with its tag and record. *)

Definition node_ok (P : OptionData.t -> Prop) (k : Attribute.t) (n : treelib.Node) : Prop :=
  treelib.tag n = k /\ exists d, treelib.data n = Some d /\ P d.

Definition tree_ok (P : OptionData.t -> Prop) (m : gmap Attribute.t treelib.Node) : Prop :=
  forall k n, m !! k = Some n -> node_ok P k n.

Definition payload_eq (n n' : treelib.Node) : Prop :=
  treelib.tag n' = treelib.tag n /\ treelib.data n' = treelib.data n.

Definition same_payload (m m' : gmap Attribute.t treelib.Node) : Prop :=
  forall k, option_Forall2 payload_eq (m !! k) (m' !! k).

Definition extends (m m' : gmap Attribute.t treelib.Node) : Prop :=
  forall k n, m !! k = Some n -> exists n', m' !! k = Some n' /\ payload_eq n n'.

(** What [P] must allow for the nodes that an insertion creates: the record
    of a plain attribute set, and the copy of a record with another type. *)
Definition closed_under_cloning (P : OptionData.t -> Prop) : Prop :=
  P (OptionData.new_of_type "attribute set") /\
  forall d v, P d -> P (OptionData.setattr (OptionData.copy d) "_type" v).

(** ** Reachable states *)

(** The calls that change an option tree. *)
Inductive call :=
  | Set_definition (option_path : Attribute.t) (option_definition : value)
  | Insert_attribute (attribute : Attribute.t)
  | Rename_attribute (old_attribute new_attribute : Attribute.t)
  | Get_change_set_with_ancestors (get_configured_changes : bool).

Definition run (fuel : nat) (c : call) (self : OptionTree.t) : result OptionTree.t :=
  match c with
  | Set_definition option_path option_definition =>
      OptionTree.set_definition fuel self option_path option_definition
  | Insert_attribute attribute => OptionTree.insert_attribute fuel self attribute
  | Rename_attribute old_attribute new_attribute =>
      OptionTree.rename_attribute fuel self old_attribute new_attribute
  | Get_change_set_with_ancestors get_configured_changes =>
      let* r := OptionTree.get_change_set_with_ancestors self get_configured_changes in
      Ok r.2
  end.

Definition is_rename (c : call) : bool :=
  match c with
  | Rename_attribute _ _ => true
  | _ => false
  end.

(** The states an option tree goes through: built by [__init__], then
    changed by calls that return. *)
Inductive reachable : OptionTree.t -> Prop :=
  | reachable_init str fuel system_option_data config_options s :
      OptionTree.__init__ str fuel system_option_data config_options = Ok s ->
      reachable s
  | reachable_call fuel c s s' :
      reachable s -> run fuel c s = Ok s' -> reachable s'.

(** The same, when no attribute is renamed. *)
Inductive reachable_without_rename : OptionTree.t -> Prop :=
  | reachable_wr_init str fuel system_option_data config_options s :
      OptionTree.__init__ str fuel system_option_data config_options = Ok s ->
      reachable_without_rename s
  | reachable_wr_call fuel c s s' :
      reachable_without_rename s -> is_rename c = false -> run fuel c s = Ok s' ->
      reachable_without_rename s'.

(** ** Soundness of the caches, the marker and the table *)

Definition in_memory_cache_sound (s : OptionTree.t) : Prop :=
  forall a v, OptionTree.in_memory_change_cache s !! a = Some v ->
    exists d, OptionTree._get_data (OptionTree.tree s) a = Ok d /\
      OptionData.in_memory_definition d = v /\
      OptionData.in_memory_definition d <> OptionData.configured_definition d.

Definition configured_cache_sound (s : OptionTree.t) : Prop :=
  forall a v, OptionTree.configured_change_cache s !! a = Some v ->
    exists d, OptionTree._get_data (OptionTree.tree s) a = Ok d /\
      OptionData.configured_definition d = v.

Definition marker_fresh (s : OptionTree.t) : Prop :=
  forall m, OptionTree.change_marker s = Some m -> m < OptionTree.uuid4_drawn s.

Definition lru_coherent (s : OptionTree.t) : Prop :=
  forall m flag r, (m, flag, r) ∈ OptionTree.lru s ->
    (forall u, m = Some u -> u < OptionTree.uuid4_drawn s) /\
    (m = OptionTree.change_marker s -> OptionTree.change_set_with_ancestors s flag = Ok r).

Record caches_ok (s : OptionTree.t) : Prop := {
  caches_in_memory : in_memory_cache_sound s;
  caches_configured : configured_cache_sound s;
  caches_marker : marker_fresh s;
  caches_lru : lru_coherent s
}.

(** ** Shape of the tree

    The identifiers of an option tree are the paths of its nodes.  The
    vocabulary below states that, and describes the renaming of a copied
    template: [rename_node f n] is the node [n] with [f] applied to every
    identifier it holds. *)

Definition rename_node (f : Attribute.t -> Attribute.t) (n : treelib.Node) : treelib.Node :=
  treelib.mkNode (f (treelib.tag n)) (treelib.data n)
    (f <$> treelib.predecessor n) (f <$> treelib.successors n).

(** [image f m m']: the registry [m'] is [m] with every identifier replaced
    by its image under [f], in the keys and in the nodes. *)
Definition image (f : Attribute.t -> Attribute.t) (m m' : gmap Attribute.t treelib.Node) : Prop :=
  forall k' n', m' !! k' = Some n' <->
    exists k n, m !! k = Some n /\ k' = f k /\ n' = rename_node f n.

(** The links of a registry are consistent: the children of a node are
    registered and point back to it, no child is listed twice, the parent of
    a node is registered and lists it, a node is one segment longer than its
    parent, and a node is tagged with its identifier. *)
Record links_ok (m : gmap Attribute.t treelib.Node) : Prop := {
  links_succ : forall k n c, m !! k = Some n -> c ∈ treelib.successors n ->
    exists cn, m !! c = Some cn /\ treelib.predecessor cn = Some k;
  links_nodup : forall k n, m !! k = Some n -> NoDup (treelib.successors n);
  links_pred : forall k n p, m !! k = Some n -> treelib.predecessor n = Some p ->
    exists pn, m !! p = Some pn /\ k ∈ treelib.successors pn;
  links_len : forall k n p, m !! k = Some n -> treelib.predecessor n = Some p ->
    length k = S (length p);
  links_tag : forall k n, m !! k = Some n -> treelib.tag n = k
}.

(** What one [update_node(a, identifier=b, tag=b)] does to the identifiers
    when [b] is not registered: [a] becomes [b]. *)
Definition swap (a b k : Attribute.t) : Attribute.t :=
  if decide (k = a) then b else if decide (k = b) then a else k.

(** The registry of a tree whose identifiers are the paths of its nodes:
    consistent links, every node one segment below its parent, the empty
    path the only node without a parent, and registered. *)
Record wf (m : gmap Attribute.t treelib.Node) : Prop := {
  wf_links : links_ok m;
  wf_paths : forall k n p, m !! k = Some n -> treelib.predecessor n = Some p ->
    exists x, k = (p ++ [x])%list;
  wf_root : forall k n, m !! k = Some n -> treelib.predecessor n = None -> k = [];
  wf_top : is_Some (m !! [])
}.

(** The branch cut out by [subtree]. *)
Record branch_of (m : gmap Attribute.t treelib.Node) (nid : Attribute.t)
    (b : gmap Attribute.t treelib.Node) : Prop := {
  branch_links : links_ok b;
  branch_root : exists rn, b !! nid = Some rn /\ treelib.predecessor rn = None;
  branch_prefix : forall k, is_Some (b !! k) -> nid `prefix_of` k;
  branch_paths : forall k n, b !! k = Some n -> k <> nid ->
    exists p x, treelib.predecessor n = Some p /\ k = (p ++ [x])%list;
  branch_payload : forall k n', b !! k = Some n' ->
    exists n, m !! k = Some n /\ payload_eq n n'
}.

(** The new identifier of a template node: the segment at [j] replaced. *)
Definition subst_at (j : nat) (seg : string) (k : Attribute.t) : Attribute.t :=
  <[j := seg]> k.

(** The identifiers in the middle of the renaming loop: the nodes of [R]
    have been renamed. *)
Definition sigma (j : nat) (seg : string) (R : gset Attribute.t) (k : Attribute.t)
  : Attribute.t :=
  if decide (k ∈ R) then subst_at j seg k else k.

(** A change of the records leaves the shape of the registry as it is. *)
Definition same_links (n n' : treelib.Node) : Prop :=
  treelib.tag n' = treelib.tag n /\ treelib.predecessor n' = treelib.predecessor n /\
  treelib.successors n' = treelib.successors n.


(** The path [k] with its prefix [a] replaced by [b]. *)
Definition move_prefix (a b k : Attribute.t) : Attribute.t :=
  if decide (a `prefix_of` k) then (b ++ drop (length a) k)%list else k.

(** The identifiers in the middle of a renaming: the nodes of [R] have
    been given their new identifier [g k]. *)
Definition renamed (g : Attribute.t -> Attribute.t) (R : gset Attribute.t)
    (k : Attribute.t) : Attribute.t :=
  if decide (k ∈ R) then g k else k.


(** The keys of a metadata dictionary, as the class documents them. *)
Definition documented_keys : list string := ["description"; "readOnly"; "type"; "default"].

(** ** Sample option trees *)

Module Sample.

(** A printing of attributes: the segments joined by dots, the placeholder
    between quotes. *)
Definition str_segment (s : string) : string :=
  if decide (s = name_placeholder) then OptionTree.quoted_name_placeholder else s.

Fixpoint str (a : Attribute.t) : string :=
  match a with
  | [] => ""
  | [s] => str_segment s
  | s :: a' => str_segment s +:+ "." +:+ str a'
  end.

Definition one (e : string) : value := VDef (OptionDefinition.expression e).

Definition fallback : OptionTree.t := OptionTree.mk treelib.new ∅ ∅ None 0 [].

Definition get (r : result OptionTree.t) : OptionTree.t :=
  match r with
  | Ok s => s
  | _ => fallback
  end.

(** One option [a.b.c], configured to [1]. *)
Definition system_option_data : list (Attribute.t * list (string * value)) :=
  [(["a"; "b"; "c"], [("type", VStr "string"); ("default", VStr "x")])].

Definition config_options : list (Attribute.t * value) :=
  [(["a"; "b"; "c"], one "1")].

Definition s0 : OptionTree.t :=
  Eval vm_compute in get (OptionTree.__init__ str 1 system_option_data config_options).

(** [a.b.c] is set to [2] in memory, then [a.b] to [3]. *)
Definition s1 : OptionTree.t :=
  Eval vm_compute in get (OptionTree.set_definition 1 s0 ["a"; "b"; "c"] (one "2")).

Definition s2 : OptionTree.t :=
  Eval vm_compute in get (OptionTree.set_definition 1 s1 ["a"; "b"] (one "3")).

(** The node of [a.b.c] in that state, and its record. *)
Definition node_abc : treelib.Node :=
  Eval vm_compute in
    default (treelib.mkNode [] None None [])
            (treelib.get_node (OptionTree.tree s1) ["a"; "b"; "c"]).

Definition data_abc : OptionData.t :=
  Eval vm_compute in default OptionData.new (treelib.data node_abc).

(** An attribute set of submodules [a] with the template option
    [a.<name>.x]. *)
Definition template_option_data : list (Attribute.t * list (string * value)) :=
  [(["a"], [("type", VStr "attribute set of submodules")]);
   (["a"; name_placeholder; "x"], [("type", VStr "string")])].

Definition t0 : OptionTree.t :=
  Eval vm_compute in get (OptionTree.__init__ str 1 template_option_data []).

(** An option whose metadata names its system default, configured to the
    same definition. *)
Definition default_option_data : list (Attribute.t * list (string * value)) :=
  [(["a"], [("type", VStr "string"); ("system_default_definition", one "1")])].

Definition default_config_options : list (Attribute.t * value) :=
  [(["a"], one "1")].

Definition u0 : OptionTree.t :=
  Eval vm_compute in
    get (OptionTree.__init__ str 1 default_option_data default_config_options).

(** Two options [a] and [b] below the root; [a] is renamed to [b], the
    name of its sibling, and then to [c]. *)
Definition sibling_option_data : list (Attribute.t * list (string * value)) :=
  [(["a"], [("type", VStr "string")]); (["b"], [("type", VStr "string")])].

Definition w0 : OptionTree.t :=
  Eval vm_compute in get (OptionTree.__init__ str 1 sibling_option_data []).

Definition w1 : OptionTree.t :=
  Eval vm_compute in get (OptionTree.rename_attribute 2 w0 ["a"] ["b"]).

Definition w2 : OptionTree.t :=
  Eval vm_compute in get (OptionTree.rename_attribute 2 w1 ["b"] ["c"]).

(** An attribute set of submodules [a] whose template has an attribute set
    of submodules [a.<name>.b], with the template option
    [a.<name>.b.<name>.c]. *)
Definition nested_option_data : list (Attribute.t * list (string * value)) :=
  [(["a"], [("type", VStr "attribute set of submodules")]);
   (["a"; name_placeholder; "b"], [("type", VStr "attribute set of submodules")]);
   (["a"; name_placeholder; "b"; name_placeholder; "c"], [("type", VStr "string")])].

Definition n0 : OptionTree.t :=
  Eval vm_compute in get (OptionTree.__init__ str 1 nested_option_data []).




(** The node of [a] among the two siblings. *)
Definition sibling_node : treelib.Node :=
  Eval vm_compute in
    default (treelib.mkNode [] None None []) (treelib.get_node (OptionTree.tree w0) ["a"]).

End Sample.

(** * Properties *)

(** ** Reasoning on outcomes *)

Lemma rbind_Ok {A B} (r : result A) (k : A -> result B) (b : B) :
  rbind r k = Ok b -> exists a, r = Ok a /\ k a = Ok b.
Proof. destruct r; simpl; intros H; try discriminate. eauto. Qed.

Lemma rbind_Ok_eq {A B} (r : result A) (k : A -> result B) (a : A) :
  r = Ok a -> rbind r k = k a.
Proof. intros ->. reflexivity. Qed.

(** Splits a hypothesis saying that a sequence of calls returned. *)
Ltac ok_step H :=
  match type of H with
  | rbind _ _ = Ok _ =>
      let a := fresh "x" in
      let E := fresh "E" in
      apply rbind_Ok in H as (a & E & H)
  | Ok _ = Ok _ => injection H as H
  | Raise _ = Ok _ => discriminate H
  | OutOfFuel = Ok _ => discriminate H
  end.
Ltac ok_inv H := repeat ok_step H.

Lemma for_each_inv {A S} (P : S -> Prop) (body : S -> A -> result S) (l : list A) :
  (forall acc x acc', x ∈ l -> P acc -> body acc x = Ok acc' -> P acc') ->
  forall acc acc', P acc -> for_each body l acc = Ok acc' -> P acc'.
Proof.
  induction l as [|x l IH]; simpl; intros Hstep acc acc' HP H.
  - ok_inv H. by subst.
  - ok_inv H. eapply IH; [ | | exact H].
    + intros ? y ? Hy. apply Hstep. by right.
    + eapply Hstep; [by left | exact HP | exact E].
Qed.

Lemma map_result_Ok {A B} (f : A -> result B) (l : list A) (ys : list B) :
  map_result f l = Ok ys -> Forall2 (fun x y => f x = Ok y) l ys.
Proof.
  revert ys. induction l as [|x l IH]; simpl; intros ys H.
  - ok_inv H. subst. constructor.
  - ok_inv H. subst. constructor; auto.
Qed.

Lemma map_result_total {A B} (f : A -> result B) (l : list A) :
  (forall x, x ∈ l -> exists y, f x = Ok y) -> exists ys, map_result f l = Ok ys.
Proof.
  induction l as [|x l IH]; simpl; intros H.
  - eauto.
  - destruct (H x) as [y Hy]; [by left|]. rewrite Hy. simpl.
    destruct IH as [ys Hys]; [intros; apply H; by right|].
    rewrite Hys. simpl. eauto.
Qed.

(** ** Resolution of a definition *)

Lemma get_data_node tr attribute d :
  OptionTree._get_data tr attribute = Ok d <->
  exists n, treelib.nodes tr !! attribute = Some n /\ treelib.data n = Some d.
Proof.
  unfold OptionTree._get_data, OptionTree.node_data, treelib.get_node. split.
  - destruct (treelib.nodes tr !! attribute) as [n|]; simpl; [|discriminate].
    destruct (treelib.data n) eqn:Hd; [|discriminate]. intros [= ->]. eauto.
  - intros (n & -> & Hd). simpl. by rewrite Hd.
Qed.

Lemma get_definition_chain tr attribute d im cf :
  OptionTree._get_data tr attribute = Ok d ->
  OptionTree.get_definition tr attribute im cf =
    Ok (if im && bool_decide (OptionData.in_memory_definition d <> undefined)
        then OptionData.in_memory_definition d
        else if cf && bool_decide (OptionData.configured_definition d <> undefined)
        then OptionData.configured_definition d
        else if bool_decide (OptionData.system_default_definition d <> undefined)
        then OptionData.system_default_definition d
        else undefined).
Proof.
  intros Hd. unfold OptionTree.get_definition, OptionTree.get_in_memory_definition,
    OptionTree.get_configured_definition, OptionTree.get_system_default_definition.
  rewrite Hd. simpl.
  destruct im, cf; simpl; repeat (case_decide; simpl);
    repeat (case_bool_decide; simpl); try reflexivity; try contradiction.
Qed.

(** ** Invariants of the tree container *)

Lemma payload_eq_refl n : payload_eq n n.
Proof. by split. Qed.

Lemma payload_eq_trans n1 n2 n3 : payload_eq n1 n2 -> payload_eq n2 n3 -> payload_eq n1 n3.
Proof. intros [? ?] [? ?]. split; congruence. Qed.

Lemma same_payload_refl m : same_payload m m.
Proof.
  intros k. destruct (m !! k); constructor. apply payload_eq_refl.
Qed.

Lemma same_payload_trans m1 m2 m3 :
  same_payload m1 m2 -> same_payload m2 m3 -> same_payload m1 m3.
Proof.
  intros H12 H23 k. specialize (H12 k). specialize (H23 k).
  destruct H12 as [n1 n2 Hp|]; inversion H23; subst; constructor.
  eapply payload_eq_trans; eauto.
Qed.

Lemma same_payload_extends m m' : same_payload m m' -> extends m m'.
Proof.
  intros H k n Hk. specialize (H k). rewrite Hk in H.
  inversion H; subst. eauto.
Qed.

Lemma extends_refl m : extends m m.
Proof. intros k n Hk. exists n. split; [done | apply payload_eq_refl]. Qed.

Lemma extends_trans m1 m2 m3 : extends m1 m2 -> extends m2 m3 -> extends m1 m3.
Proof.
  intros H12 H23 k n Hk.
  destruct (H12 k n Hk) as (n2 & Hk2 & Hp2).
  destruct (H23 k n2 Hk2) as (n3 & Hk3 & Hp3).
  exists n3. split; [done | eapply payload_eq_trans; eauto].
Qed.

Lemma node_ok_payload P k n n' : payload_eq n n' -> node_ok P k n -> node_ok P k n'.
Proof.
  intros [Ht Hd] [Hk (d & Hdat & HP)]. split; [congruence|].
  exists d. split; [congruence | done].
Qed.

Lemma tree_ok_same_payload P m m' : same_payload m m' -> tree_ok P m -> tree_ok P m'.
Proof.
  intros H Hok k n' Hk. specialize (H k). rewrite Hk in H.
  inversion H as [n ? Hp Hm|]; subst. symmetry in Hm.
  eapply node_ok_payload; eauto.
Qed.

Lemma tree_ok_weaken (P Q : OptionData.t -> Prop) m :
  (forall d, P d -> Q d) -> tree_ok P m -> tree_ok Q m.
Proof.
  intros HPQ Hok k n Hk. destruct (Hok k n Hk) as [Ht (d & Hd & HP)].
  split; [done|]. eauto.
Qed.

(** Changing the links of one node keeps the payloads. *)
Lemma same_payload_relink m p pn pn' :
  m !! p = Some pn -> payload_eq pn pn' -> same_payload m (<[p := pn']> m).
Proof.
  intros Hp Heq k. destruct (decide (k = p)) as [->|Hne].
  - rewrite lookup_insert_eq, Hp. by constructor.
  - rewrite lookup_insert_ne by done. destruct (m !! k); constructor. apply payload_eq_refl.
Qed.

Lemma getitem_Ok m nid n : treelib.getitem m nid = Ok n <-> m !! nid = Some n.
Proof.
  unfold treelib.getitem. destruct (m !! nid); split; intros H; try discriminate; congruence.
Qed.

Lemma resolve_Ok m nid x : treelib.resolve m nid = Ok x <-> x.1 = nid /\ m !! nid = Some x.2.
Proof.
  unfold treelib.resolve, treelib.getitem. destruct x as [i n]. simpl.
  destruct (m !! nid); simpl; split; intros H; try discriminate.
  - injection H as <- <-. done.
  - destruct H as [-> [= ->]]. done.
  - by destruct H.
Qed.

Lemma contains_true t nid : treelib.contains t nid = true <-> is_Some (treelib.nodes t !! nid).
Proof. unfold treelib.contains. by rewrite bool_decide_eq_true. Qed.

Lemma contains_false t nid : treelib.contains t nid = false <-> treelib.nodes t !! nid = None.
Proof.
  unfold treelib.contains. rewrite bool_decide_eq_false. by rewrite eq_None_not_Some.
Qed.

Section node_invariants.

Context (P : OptionData.t -> Prop).

Lemma add_node_extends t identifier node parent t' :
  treelib.add_node t identifier node parent = Ok t' ->
  extends (treelib.nodes t) (treelib.nodes t') /\
  exists n', treelib.nodes t' !! identifier = Some n' /\ payload_eq node n' /\
    forall k, k <> identifier -> is_Some (treelib.nodes t' !! k) -> is_Some (treelib.nodes t !! k).
Proof.
  unfold treelib.add_node. intros H.
  destruct (treelib.contains t identifier) eqn:Hc; [discriminate|].
  apply contains_false in Hc.
  destruct parent as [pid|].
  - destruct (treelib.nodes t !! pid) as [p|] eqn:Hp; [|discriminate].
    injection H as <-. simpl.
    assert (pid <> identifier) by congruence.
    split; [|eexists; split; [apply lookup_insert_eq|split; [by split|]]].
    + intros k n Hk. assert (k <> identifier) by congruence.
      rewrite lookup_insert_ne by done.
      destruct (decide (k = pid)) as [->|].
      * rewrite lookup_insert_eq. eexists; split; [done|]. rewrite Hp in Hk.
        injection Hk as <-. by split.
      * rewrite lookup_insert_ne by done. eexists; split; [done|apply payload_eq_refl].
    + intros k Hk. rewrite lookup_insert_ne by done.
      destruct (decide (k = pid)) as [->|]; [by rewrite Hp|].
      by rewrite lookup_insert_ne by done.
  - destruct (treelib.root t); [discriminate|]. injection H as <-. simpl.
    split; [|eexists; split; [apply lookup_insert_eq|split; [by split|]]].
    + intros k n Hk. assert (k <> identifier) by congruence.
      rewrite lookup_insert_ne by done. eexists; split; [done|apply payload_eq_refl].
    + intros k Hk. by rewrite lookup_insert_ne by done.
Qed.

Lemma tree_ok_extended m m' identifier :
  tree_ok P m -> extends m m' ->
  (forall k, k <> identifier -> is_Some (m' !! k) -> is_Some (m !! k)) ->
  (forall n', m' !! identifier = Some n' -> node_ok P identifier n') ->
  tree_ok P m'.
Proof.
  intros Hok Hext Hdom Hnew k n' Hk.
  destruct (decide (k = identifier)) as [->|Hne]; [by apply Hnew|].
  destruct (Hdom k Hne) as [n Hn]; [by eexists|].
  destruct (Hext k n Hn) as (n2 & Hk2 & Hp). rewrite Hk in Hk2. injection Hk2 as <-.
  eapply node_ok_payload; eauto.
Qed.

Lemma add_node_ok t identifier node parent t' :
  tree_ok P (treelib.nodes t) -> node_ok P identifier node ->
  treelib.add_node t identifier node parent = Ok t' ->
  tree_ok P (treelib.nodes t').
Proof.
  intros Hok Hnode H. apply add_node_extends in H as (Hext & n' & Hn' & Hp & Hdom).
  eapply tree_ok_extended; eauto.
  intros n2 Hn2. rewrite Hn' in Hn2. injection Hn2 as <-.
  eapply node_ok_payload; eauto.
Qed.

Lemma update_node_data_spec t nid d t' :
  treelib.update_node_data t nid d = Ok t' ->
  exists cn, treelib.nodes t !! nid = Some cn /\
    treelib.nodes t' = <[nid := treelib.set_data d cn]> (treelib.nodes t) /\
    treelib.root t' = treelib.root t.
Proof.
  unfold treelib.update_node_data. intros H. ok_inv H. subst. simpl.
  apply getitem_Ok in E. eauto.
Qed.

Lemma update_node_data_ok t nid d t' :
  tree_ok P (treelib.nodes t) -> P d ->
  treelib.update_node_data t nid (Some d) = Ok t' ->
  tree_ok P (treelib.nodes t').
Proof.
  intros Hok HP H. apply update_node_data_spec in H as (cn & Hcn & -> & _).
  intros k n Hk. destruct (decide (k = nid)) as [->|Hne].
  - rewrite lookup_insert_eq in Hk. injection Hk as <-.
    destruct (Hok nid cn Hcn) as [Ht _]. split; [done|]. simpl. eauto.
  - rewrite lookup_insert_ne in Hk by done. eauto.
Qed.

End node_invariants.

Lemma update_node_identifier_spec t nid val t' :
  treelib.update_node_identifier t nid val = Ok t' ->
  exists cn m3, treelib.nodes t !! nid = Some cn /\
    same_payload (<[val := cn]> (delete nid (treelib.nodes t))) m3 /\
    treelib.nodes t' = alter (treelib.set_tag val) val m3.
Proof.
  unfold treelib.update_node_identifier. intros H.
  apply rbind_Ok in H as (cn & Hcn & H). apply getitem_Ok in Hcn.
  apply rbind_Ok in H as (m2 & Hm2 & H).
  apply rbind_Ok in H as (cn2 & Hcn2 & H).
  apply rbind_Ok in H as (m3 & Hm3 & H).
  injection H as <-. simpl. exists cn, m3. split; [done|]. split; [|done].
  set (m1 := <[val := cn]> (delete nid (treelib.nodes t))) in *.
  assert (same_payload m1 m2) as H12.
  { destruct (treelib.predecessor cn) as [p|].
    - ok_inv Hm2. subst. apply getitem_Ok in E.
      eapply same_payload_relink; [exact E|]. by split.
    - injection Hm2 as <-. apply same_payload_refl. }
  eapply same_payload_trans; [exact H12|].
  revert Hm3. apply for_each_inv; [|apply same_payload_refl].
  intros acc fp acc' _ Hacc Hstep. ok_inv Hstep. subst. apply getitem_Ok in E.
  eapply same_payload_trans; [exact Hacc|].
  eapply same_payload_relink; [exact E|]. by split.
Qed.

Lemma update_node_identifier_ok P t nid val t' :
  tree_ok P (treelib.nodes t) ->
  treelib.update_node_identifier t nid val = Ok t' ->
  tree_ok P (treelib.nodes t').
Proof.
  intros Hok H. apply update_node_identifier_spec in H as (cn & m3 & Hcn & Hsame & ->).
  intros k n Hk. specialize (Hsame k).
  destruct (decide (k = val)) as [->|Hne].
  - rewrite lookup_alter_eq in Hk. rewrite lookup_insert_eq in Hsame.
    inversion Hsame as [? n3 [Ht Hd] Heq1 Heq3|]; subst.
    rewrite <- Heq3 in Hk. simpl in Hk. injection Hk as <-.
    destruct (Hok nid cn Hcn) as [_ (d & Hdat & HP)].
    split; [done|]. exists d. simpl. split; [congruence|done].
  - rewrite lookup_alter_ne in Hk by done. rewrite lookup_insert_ne in Hsame by done.
    rewrite Hk in Hsame. inversion Hsame as [n0 ? Hp Heq0|]; subst. symmetry in Heq0.
    apply lookup_delete_Some in Heq0 as [_ Hn0].
    eapply node_ok_payload; eauto.
Qed.

(** The nodes a traversal hands out are nodes of the tree. *)
Lemma map_resolve_lookup m ids ns :
  map_result (treelib.resolve m) ids = Ok ns ->
  forall x, x ∈ ns -> m !! x.1 = Some x.2.
Proof.
  intros H. apply map_result_Ok in H.
  induction H as [|i x ids ns Hx _ IH]; intros y Hy.
  - by apply elem_of_nil in Hy.
  - apply elem_of_cons in Hy as [->|Hy]; [|by apply IH].
    apply resolve_Ok in Hx as [-> Hx]. done.
Qed.

Lemma subtree_lookup fuel t nid st :
  treelib.subtree fuel t nid = Ok st ->
  forall k n', treelib.nodes st !! k = Some n' ->
    exists n, treelib.nodes t !! k = Some n /\ payload_eq n n'.
Proof.
  unfold treelib.subtree. intros H.
  apply rbind_Ok in H as (ids & _ & H). apply rbind_Ok in H as (ns & Hres & H).
  injection H as <-. simpl.
  pose proof (map_resolve_lookup _ _ _ Hres) as Hns. clear Hres.
  revert Hns.
  assert (forall k n', (∅ : gmap Attribute.t treelib.Node) !! k = Some n' ->
            exists n, treelib.nodes t !! k = Some n /\ payload_eq n n') as Hacc.
  { intros k n' Hk. by rewrite lookup_empty in Hk. }
  revert Hacc. generalize (∅ : gmap Attribute.t treelib.Node) as acc.
  induction ns as [|x ns IH]; simpl; intros acc Hacc Hns; [done|].
  apply IH.
  - intros k n' Hk. destruct (decide (k = x.1)) as [->|Hne].
    + rewrite lookup_insert_eq in Hk. injection Hk as <-.
      exists x.2. split; [apply Hns; by left|].
      case_decide; [by split | apply payload_eq_refl].
    + rewrite lookup_insert_ne in Hk by done. by apply Hacc.
  - intros y Hy. apply Hns. by right.
Qed.

Lemma subtree_ok P fuel t nid st :
  tree_ok P (treelib.nodes t) ->
  treelib.subtree fuel t nid = Ok st ->
  tree_ok P (treelib.nodes st).
Proof.
  intros Hok H k n' Hk.
  destruct (subtree_lookup _ _ _ _ H k n' Hk) as (n & Hn & Hp).
  eapply node_ok_payload; eauto.
Qed.

Lemma paste_spec t nid new_tree t' :
  treelib.paste t nid new_tree = Ok t' ->
  t' = t \/
  (treelib.nodes new_tree ##ₘ treelib.nodes t /\
   same_payload (treelib.nodes new_tree ∪ treelib.nodes t) (treelib.nodes t')).
Proof.
  unfold treelib.paste. intros H.
  destruct (treelib.root new_tree) as [new_root|]; [|injection H as <-; by left].
  destruct (negb (treelib.contains t nid)); [discriminate|].
  case_bool_decide as Hdisj; [|discriminate].
  right. split; [done|]. ok_inv H. subst. simpl.
  apply getitem_Ok in E, E0.
  eapply same_payload_trans.
  - apply (same_payload_relink _ _ _ (treelib.set_predecessor (Some nid) x) E). by split.
  - eapply same_payload_relink; [exact E0|]. by split.
Qed.

Lemma paste_extends t nid new_tree t' :
  treelib.paste t nid new_tree = Ok t' ->
  extends (treelib.nodes t) (treelib.nodes t').
Proof.
  intros H. apply paste_spec in H as [->|[Hdisj Hsame]]; [apply extends_refl|].
  eapply extends_trans; [|apply same_payload_extends; exact Hsame].
  intros k n Hk. exists n. split; [|apply payload_eq_refl].
  apply lookup_union_Some_raw. right. split; [|done].
  by eapply map_disjoint_Some_r.
Qed.

Lemma paste_ok P t nid new_tree t' :
  tree_ok P (treelib.nodes t) -> tree_ok P (treelib.nodes new_tree) ->
  treelib.paste t nid new_tree = Ok t' ->
  tree_ok P (treelib.nodes t').
Proof.
  intros Hok Hnew H. apply paste_spec in H as [->|[Hdisj Hsame]]; [done|].
  eapply tree_ok_same_payload; [exact Hsame|].
  intros k n Hk. apply lookup_union_Some_raw in Hk as [Hk|[_ Hk]]; eauto.
Qed.

(** ** Invariants of the insertion of a branch *)

Lemma call_method_Ok {A} self name (body r : A) :
  OptionData.call_method self name body = Ok r -> r = body.
Proof.
  unfold OptionData.call_method. case_bool_decide; [discriminate|]. by intros [= <-].
Qed.

Lemma node_data_Ok tr attribute d :
  OptionTree.node_data tr attribute = Ok d <->
  exists n, treelib.nodes tr !! attribute = Some n /\ treelib.data n = d.
Proof.
  unfold OptionTree.node_data, treelib.get_node.
  destruct (treelib.nodes tr !! attribute) as [n|]; split.
  - intros [= <-]. eauto.
  - intros (? & [= <-] & <-). done.
  - discriminate.
  - intros (? & ? & _). discriminate.
Qed.

Lemma template_branch_ok P fuel t attribute branch :
  closed_under_cloning P -> tree_ok P (treelib.nodes t) ->
  OptionTree._get_attribute_set_template_branch fuel t attribute = Ok branch ->
  tree_ok P (treelib.nodes branch).
Proof.
  intros [_ Hclone] Hok. unfold OptionTree._get_attribute_set_template_branch. intros H.
  apply rbind_Ok in H as (od & Hod & H). apply node_data_Ok in Hod as (pn & Hpn & <-).
  destruct (Hok _ _ Hpn) as [_ (d & Hd & HP)]. rewrite Hd in H.
  case_decide as Hty.
  - apply rbind_Ok in H as (st & Hst & H).
    apply subtree_ok with (P := P) in Hst; [|done].
    revert H. unfold treelib.deep_copy.
    apply (for_each_inv (fun tr => tree_ok P (treelib.nodes tr))); [|done].
    intros acc node acc' _ Hacc Hstep. unfold OptionTree.substitute_name in Hstep.
    ok_inv Hstep. eapply update_node_identifier_ok; eauto.
  - apply rbind_Ok in H as (spec & Hspec & H). apply call_method_Ok in Hspec as ->.
    apply rbind_Ok in H as (ty & _ & H).
    eapply add_node_ok; [| |exact H].
    + intros k n Hk. simpl in Hk. by rewrite lookup_empty in Hk.
    + split; [done|]. simpl. eauto.
Qed.

Lemma insert_segment_extends fuel tr parent key tr' child :
  OptionTree.insert_segment fuel (tr, parent) key = Ok (tr', child) ->
  extends (treelib.nodes tr) (treelib.nodes tr') /\ child = Attribute.from_insertion parent key.
Proof.
  unfold OptionTree.insert_segment. intros H.
  apply rbind_Ok in H as (tr1 & Htr1 & H). injection H as <- <-. split; [|done].
  destruct (treelib.contains tr (Attribute.from_insertion parent key)).
  - injection Htr1 as <-. apply extends_refl.
  - apply rbind_Ok in Htr1 as (is_set & _ & Htr1).
    apply rbind_Ok in Htr1 as (from_template & _ & Htr1).
    destruct from_template.
    + apply rbind_Ok in Htr1 as (branch & _ & Htr1). by eapply paste_extends.
    + unfold treelib.create_node in Htr1. by apply add_node_extends in Htr1 as [? _].
Qed.

Lemma insert_segment_ok P fuel tr parent key tr' child :
  closed_under_cloning P -> tree_ok P (treelib.nodes tr) ->
  OptionTree.insert_segment fuel (tr, parent) key = Ok (tr', child) ->
  tree_ok P (treelib.nodes tr').
Proof.
  intros Hclosed Hok. unfold OptionTree.insert_segment. intros H.
  apply rbind_Ok in H as (tr1 & Htr1 & H). injection H as <- <-.
  destruct (treelib.contains tr (Attribute.from_insertion parent key)).
  - by injection Htr1 as <-.
  - apply rbind_Ok in Htr1 as (is_set & _ & Htr1).
    apply rbind_Ok in Htr1 as (from_template & _ & Htr1).
    destruct from_template.
    + apply rbind_Ok in Htr1 as (branch & Hbranch & Htr1).
      eapply paste_ok; [exact Hok| |exact Htr1].
      eapply template_branch_ok; eauto.
    + unfold treelib.create_node in Htr1.
      eapply add_node_ok; [exact Hok| |exact Htr1].
      split; [done|]. simpl. destruct Hclosed as [Hnew _]. eauto.
Qed.

Lemma insert_branch_extends fuel keys tr parent st :
  for_each (OptionTree.insert_segment fuel) keys (tr, parent) = Ok st ->
  extends (treelib.nodes tr) (treelib.nodes st.1).
Proof.
  revert tr parent. induction keys as [|key keys IH]; simpl; intros tr parent H.
  - injection H as <-. apply extends_refl.
  - apply rbind_Ok in H as ([tr1 child] & Hseg & H).
    apply insert_segment_extends in Hseg as [Hext _].
    eapply extends_trans; [exact Hext|]. eapply IH; eauto.
Qed.

Lemma insert_branch_ok P fuel keys tr parent st :
  closed_under_cloning P -> tree_ok P (treelib.nodes tr) ->
  for_each (OptionTree.insert_segment fuel) keys (tr, parent) = Ok st ->
  tree_ok P (treelib.nodes st.1).
Proof.
  intros Hclosed. revert tr parent.
  induction keys as [|key keys IH]; simpl; intros tr parent Hok H.
  - by injection H as <-.
  - apply rbind_Ok in H as ([tr1 child] & Hseg & H).
    eapply IH; [|exact H]. eapply insert_segment_ok; eauto.
Qed.

(** What [_upsert_node_data] does: it may grow the tree by a branch, and it
    then rewrites the record of the node at [option_path]. *)
Lemma upsert_spec fuel t option_path dict t' :
  OptionTree._upsert_node_data fuel t option_path dict = Ok t' ->
  exists t1 n1,
    (match treelib.nodes t !! option_path with
     | Some _ => t1 = t
     | None => exists st, for_each (OptionTree.insert_segment fuel) option_path (t, []) = Ok st
                          /\ t1 = st.1
     end) /\
    extends (treelib.nodes t) (treelib.nodes t1) /\
    treelib.nodes t1 !! option_path = Some n1 /\
    treelib.nodes t' =
      <[option_path :=
          treelib.set_data
            (Some (OptionData.update (default OptionData.new (treelib.data n1)) dict)) n1]>
        (treelib.nodes t1) /\
    treelib.root t' = treelib.root t1.
Proof.
  unfold OptionTree._upsert_node_data. intros H.
  apply rbind_Ok in H as (t1 & Ht1 & H).
  apply rbind_Ok in H as (d & Hd & H). apply node_data_Ok in Hd as (n1 & Hn1 & <-).
  apply rbind_Ok in H as (od & Hod & H). apply call_method_Ok in Hod as ->.
  apply update_node_data_spec in H as (cn & Hcn & Hnodes & Hroot).
  rewrite Hn1 in Hcn. injection Hcn as <-.
  exists t1, n1. unfold treelib.get_node in Ht1.
  destruct (treelib.nodes t !! option_path) as [n0|] eqn:Hn0.
  - injection Ht1 as <-. repeat split; try done. apply extends_refl.
  - apply rbind_Ok in Ht1 as (st & Hst & Ht1). injection Ht1 as <-.
    repeat split; try done; [by exists st|]. by eapply insert_branch_extends.
Qed.

Lemma upsert_ok P fuel t option_path dict t' :
  closed_under_cloning P -> (forall d, P d -> P (OptionData.update d dict)) ->
  tree_ok P (treelib.nodes t) ->
  OptionTree._upsert_node_data fuel t option_path dict = Ok t' ->
  tree_ok P (treelib.nodes t').
Proof.
  intros Hclosed Hupd Hok H.
  apply upsert_spec in H as (t1 & n1 & Ht1 & _ & Hn1 & Hnodes & _).
  assert (tree_ok P (treelib.nodes t1)) as Hok1.
  { destruct (treelib.nodes t !! option_path).
    - by subst.
    - destruct Ht1 as (st & Hst & ->). eapply insert_branch_ok; eauto. }
  rewrite Hnodes. intros k n Hk.
  destruct (decide (k = option_path)) as [->|Hne].
  - rewrite lookup_insert_eq in Hk. injection Hk as <-.
    destruct (Hok1 _ _ Hn1) as [Ht (d & Hd & HP)]. split; [done|]. simpl.
    rewrite Hd. simpl. eauto.
  - rewrite lookup_insert_ne in Hk by done. eauto.
Qed.

(** An upsert leaves every other node's tag and record as they were, and
    rewrites the record of an existing target with [update]. *)
Lemma upsert_frame fuel t option_path dict t' :
  OptionTree._upsert_node_data fuel t option_path dict = Ok t' ->
  forall k n, treelib.nodes t !! k = Some n ->
    exists n', treelib.nodes t' !! k = Some n' /\ treelib.tag n' = treelib.tag n /\
      treelib.data n' =
        if decide (k = option_path)
        then Some (OptionData.update (default OptionData.new (treelib.data n)) dict)
        else treelib.data n.
Proof.
  intros H k n Hk.
  apply upsert_spec in H as (t1 & n1 & _ & Hext & Hn1 & Hnodes & _).
  destruct (Hext k n Hk) as (n2 & Hk2 & Ht & Hd). rewrite Hnodes.
  case_decide as Heq.
  - subst k. rewrite Hn1 in Hk2. injection Hk2 as <-.
    rewrite lookup_insert_eq. eexists. split; [done|]. simpl. by rewrite Hd.
  - rewrite lookup_insert_ne by done. eauto.
Qed.

Lemma upsert_target fuel t option_path dict t' :
  OptionTree._upsert_node_data fuel t option_path dict = Ok t' ->
  exists n' d0, treelib.nodes t' !! option_path = Some n' /\
    treelib.data n' = Some (OptionData.update d0 dict).
Proof.
  intros H. apply upsert_spec in H as (t1 & n1 & _ & _ & Hn1 & Hnodes & _).
  rewrite Hnodes. rewrite lookup_insert_eq. eauto.
Qed.

(** On a node that exists, an upsert adds no node. *)
Lemma upsert_existing fuel t option_path dict t' n :
  treelib.nodes t !! option_path = Some n ->
  OptionTree._upsert_node_data fuel t option_path dict = Ok t' ->
  treelib.nodes t' =
    <[option_path :=
        treelib.set_data
          (Some (OptionData.update (default OptionData.new (treelib.data n)) dict)) n]>
      (treelib.nodes t).
Proof.
  intros Hn H. apply upsert_spec in H as (t1 & n1 & Ht1 & _ & Hn1 & Hnodes & _).
  rewrite Hn in Ht1. subst t1. rewrite Hn in Hn1. injection Hn1 as <-. done.
Qed.

Lemma rename_attribute_tree_ok P fuel tr old_attribute new_attribute tr' :
  tree_ok P (treelib.nodes tr) ->
  OptionTree.rename_attribute_tree fuel tr old_attribute new_attribute = Ok tr' ->
  tree_ok P (treelib.nodes tr').
Proof.
  revert tr old_attribute new_attribute tr'.
  induction fuel as [|fuel IH]; simpl; intros tr old_attribute new_attribute tr' Hok H;
    [discriminate|].
  apply rbind_Ok in H as (tr1 & Htr1 & H).
  apply rbind_Ok in H as (cs & _ & H).
  apply update_node_identifier_ok with (P := P) in Htr1; [|done].
  revert H. apply (for_each_inv (fun tr => tree_ok P (treelib.nodes tr))); [|done].
  intros acc node acc' _ Hacc Hstep. ok_inv Hstep. eapply IH; eauto.
Qed.

(** ** Construction *)

Lemma insert_sorted_elem {A} (key : A -> string) (x y : A) (l : list A) :
  y ∈ PyStr.insert_sorted key x l <-> y = x \/ y ∈ l.
Proof.
  induction l as [|z l IH]; simpl.
  - rewrite list_elem_of_singleton, elem_of_nil. tauto.
  - destruct (String.leb (key x) (key z)).
    + by rewrite elem_of_cons.
    + rewrite !elem_of_cons, IH. tauto.
Qed.

Lemma sorted_elem {A} (key : A -> string) (y : A) (l : list A) :
  y ∈ PyStr.sorted key l <-> y ∈ l.
Proof.
  unfold PyStr.sorted. induction l as [|x l IH]; simpl; [done|].
  rewrite insert_sorted_elem, elem_of_cons, IH. done.
Qed.

(** The three stages of [__init__]. *)
Lemma init_stages str fuel system_option_data config_options s :
  OptionTree.__init__ str fuel system_option_data config_options = Ok s ->
  exists tr0 tr1 cache,
    treelib.create_node treelib.new [] [] None
      (Some (OptionData.new_of_type "attribute set")) = Ok tr0 /\
    for_each (fun tr (item : Attribute.t * list (string * value)) =>
                OptionTree._upsert_node_data fuel tr item.1 item.2)
             (PyStr.sorted (OptionTree.sort_key str) system_option_data) tr0 = Ok tr1 /\
    for_each (OptionTree.load_config_option fuel) config_options (tr1, ∅)
      = Ok (OptionTree.tree s, cache) /\
    s = OptionTree.mk (OptionTree.tree s) ∅ cache None 0 [].
Proof.
  unfold OptionTree.__init__. intros H.
  apply rbind_Ok in H as (tr0 & Htr0 & H).
  apply rbind_Ok in H as (tr1 & Htr1 & H).
  apply rbind_Ok in H as ([tr2 cache] & Hst & H).
  injection H as <-. simpl. eauto 10.
Qed.

Lemma load_config_option_tree fuel tr cache item tr' cache' :
  OptionTree.load_config_option fuel (tr, cache) item = Ok (tr', cache') ->
  match treelib.nodes tr !! item.1 with
  | Some n =>
      treelib.nodes tr' =
        <[item.1 :=
            treelib.set_data
              (Some (OptionData.update (default OptionData.new (treelib.data n))
                       [("configured_definition", item.2)])) n]> (treelib.nodes tr)
      /\ cache' = <[item.1 := item.2]> cache
  | None => tr' = tr /\ cache' = cache
  end.
Proof.
  unfold OptionTree.load_config_option. destruct item as [option_path option_definition].
  unfold treelib.get_node. cbn [fst snd].
  destruct (treelib.nodes tr !! option_path) as [n|] eqn:Hn.
  - intros H. apply rbind_Ok in H as (tr2 & Hup & H). injection H as <- <-.
    split; [|done]. by eapply upsert_existing.
  - by intros [= <- <-].
Qed.

Lemma init_tree_ok P str fuel system_option_data config_options s :
  closed_under_cloning P ->
  (forall item d, item ∈ system_option_data -> P d -> P (OptionData.update d item.2)) ->
  (forall item d, item ∈ config_options ->
     P d -> P (OptionData.update d [("configured_definition", item.2)])) ->
  OptionTree.__init__ str fuel system_option_data config_options = Ok s ->
  tree_ok P (treelib.nodes (OptionTree.tree s)).
Proof.
  intros Hclosed Hsys Hcfg H.
  apply init_stages in H as (tr0 & tr1 & cache & Htr0 & Htr1 & Hst & _).
  assert (tree_ok P (treelib.nodes tr0)) as Hok0.
  { unfold treelib.create_node in Htr0. eapply add_node_ok; [| |exact Htr0].
    - intros k n Hk. simpl in Hk. by rewrite lookup_empty in Hk.
    - split; [done|]. simpl. destruct Hclosed. eauto. }
  assert (tree_ok P (treelib.nodes tr1)) as Hok1.
  { revert Htr1. apply (for_each_inv (fun tr => tree_ok P (treelib.nodes tr))); [|done].
    intros acc item acc' Hitem Hacc Hstep. apply sorted_elem in Hitem.
    eapply upsert_ok; [done| |exact Hacc|exact Hstep]. intros d. by apply Hsys. }
  revert Hst.
  apply (for_each_inv
           (fun st : treelib.Tree * gmap Attribute.t value => tree_ok P (treelib.nodes st.1))
           _ _ ) with (acc := (tr1, ∅)) (acc' := (OptionTree.tree s, cache)); [|done].
  intros [tr c] item [tr' c'] Hitem Hacc Hstep. simpl in *.
  apply load_config_option_tree in Hstep.
  destruct (treelib.nodes tr !! item.1) as [n|] eqn:Hn.
  - destruct Hstep as [-> _]. intros k n' Hk.
    destruct (decide (k = item.1)) as [->|Hne].
    + rewrite lookup_insert_eq in Hk. injection Hk as <-.
      destruct (Hacc _ _ Hn) as [Ht (d & Hd & HP)]. split; [done|]. simpl.
      rewrite Hd. simpl. eexists. split; [done|]. by apply Hcfg.
    + rewrite lookup_insert_ne in Hk by done. eauto.
  - by destruct Hstep as [-> _].
Qed.

(** ** Reachable states *)

Lemma reachable_without_rename_reachable s : reachable_without_rename s -> reachable s.
Proof.
  induction 1; [eapply reachable_init | eapply reachable_call]; eauto.
Qed.

#[global] Arguments OptionData.update : simpl never.
#[global] Arguments OptionData.setattr : simpl never.

Lemma closed_under_cloning_True : closed_under_cloning (fun _ => True).
Proof. by split. Qed.

(** What [set_definition] does to the object. *)
Lemma set_definition_spec fuel s option_path option_definition s' :
  OptionTree.set_definition fuel s option_path option_definition = Ok s' ->
  exists tr n d,
    OptionTree._upsert_node_data fuel (OptionTree.tree s) option_path
      [("in_memory_definition", option_definition)] = Ok tr /\
    treelib.nodes tr !! option_path = Some n /\ treelib.data n = Some d /\
    s' = OptionTree.mk tr
           (if decide (OptionData.in_memory_definition d = OptionData.configured_definition d)
            then delete option_path (OptionTree.in_memory_change_cache s)
            else <[option_path := option_definition]> (OptionTree.in_memory_change_cache s))
           (OptionTree.configured_change_cache s)
           (Some (OptionTree.uuid4_drawn s)) (S (OptionTree.uuid4_drawn s))
           (OptionTree.lru s).
Proof.
  unfold OptionTree.set_definition. intros H.
  apply rbind_Ok in H as (tr & Hup & H).
  unfold OptionTree._update_in_memory_change_cache in H.
  apply rbind_Ok in H as (od & Hod & H). apply node_data_Ok in Hod as (n & Hn & <-).
  simpl in Hn. destruct (treelib.data n) as [d|] eqn:Hd; [|discriminate].
  injection H as <-. exists tr, n, d. repeat split; try done. simpl.
  f_equal. case_decide; [|done]. case_decide as Hin; [done|].
  symmetry. apply delete_id. by apply eq_None_not_Some.
Qed.

Lemma run_tree_ok P fuel c s s' :
  closed_under_cloning P ->
  (forall d v, P d -> P (OptionData.update d [("in_memory_definition", v)])) ->
  tree_ok P (treelib.nodes (OptionTree.tree s)) ->
  run fuel c s = Ok s' ->
  tree_ok P (treelib.nodes (OptionTree.tree s')).
Proof.
  intros Hclosed Hupd Hok H. destruct c; simpl in H.
  - apply set_definition_spec in H as (tr & n & d & Hup & _ & _ & ->). simpl.
    eapply upsert_ok; [done| |exact Hok|exact Hup]. intros d0. apply Hupd.
  - unfold OptionTree.insert_attribute in H. ok_inv H. subst. simpl.
    eapply upsert_ok; [done| |exact Hok|exact E]. by intros d0.
  - unfold OptionTree.rename_attribute in H. ok_inv H. subst. simpl.
    eapply rename_attribute_tree_ok; eauto.
  - unfold OptionTree.get_change_set_with_ancestors in H.
    apply rbind_Ok in H as ([r s2] & Hq & H). injection H as <-.
    destruct (OptionTree.lru_find _ _ _).
    + by injection Hq as <- <-.
    + ok_inv Hq. by subst.
Qed.

(** In every reachable state each node is tagged with its identifier and
    carries a record. *)
Lemma reachable_tree_ok s :
  reachable s -> tree_ok (fun _ => True) (treelib.nodes (OptionTree.tree s)).
Proof.
  induction 1 as [str fuel sod cfg s Hinit|fuel c s s' _ IH Hrun].
  - eapply init_tree_ok; [apply closed_under_cloning_True| | |exact Hinit]; done.
  - eapply run_tree_ok; [apply closed_under_cloning_True| |exact IH|exact Hrun]. done.
Qed.

(** C1. For every attribute that has a node in the tree of a reachable
    state, the node carries a record, and [get_definition] returns the
    in-memory definition when it is asked for and not undefined, else the
    configured definition when it is asked for and not undefined, else the
    system-default definition when it is not undefined, else the undefined
    sentinel.  With both flags true this is the chain in-memory, configured,
    system default, undefined; a flag that is false skips its layer. *)
Theorem get_definition_precedence s attribute n
    (include_in_memory_definition include_configured_change : bool) :
  reachable s ->
  treelib.get_node (OptionTree.tree s) attribute = Some n ->
  exists d, treelib.data n = Some d /\
    OptionTree.get_definition (OptionTree.tree s) attribute
      include_in_memory_definition include_configured_change =
    Ok (if include_in_memory_definition
           && bool_decide (OptionData.in_memory_definition d <> undefined)
        then OptionData.in_memory_definition d
        else if include_configured_change
                && bool_decide (OptionData.configured_definition d <> undefined)
        then OptionData.configured_definition d
        else if bool_decide (OptionData.system_default_definition d <> undefined)
        then OptionData.system_default_definition d
        else undefined).
Proof.
  intros Hreach Hn. unfold treelib.get_node in Hn.
  destruct (reachable_tree_ok s Hreach attribute n Hn) as [_ (d & Hd & _)].
  exists d. split; [done|]. apply get_definition_chain.
  apply get_data_node. eauto.
Qed.

(** ** The records written by the option tree *)

Lemma update_nil d : OptionData.update d [] = d.
Proof. reflexivity. Qed.

Lemma update_in_memory d v :
  OptionData.update d [("in_memory_definition", v)] =
  OptionData.mk (OptionData.description d) (OptionData.readOnly d) (OptionData._type d)
    (OptionData.system_default_definition d) (OptionData.configured_definition d) v
    (OptionData.instance_attrs d).
Proof. reflexivity. Qed.

Lemma update_configured d v :
  OptionData.update d [("configured_definition", v)] =
  OptionData.mk (OptionData.description d) (OptionData.readOnly d) (OptionData._type d)
    (OptionData.system_default_definition d) v (OptionData.in_memory_definition d)
    (OptionData.instance_attrs d).
Proof. reflexivity. Qed.

(** ** The caches, the marker and the table in reachable states *)

Lemma get_definition_ext tr tr' a im cf :
  OptionTree._get_data tr a = OptionTree._get_data tr' a ->
  OptionTree.get_definition tr a im cf = OptionTree.get_definition tr' a im cf.
Proof.
  intros H. unfold OptionTree.get_definition, OptionTree.get_in_memory_definition,
    OptionTree.get_configured_definition, OptionTree.get_system_default_definition.
  by rewrite H.
Qed.

Lemma iter_changes_loop_ext tr tr' cf items :
  (forall a v, (a, v) ∈ items -> OptionTree._get_data tr a = OptionTree._get_data tr' a) ->
  OptionTree.iter_changes_loop tr cf items = OptionTree.iter_changes_loop tr' cf items.
Proof.
  induction items as [|[a v] items IH]; simpl; intros H; [done|].
  rewrite (get_definition_ext tr tr' a false cf) by (eapply H; by left).
  rewrite IH; [done|]. intros a' v' Hin. eapply H. by right.
Qed.

(** A state whose tree keeps the records of the cached attributes yields
    the same changes. *)
Lemma change_set_ext s s' flag :
  OptionTree.in_memory_change_cache s' = OptionTree.in_memory_change_cache s ->
  OptionTree.configured_change_cache s' = OptionTree.configured_change_cache s ->
  (forall a v,
     OptionTree.in_memory_change_cache s !! a = Some v \/
     OptionTree.configured_change_cache s !! a = Some v ->
     OptionTree._get_data (OptionTree.tree s') a = OptionTree._get_data (OptionTree.tree s) a) ->
  OptionTree.change_set_with_ancestors s' flag = OptionTree.change_set_with_ancestors s flag.
Proof.
  intros Him Hcf Hdata. unfold OptionTree.change_set_with_ancestors, OptionTree.iter_changes.
  rewrite Him, Hcf.
  rewrite (iter_changes_loop_ext (OptionTree.tree s') (OptionTree.tree s)); [done|].
  intros a v Hin. apply elem_of_map_to_list in Hin.
  destruct flag; eapply Hdata; eauto.
Qed.

Lemma upsert_get_data fuel t option_path dict t' a d :
  OptionTree._upsert_node_data fuel t option_path dict = Ok t' ->
  OptionTree._get_data t a = Ok d ->
  OptionTree._get_data t' a =
    Ok (if decide (a = option_path) then OptionData.update d dict else d).
Proof.
  intros Hup Hd. apply get_data_node in Hd as (n & Hn & Hd).
  destruct (upsert_frame _ _ _ _ _ Hup a n Hn) as (n' & Hn' & _ & Hd').
  apply get_data_node. exists n'. split; [done|]. rewrite Hd', Hd. by case_decide.
Qed.

Lemma init_caches str fuel system_option_data config_options s :
  OptionTree.__init__ str fuel system_option_data config_options = Ok s ->
  OptionTree.in_memory_change_cache s = ∅ /\ OptionTree.change_marker s = None /\
  OptionTree.lru s = [] /\ configured_cache_sound s.
Proof.
  intros H. apply init_stages in H as (tr0 & tr1 & cache & _ & _ & Hst & Hs).
  rewrite Hs. simpl. repeat split; try done. unfold configured_cache_sound. simpl.
  clear Hs. revert Hst.
  apply (for_each_inv
           (fun st : treelib.Tree * gmap Attribute.t value =>
              forall a v, st.2 !! a = Some v ->
                exists d, OptionTree._get_data st.1 a = Ok d /\
                  OptionData.configured_definition d = v)
           _ _) with (acc := (tr1, ∅)) (acc' := (OptionTree.tree s, cache)).
  - intros [tr c] item [tr' c'] _ Hacc Hstep. simpl in *.
    apply load_config_option_tree in Hstep.
    destruct (treelib.nodes tr !! item.1) as [n|] eqn:Hn.
    + destruct Hstep as [Hnodes ->]. intros a v Hav.
      destruct (decide (a = item.1)) as [->|Hne].
      * rewrite lookup_insert_eq in Hav. injection Hav as <-.
        eexists. split.
        -- apply get_data_node. eexists. split; [by rewrite Hnodes, lookup_insert_eq|done].
        -- by rewrite update_configured.
      * rewrite lookup_insert_ne in Hav by done.
        destruct (Hacc a v Hav) as (d & Hd & Hv). exists d. split; [|done].
        apply get_data_node in Hd as (n0 & Hn0 & Hd0). apply get_data_node.
        exists n0. split; [|done]. by rewrite Hnodes, lookup_insert_ne.
    + by destruct Hstep as [-> ->].
  - simpl. intros a v Hav. by rewrite lookup_empty in Hav.
Qed.

Lemma init_caches_ok str fuel system_option_data config_options s :
  OptionTree.__init__ str fuel system_option_data config_options = Ok s -> caches_ok s.
Proof.
  intros H. apply init_caches in H as (Him & Hm & Hlru & Hcf). split; [| done | |].
  - intros a v Hav. rewrite Him in Hav. by rewrite lookup_empty in Hav.
  - intros m Hmk. by rewrite Hm in Hmk.
  - intros m flag r Hin. rewrite Hlru in Hin. by apply elem_of_nil in Hin.
Qed.

Lemma set_definition_caches_ok fuel s option_path option_definition s' :
  caches_ok s ->
  OptionTree.set_definition fuel s option_path option_definition = Ok s' ->
  caches_ok s'.
Proof.
  intros [Him Hcf Hmk Hlru] H.
  apply set_definition_spec in H as (tr & n & d & Hup & Hn & Hd & ->).
  assert (OptionTree._get_data tr option_path = Ok d) as Hgd
    by (apply get_data_node; eauto).
  destruct (upsert_target _ _ _ _ _ Hup) as (n' & d0 & Hn' & Hd').
  rewrite Hn in Hn'. injection Hn' as <-. rewrite Hd in Hd'. injection Hd' as ->.
  rewrite update_in_memory in Hgd |- *. simpl.
  split.
  - intros a v. simpl. intros Hav.
    destruct (decide (a = option_path)) as [->|Hne].
    + case_decide as Heq; [by rewrite lookup_delete_eq in Hav|].
      rewrite lookup_insert_eq in Hav. injection Hav as <-. eauto.
    + assert (OptionTree.in_memory_change_cache s !! a = Some v) as Hav'.
      { case_decide; [by rewrite lookup_delete_ne in Hav|by rewrite lookup_insert_ne in Hav]. }
      destruct (Him a v Hav') as (da & Hda & Hv & Hdiff). exists da. split; [|done].
      rewrite (upsert_get_data _ _ _ _ _ _ _ Hup Hda). by rewrite decide_False.
  - intros a v. simpl. intros Hav.
    destruct (Hcf a v Hav) as (da & Hda & Hv).
    rewrite (upsert_get_data _ _ _ _ _ _ _ Hup Hda).
    destruct (decide (a = option_path)); [|eauto].
    eexists. split; [done|]. by rewrite update_in_memory.
  - intros m. simpl. intros [= <-]. lia.
  - intros m flag r. simpl. intros Hin. destruct (Hlru m flag r Hin) as [Hlt _].
    split.
    + intros u Hu. specialize (Hlt u Hu). lia.
    + intros ->. specialize (Hlt _ eq_refl). lia.
Qed.

Lemma insert_attribute_caches_ok fuel s attribute s' :
  caches_ok s ->
  OptionTree.insert_attribute fuel s attribute = Ok s' ->
  caches_ok s'.
Proof.
  intros [Him Hcf Hmk Hlru] H. unfold OptionTree.insert_attribute in H.
  apply rbind_Ok in H as (tr & Hup & H). injection H as <-.
  assert (forall a d, OptionTree._get_data (OptionTree.tree s) a = Ok d ->
            OptionTree._get_data tr a = Ok d) as Hkeep.
  { intros a d Hd. rewrite (upsert_get_data _ _ _ _ _ _ _ Hup Hd).
    rewrite update_nil. by case_decide. }
  split.
  - intros a v Hav. destruct (Him a v Hav) as (d & Hd & ?). exists d. split; [|done].
    by apply Hkeep.
  - intros a v Hav. destruct (Hcf a v Hav) as (d & Hd & ?). exists d. split; [|done].
    by apply Hkeep.
  - done.
  - intros m flag r Hin. destruct (Hlru m flag r Hin) as [Hlt Hco]. split; [done|].
    intros Hm. rewrite <- (Hco Hm). apply change_set_ext; [done|done|].
    simpl. intros a v [Hav|Hav].
    + destruct (Him a v Hav) as (d & Hd & _). rewrite Hd. by apply Hkeep.
    + destruct (Hcf a v Hav) as (d & Hd & _). rewrite Hd. by apply Hkeep.
Qed.

Lemma lru_find_Some marker flag table r :
  OptionTree.lru_find marker flag table = Some r -> (marker, flag, r) ∈ table.
Proof.
  unfold OptionTree.lru_find. intros H.
  destruct (head (filter _ table)) as [[[m f] r']|] eqn:Hhead; [|discriminate].
  simpl in H. injection H as ->.
  apply head_Some_elem_of in Hhead. apply list_elem_of_filter in Hhead as [Hkey Hin].
  unfold OptionTree.lru_key_is in Hkey. apply bool_decide_eq_true in Hkey.
  simpl in Hkey. injection Hkey as -> ->. done.
Qed.

Lemma get_change_set_caches_ok s flag r s' :
  caches_ok s ->
  OptionTree.get_change_set_with_ancestors s flag = Ok (r, s') ->
  caches_ok s' /\ OptionTree.change_set_with_ancestors s flag = Ok r.
Proof.
  intros [Him Hcf Hmk Hlru] H. unfold OptionTree.get_change_set_with_ancestors in H.
  assert (OptionTree.change_set_with_ancestors s flag = Ok r /\
          s' = OptionTree.mk (OptionTree.tree s) (OptionTree.in_memory_change_cache s)
                 (OptionTree.configured_change_cache s) (OptionTree.change_marker s)
                 (OptionTree.uuid4_drawn s)
                 (take OptionTree.lru_maxsize
                    ((OptionTree.change_marker s, flag, r)
                       :: filter (fun e => OptionTree.lru_key_is (OptionTree.change_marker s)
                                             flag e = false) (OptionTree.lru s))))
    as [Hbody ->].
  { destruct (OptionTree.lru_find _ _ _) as [r0|] eqn:Hfind.
    - injection H as <- <-. split; [|done].
      apply lru_find_Some in Hfind. by apply (Hlru _ _ _ Hfind).
    - apply rbind_Ok in H as (r0 & Hr0 & H). by injection H as <- <-. }
  split; [|done]. split; try done.
  intros m f r0. simpl. intros Hin. apply elem_of_cons in Hin as [Heq|Hin].
  - injection Heq as -> -> ->. split; [|done]. intros u Hu. by apply Hmk.
  - apply elem_of_take in Hin as (i & Hin & _). apply list_elem_of_lookup_2 in Hin.
    apply list_elem_of_filter in Hin as [_ Hin]. by apply (Hlru _ _ _ Hin).
Qed.

Lemma run_caches_ok fuel c s s' :
  is_rename c = false -> caches_ok s -> run fuel c s = Ok s' -> caches_ok s'.
Proof.
  intros Hc Hok H. destruct c; simpl in *; try discriminate.
  - by eapply set_definition_caches_ok.
  - by eapply insert_attribute_caches_ok.
  - apply rbind_Ok in H as ([r s2] & Hq & H). injection H as <-.
    by apply get_change_set_caches_ok in Hq as [? _].
Qed.

(** The caches, the marker and the table are sound in every state reached
    without a rename. *)
Lemma reachable_caches_ok s : reachable_without_rename s -> caches_ok s.
Proof.
  induction 1 as [str fuel sod cfg s Hinit|fuel c s s' _ IH Hc Hrun].
  - by eapply init_caches_ok.
  - by eapply run_caches_ok.
Qed.

(** The marker is a token already drawn, in every reachable state. *)
Lemma reachable_marker_fresh s : reachable s -> marker_fresh s.
Proof.
  induction 1 as [str fuel sod cfg s Hinit|fuel c s s' _ IH Hrun].
  - apply init_caches in Hinit as (_ & Hm & _). intros m Hmk. by rewrite Hm in Hmk.
  - destruct c; simpl in Hrun.
    + apply set_definition_spec in Hrun as (tr & n & d & _ & _ & _ & ->).
      intros m. simpl. intros [= <-]. lia.
    + unfold OptionTree.insert_attribute in Hrun. ok_inv Hrun. by subst.
    + unfold OptionTree.rename_attribute in Hrun. ok_inv Hrun. by subst.
    + apply rbind_Ok in Hrun as ([r s2] & Hq & Hrun). injection Hrun as <-.
      unfold OptionTree.get_change_set_with_ancestors in Hq.
      destruct (OptionTree.lru_find _ _ _).
      * by injection Hq as <- <-.
      * ok_inv Hq. by subst.
Qed.

(** ** Enumeration of the changes *)

Lemma iter_changes_loop_elem tr cf items c :
  c ∈ (OptionTree.iter_changes_loop tr cf items).1 ->
  (c.1.1, c.2) ∈ items /\
  OptionTree.get_definition tr c.1.1 false cf = Ok c.1.2 /\ c.2 <> c.1.2.
Proof.
  induction items as [|[a v] items IH]; simpl; [by intros ?%elem_of_nil|].
  destruct (OptionTree.get_definition tr a false cf) as [old| |] eqn:Hget;
    simpl; [|by intros ?%elem_of_nil..].
  destruct (OptionTree.iter_changes_loop tr cf items) as [ys fin]. simpl in IH.
  assert (c ∈ ys -> ((c.1.1, c.2) ∈ (a, v) :: items) /\
            OptionTree.get_definition tr c.1.1 false cf = Ok c.1.2 /\ c.2 <> c.1.2) as Hys.
  { intros Hc. destruct (IH Hc) as (? & ? & ?). split; [by right|done]. }
  case_decide as Hne; simpl; [|done].
  intros [->|Hc]%elem_of_cons; [|by apply Hys]. simpl. split; [by left|done].
Qed.

Lemma iter_changes_loop_total tr cf items :
  (forall a v, (a, v) ∈ items -> exists old, OptionTree.get_definition tr a false cf = Ok old) ->
  (OptionTree.iter_changes_loop tr cf items).2 = Ok tt /\
  forall a old new,
    (a, new) ∈ items -> OptionTree.get_definition tr a false cf = Ok old -> new <> old ->
    (a, old, new) ∈ (OptionTree.iter_changes_loop tr cf items).1.
Proof.
  induction items as [|[a v] items IH]; simpl; intros Hall.
  - split; [done|]. by intros ? ? ? ?%elem_of_nil.
  - destruct (Hall a v) as [old Hold]; [by left|]. rewrite Hold.
    destruct IH as [Hfin Hin]; [intros; eapply Hall; by right|].
    destruct (OptionTree.iter_changes_loop tr cf items) as [ys fin]. simpl in *.
    split; [by case_decide|].
    intros a' old' new' [Heq|Hitems]%elem_of_cons Hget Hne.
    + injection Heq as -> ->. rewrite Hold in Hget. injection Hget as <-.
      rewrite decide_True by done. by left.
    + specialize (Hin a' old' new' Hitems Hget Hne).
      case_decide; [by right|done].
Qed.

(** The changes an option tree yields come from the selected cache. *)
Lemma iter_changes_elem s flag c :
  c ∈ (OptionTree.iter_changes s flag).1 ->
  (if flag then OptionTree.configured_change_cache s
   else OptionTree.in_memory_change_cache s) !! c.1.1 = Some c.2 /\
  OptionTree.get_definition (OptionTree.tree s) c.1.1 false (negb flag) = Ok c.1.2 /\
  c.2 <> c.1.2.
Proof.
  unfold OptionTree.iter_changes. intros Hc.
  apply iter_changes_loop_elem in Hc as (Hin & Hget & Hne).
  apply elem_of_map_to_list in Hin. done.
Qed.

(** ** Proper prefixes *)

Lemma take_proper_prefix (p l : list string) :
  (exists i, i < length l /\ p = take i l) <-> p `prefix_of` l /\ p <> l.
Proof.
  split.
  - intros (i & Hi & ->). split.
    + exists (drop i l). by rewrite take_drop.
    + intros Heq. apply (f_equal length) in Heq. rewrite length_take in Heq. lia.
  - intros [[k ->] Hne]. exists (length p). split.
    + rewrite length_app. destruct k; [by rewrite app_nil_r in Hne|simpl; lia].
    + by rewrite take_app_length.
Qed.

Lemma ancestors_fold (changes : list (Attribute.t * value * value)) (acc : gset Attribute.t) p :
  p ∈ foldl (fun (acc : gset Attribute.t) (c : Attribute.t * value * value) =>
               foldl (fun (acc : gset Attribute.t) i => acc ∪ {[ Attribute.slice_to c.1.1 i ]})
                     acc (seq 0 (length c.1.1)))
            acc changes <->
  p ∈ acc \/ exists c, c ∈ changes /\ p `prefix_of` c.1.1 /\ p <> c.1.1.
Proof.
  revert acc. induction changes as [|c changes IH]; simpl; intros acc.
  - split; [by left|]. intros [?|(c & ?%elem_of_nil & _)]; done.
  - rewrite IH. clear IH.
    assert (forall (l : list nat) (acc0 : gset Attribute.t),
              p ∈ foldl (fun (acc : gset Attribute.t) i =>
                           acc ∪ {[ Attribute.slice_to c.1.1 i ]}) acc0 l <->
              p ∈ acc0 \/ exists i, i ∈ l /\ p = take i c.1.1) as Hinner.
    { induction l as [|i l IHl]; simpl; intros acc0.
      - split; [by left|]. intros [?|(i & ?%elem_of_nil & _)]; done.
      - rewrite IHl. unfold Attribute.slice_to. rewrite elem_of_union, elem_of_singleton.
        split.
        + intros [[?| ->]|(j & ? & ?)]; [by left|right; exists i; split; [by left|done]|].
          right. exists j. split; [by right|done].
        + intros [?|(j & [->|?]%elem_of_cons & ?)]; [by left; left|by left; right|].
          right. eauto. }
    rewrite Hinner. split.
    + intros [[?|(i & Hi & Hp)]|(c' & ? & ?)]; [by left| |].
      * right. exists c. split; [by left|]. apply take_proper_prefix.
        exists i. split; [|done]. apply elem_of_seq in Hi. lia.
      * right. exists c'. split; [by right|done].
    + intros [?|(c' & [->|?]%elem_of_cons & Hpre)]; [by left; left| |].
      * left. right. apply take_proper_prefix in Hpre as (i & Hi & ->).
        exists i. split; [|done]. apply elem_of_seq. lia.
      * right. eauto.
Qed.

(** The body of [get_change_set_with_ancestors] collects the proper
    prefixes of the attributes that [iter_changes] yields. *)
Lemma change_set_with_ancestors_spec s flag r :
  OptionTree.change_set_with_ancestors s flag = Ok r ->
  (OptionTree.iter_changes s flag).2 = Ok tt /\
  forall p, p ∈ r <->
    exists c, c ∈ (OptionTree.iter_changes s flag).1 /\ p `prefix_of` c.1.1 /\ p <> c.1.1.
Proof.
  unfold OptionTree.change_set_with_ancestors.
  destruct (OptionTree.iter_changes s flag) as [changes fin]. simpl.
  intros H. apply rbind_Ok in H as ([] & -> & H). injection H as <-.
  split; [done|]. intros p. rewrite ancestors_fold. rewrite elem_of_empty. tauto.
Qed.

(** ** Writing a definition *)

(** On a node that exists and whose record still has its method [update],
    [_upsert_node_data] returns. *)
Lemma upsert_existing_total fuel t option_path dict n d :
  treelib.nodes t !! option_path = Some n -> treelib.data n = Some d ->
  "update" ∉ (OptionData.instance_attrs d).*1 ->
  OptionTree._upsert_node_data fuel t option_path dict =
    Ok (treelib.mkTree
          (<[option_path := treelib.set_data (Some (OptionData.update d dict)) n]>
             (treelib.nodes t))
          (treelib.root t)).
Proof.
  intros Hn Hd Hupd. unfold OptionTree._upsert_node_data, treelib.get_node.
  rewrite Hn. simpl. unfold OptionTree.node_data, treelib.get_node. rewrite Hn. simpl.
  rewrite Hd. simpl. unfold OptionData.call_update, OptionData.call_method.
  rewrite bool_decide_eq_false_2 by done. simpl.
  unfold treelib.update_node_data, treelib.getitem. rewrite Hn. done.
Qed.


(** ** The sample option trees *)

Lemma sample_s0_init :
  OptionTree.__init__ Sample.str 1 Sample.system_option_data Sample.config_options
  = Ok Sample.s0.
Proof. vm_compute. reflexivity. Qed.

Lemma sample_s1_set :
  OptionTree.set_definition 1 Sample.s0 ["a"; "b"; "c"] (Sample.one "2") = Ok Sample.s1.
Proof. vm_compute. reflexivity. Qed.

Lemma sample_s2_set :
  OptionTree.set_definition 1 Sample.s1 ["a"; "b"] (Sample.one "3") = Ok Sample.s2.
Proof. vm_compute. reflexivity. Qed.

Lemma sample_t0_init :
  OptionTree.__init__ Sample.str 1 Sample.template_option_data [] = Ok Sample.t0.
Proof. vm_compute. reflexivity. Qed.

Lemma sample_u0_init :
  OptionTree.__init__ Sample.str 1 Sample.default_option_data Sample.default_config_options
  = Ok Sample.u0.
Proof. vm_compute. reflexivity. Qed.

Lemma sample_s0_reachable : reachable_without_rename Sample.s0.
Proof. eapply reachable_wr_init. exact sample_s0_init. Qed.

Lemma sample_s1_reachable : reachable_without_rename Sample.s1.
Proof.
  eapply (reachable_wr_call 1 (Set_definition ["a"; "b"; "c"] (Sample.one "2")));
    [exact sample_s0_reachable|reflexivity|exact sample_s1_set].
Qed.

Lemma sample_s2_reachable : reachable_without_rename Sample.s2.
Proof.
  eapply (reachable_wr_call 1 (Set_definition ["a"; "b"] (Sample.one "3")));
    [exact sample_s1_reachable|reflexivity|exact sample_s2_set].
Qed.

(** ** The in-memory change cache *)

(** C2, as stated, fails right after construction: the option [a.b.c] of the
    sample is configured, its in-memory definition (undefined) differs from
    its configured definition, and it is no key of the in-memory change
    cache. *)
Lemma in_memory_cache_misses_configured_option :
  OptionTree.__init__ Sample.str 1 Sample.system_option_data Sample.config_options
    = Ok Sample.s0 /\
  exists d, OptionTree._get_data (OptionTree.tree Sample.s0) ["a"; "b"; "c"] = Ok d /\
    OptionData.in_memory_definition d <> OptionData.configured_definition d /\
    OptionTree.in_memory_change_cache Sample.s0 !! ["a"; "b"; "c"] = None.
Proof.
  split; [exact sample_s0_init|].
  eexists. split; [vm_compute; reflexivity|]. split; [|vm_compute; reflexivity].
  simpl. discriminate.
Qed.

(** C2, amended.  Right after construction the in-memory change cache is
    empty.  In every state reached from construction without a rename, a key
    of the in-memory change cache is an attribute of the tree whose
    in-memory definition is the cached one and differs from its configured
    definition.  A call [set_definition(a, v)] that returns re-establishes
    the equivalence for [a]: the in-memory definition of [a] is [v], [a] is
    a key of the cache iff [v] differs from the configured definition of
    [a], and the other keys are as before. *)
Theorem in_memory_change_cache_sound :
  (forall str fuel system_option_data config_options s,
     OptionTree.__init__ str fuel system_option_data config_options = Ok s ->
     OptionTree.in_memory_change_cache s = ∅) /\
  (forall s, reachable_without_rename s ->
     forall a v, OptionTree.in_memory_change_cache s !! a = Some v ->
       exists d, OptionTree._get_data (OptionTree.tree s) a = Ok d /\
         OptionData.in_memory_definition d = v /\
         OptionData.in_memory_definition d <> OptionData.configured_definition d) /\
  (forall fuel s a v s',
     OptionTree.set_definition fuel s a v = Ok s' ->
     exists d, OptionTree._get_data (OptionTree.tree s') a = Ok d /\
       OptionData.in_memory_definition d = v /\
       (is_Some (OptionTree.in_memory_change_cache s' !! a) <->
        OptionData.in_memory_definition d <> OptionData.configured_definition d) /\
       forall b, b <> a ->
         OptionTree.in_memory_change_cache s' !! b = OptionTree.in_memory_change_cache s !! b).
Proof.
  split; [|split].
  - intros str fuel sod cfg s H. by apply init_caches in H as (? & _).
  - intros s Hreach. apply reachable_caches_ok in Hreach. by destruct Hreach.
  - intros fuel s a v s' H.
    apply set_definition_spec in H as (tr & n & d & Hup & Hn & Hd & ->).
    destruct (upsert_target _ _ _ _ _ Hup) as (n' & d0 & Hn' & Hd').
    rewrite Hn in Hn'. injection Hn' as <-. rewrite Hd in Hd'. injection Hd' as ->.
    exists (OptionData.update d0 [("in_memory_definition", v)]). simpl.
    split; [apply get_data_node; eauto|]. split; [done|].
    split.
    + destruct (decide (v = OptionData.configured_definition d0)) as [Heq|Hne].
      * rewrite lookup_delete_eq. split; [by intros [? ?]|done].
      * rewrite lookup_insert_eq. split; [done|by eexists].
    + intros b Hb. case_decide; [by rewrite lookup_delete_ne|by rewrite lookup_insert_ne].
Qed.

Lemma in_memory_change_cache_sound_witness :
  exists d, OptionTree._get_data (OptionTree.tree Sample.s1) ["a"; "b"; "c"] = Ok d /\
    OptionData.in_memory_definition d = Sample.one "2" /\
    OptionData.in_memory_definition d <> OptionData.configured_definition d.
Proof.
  apply (proj1 (proj2 in_memory_change_cache_sound) Sample.s1 sample_s1_reachable).
  vm_compute. reflexivity.
Defined.

(** ** The configured change cache *)

Lemma load_config_keys fuel items tr cache tr' cache' :
  for_each (OptionTree.load_config_option fuel) items (tr, cache) = Ok (tr', cache') ->
  (forall k, is_Some (treelib.nodes tr' !! k) <-> is_Some (treelib.nodes tr !! k)) /\
  (forall a, is_Some (cache' !! a) <->
     is_Some (cache !! a) \/ (a ∈ items.*1 /\ is_Some (treelib.nodes tr !! a))) /\
  (forall a v, cache' !! a = Some v -> cache !! a = Some v \/ (a, v) ∈ items).
Proof.
  revert tr cache. induction items as [|[p v0] items IH]; cbn [for_each fmap list_fmap];
    intros tr cache H.
  - injection H as <- <-. split; [done|]. split; [|by left].
    intros a. split; [by left|]. intros [?|[?%elem_of_nil _]]; done.
  - apply rbind_Ok in H as ([tr2 cache2] & Hstep & H).
    apply load_config_option_tree in Hstep. simpl in Hstep.
    destruct (IH _ _ H) as (Hdom & Hkeys & Hvals). clear IH H.
    destruct (treelib.nodes tr !! p) as [n|] eqn:Hn.
    + destruct Hstep as [Hnodes ->].
      assert (forall k, is_Some (treelib.nodes tr2 !! k) <-> is_Some (treelib.nodes tr !! k))
        as Hdom2.
      { intros k. rewrite Hnodes. destruct (decide (k = p)) as [->|Hne].
        - rewrite lookup_insert_eq, Hn. split; by eexists.
        - by rewrite lookup_insert_ne. }
      split; [intros k; by rewrite Hdom, Hdom2|]. split.
      * intros a. rewrite Hkeys, Hdom2, elem_of_cons.
        destruct (decide (a = p)) as [->|Hne].
        -- rewrite lookup_insert_eq, Hn. split; intros _; [right|left]; eauto.
        -- rewrite lookup_insert_ne by done. tauto.
      * intros a v Hav. destruct (Hvals a v Hav) as [Hc|Hin]; [|right; by right].
        destruct (decide (a = p)) as [->|Hne].
        -- rewrite lookup_insert_eq in Hc. injection Hc as <-. right. by left.
        -- rewrite lookup_insert_ne in Hc by done. by left.
    + destruct Hstep as [-> ->]. split; [done|]. split.
      * intros a. rewrite Hkeys, elem_of_cons. split; [tauto|].
        intros [?|[[Heq|?] Hsome]]; [by left| |by right].
        cbn [fst] in Heq. subst a. rewrite Hn in Hsome. by destruct Hsome.
      * intros a v Hav. destruct (Hvals a v Hav); [by left|right; by right].
Qed.

(** With both layers left out, [get_definition] is the system default. *)
Lemma get_definition_system_default tr a d :
  OptionTree._get_data tr a = Ok d ->
  OptionTree.get_definition tr a false false = Ok (OptionData.system_default_definition d).
Proof.
  intros Hd. rewrite (get_definition_chain tr a d false false Hd). simpl.
  case_bool_decide as Hne; [done|]. f_equal. symmetry.
  destruct (decide (OptionData.system_default_definition d = undefined)); [done|contradiction].
Qed.

(** C3, as stated, fails: the option [a] of this sample is configured to its
    system default, and it is an entry of the configured change cache. *)
Lemma configured_cache_keeps_default_valued_option :
  OptionTree.__init__ Sample.str 1 Sample.default_option_data Sample.default_config_options
    = Ok Sample.u0 /\
  OptionTree.get_configured_definition (OptionTree.tree Sample.u0) ["a"]
    = Ok (Sample.one "1") /\
  OptionTree.get_system_default_definition (OptionTree.tree Sample.u0) ["a"]
    = Ok (Sample.one "1") /\
  OptionTree.configured_change_cache Sample.u0 !! ["a"] = Some (Sample.one "1").
Proof.
  split; [exact sample_u0_init|]. repeat split; vm_compute; reflexivity.
Qed.

(** C3, amended.  Right after construction the keys of the configured change
    cache are the attributes of [config_options] that have a node in the
    tree, whatever their definition; each is cached with a definition given
    for it, which is its configured definition.  The comparison with the
    system default is made by [iter_changes] on the configured layer: it
    ends normally and yields exactly the cached attributes whose configured
    definition differs from their system-default definition. *)
Theorem configured_change_cache_after_init str fuel system_option_data config_options s :
  OptionTree.__init__ str fuel system_option_data config_options = Ok s ->
  (forall a, is_Some (OptionTree.configured_change_cache s !! a) <->
     a ∈ config_options.*1 /\ is_Some (treelib.get_node (OptionTree.tree s) a)) /\
  (forall a v, OptionTree.configured_change_cache s !! a = Some v ->
     (a, v) ∈ config_options /\
     OptionTree.get_configured_definition (OptionTree.tree s) a = Ok v) /\
  (OptionTree.iter_changes s true).2 = Ok tt /\
  (forall a old new, (a, old, new) ∈ (OptionTree.iter_changes s true).1 <->
     OptionTree.configured_change_cache s !! a = Some new /\
     OptionTree.get_system_default_definition (OptionTree.tree s) a = Ok old /\
     new <> old).
Proof.
  intros H. pose proof (init_caches _ _ _ _ _ H) as (_ & _ & _ & Hsound).
  apply init_stages in H as (tr0 & tr1 & cache & _ & _ & Hst & Hs).
  apply load_config_keys in Hst as (Hdom & Hkeys & Hvals).
  assert (OptionTree.configured_change_cache s = cache) as Hcache by (by rewrite Hs).
  rewrite Hcache in *. unfold treelib.get_node.
  split; [|split].
  - intros a. rewrite Hkeys, Hdom, lookup_empty. split; [|by right].
    intros [[? ?]|?]; done.
  - intros a v Hav. split.
    + destruct (Hvals a v Hav) as [Hc|?]; [by rewrite lookup_empty in Hc|done].
    + rewrite <- Hcache in Hav. destruct (Hsound a v Hav) as (d & Hd & <-).
      unfold OptionTree.get_configured_definition. by rewrite Hd.
  - assert (forall a v, (a, v) ∈ map_to_list cache ->
              exists old, OptionTree.get_definition (OptionTree.tree s) a false false = Ok old)
      as Htotal.
    { intros a v Hin. apply elem_of_map_to_list in Hin. rewrite <- Hcache in Hin.
      destruct (Hsound a v Hin) as (d & Hd & _).
      eexists. by apply get_definition_system_default. }
    assert (forall a old, is_Some (cache !! a) ->
              OptionTree.get_definition (OptionTree.tree s) a false false = Ok old <->
              OptionTree.get_system_default_definition (OptionTree.tree s) a = Ok old)
      as Hold.
    { intros a old [v Hav]. rewrite <- Hcache in Hav.
      destruct (Hsound a v Hav) as (d & Hd & _).
      rewrite (get_definition_system_default _ _ _ Hd).
      unfold OptionTree.get_system_default_definition. by rewrite Hd. }
    pose proof (iter_changes_loop_total (OptionTree.tree s) false (map_to_list cache) Htotal)
      as [Hfin Hin].
    unfold OptionTree.iter_changes. rewrite Hcache. simpl. split; [done|].
    intros a old new. split.
    + intros Hc. apply iter_changes_loop_elem in Hc as (Hitem & Hget & Hne). simpl in *.
      apply elem_of_map_to_list in Hitem. split; [done|]. split; [|done].
      apply Hold; [by eexists|done].
    + intros (Hav & Hsys & Hne). apply Hin; [by apply elem_of_map_to_list| |done].
      apply Hold; [by eexists|done].
Qed.

Lemma configured_change_cache_after_init_witness :
  (forall a, is_Some (OptionTree.configured_change_cache Sample.u0 !! a) <->
     a ∈ Sample.default_config_options.*1 /\
     is_Some (treelib.get_node (OptionTree.tree Sample.u0) a)) /\
  (forall a v, OptionTree.configured_change_cache Sample.u0 !! a = Some v ->
     (a, v) ∈ Sample.default_config_options /\
     OptionTree.get_configured_definition (OptionTree.tree Sample.u0) a = Ok v) /\
  (OptionTree.iter_changes Sample.u0 true).2 = Ok tt /\
  (forall a old new, (a, old, new) ∈ (OptionTree.iter_changes Sample.u0 true).1 <->
     OptionTree.configured_change_cache Sample.u0 !! a = Some new /\
     OptionTree.get_system_default_definition (OptionTree.tree Sample.u0) a = Ok old /\
     new <> old).
Proof.
  apply (configured_change_cache_after_init Sample.str 1 Sample.default_option_data
           Sample.default_config_options Sample.u0).
  vm_compute. reflexivity.
Defined.

(** ** The change marker *)

(** C4, as stated, fails: on the sample, an insertion that adds the node [x]
    and a rename of [a] to [z] both return with the marker they found. *)
Lemma insert_and_rename_keep_marker :
  exists s' s'',
    OptionTree.insert_attribute 1 Sample.s1 ["x"] = Ok s' /\
    treelib.get_node (OptionTree.tree Sample.s1) ["x"] = None /\
    is_Some (treelib.get_node (OptionTree.tree s') ["x"]) /\
    OptionTree.change_marker s' = OptionTree.change_marker Sample.s1 /\
    OptionTree.rename_attribute 4 Sample.s1 ["a"] ["z"] = Ok s'' /\
    is_Some (treelib.get_node (OptionTree.tree s'') ["z"; "b"; "c"]) /\
    OptionTree.change_marker s'' = OptionTree.change_marker Sample.s1.
Proof.
  eexists. eexists.
  split; [vm_compute; reflexivity|]. split; [vm_compute; reflexivity|].
  split; [vm_compute; by eexists|]. split; [vm_compute; reflexivity|].
  split; [vm_compute; reflexivity|]. split; [vm_compute; by eexists|].
  vm_compute; reflexivity.
Qed.

(** C4, amended.  In a reachable state every call of [set_definition] that
    returns leaves a marker different from the one it found, whether or not
    the membership of the change cache changes; [insert_attribute] and
    [rename_attribute] leave the marker as it is. *)
Theorem change_marker_regenerated_by_set_definition :
  (forall fuel s a v s',
     reachable s -> OptionTree.set_definition fuel s a v = Ok s' ->
     OptionTree.change_marker s' <> OptionTree.change_marker s) /\
  (forall fuel s a s',
     OptionTree.insert_attribute fuel s a = Ok s' ->
     OptionTree.change_marker s' = OptionTree.change_marker s) /\
  (forall fuel s old_attribute new_attribute s',
     OptionTree.rename_attribute fuel s old_attribute new_attribute = Ok s' ->
     OptionTree.change_marker s' = OptionTree.change_marker s).
Proof.
  split; [|split].
  - intros fuel s a v s' Hreach H. apply reachable_marker_fresh in Hreach.
    apply set_definition_spec in H as (tr & n & d & _ & _ & _ & ->). simpl.
    intros Heq. symmetry in Heq. specialize (Hreach _ Heq). lia.
  - intros fuel s a s' H. unfold OptionTree.insert_attribute in H. ok_inv H. by subst.
  - intros fuel s o n s' H. unfold OptionTree.rename_attribute in H. ok_inv H. by subst.
Qed.

Lemma change_marker_regenerated_by_set_definition_witness :
  OptionTree.change_marker Sample.s2 <> OptionTree.change_marker Sample.s1.
Proof.
  apply (proj1 change_marker_regenerated_by_set_definition 1 Sample.s1 ["a"; "b"]
           (Sample.one "3") Sample.s2).
  - apply reachable_without_rename_reachable. exact sample_s1_reachable.
  - vm_compute. reflexivity.
Defined.

(** ** The ancestors of the changes *)

(** C9, as stated, fails: in this state of the sample [a.b.c] and [a.b] are
    both changed, and the set of ancestors holds [a.b], a changed
    attribute. *)
Lemma change_set_holds_a_changed_attribute :
  exists r s',
    OptionTree.get_change_set_with_ancestors Sample.s2 false = Ok (r, s') /\
    ["a"; "b"] ∈ r /\
    (["a"; "b"], undefined, Sample.one "3") ∈ (OptionTree.iter_changes Sample.s2 false).1.
Proof.
  eexists. eexists. split; [vm_compute; reflexivity|].
  split; [by vm_compute|]. vm_compute.
  apply list_elem_of_In. simpl. tauto.
Qed.

(** C9, amended.  In a state reached from construction without a rename,
    [iter_changes] ends normally and [get_change_set_with_ancestors]
    returns exactly the proper prefixes, the empty root path included, of
    the attributes that [iter_changes] yields for the selected cache: a
    changed attribute is in the set when, and only when, it is a proper
    prefix of another changed attribute. *)
Theorem get_change_set_with_ancestors_proper_prefixes s get_configured_changes :
  reachable_without_rename s ->
  exists r s',
    OptionTree.get_change_set_with_ancestors s get_configured_changes = Ok (r, s') /\
    (OptionTree.iter_changes s get_configured_changes).2 = Ok tt /\
    forall p, p ∈ r <->
      exists c, c ∈ (OptionTree.iter_changes s get_configured_changes).1 /\
        p `prefix_of` c.1.1 /\ p <> c.1.1.
Proof.
  intros Hreach. apply reachable_caches_ok in Hreach.
  assert (exists r, OptionTree.change_set_with_ancestors s get_configured_changes = Ok r)
    as [r0 Hr0].
  { destruct Hreach as [Him Hcf _ _].
    unfold OptionTree.change_set_with_ancestors, OptionTree.iter_changes.
    match goal with
    | |- context [OptionTree.iter_changes_loop ?tr ?cf ?items] =>
        pose proof (iter_changes_loop_total tr cf items) as Htot;
        destruct (OptionTree.iter_changes_loop tr cf items) as [ys fin]
    end.
    simpl in Htot. destruct Htot as [-> _]; [|simpl; eauto].
    intros a v Hin. apply elem_of_map_to_list in Hin.
    assert (exists d, OptionTree._get_data (OptionTree.tree s) a = Ok d) as [d Hd].
    { destruct get_configured_changes.
      - destruct (Hcf a v Hin) as (d & ? & _). eauto.
      - destruct (Him a v Hin) as (d & ? & _). eauto. }
    rewrite (get_definition_chain _ _ _ _ _ Hd). eauto. }
  assert (exists r s',
            OptionTree.get_change_set_with_ancestors s get_configured_changes = Ok (r, s'))
    as (r & s' & Hget).
  { unfold OptionTree.get_change_set_with_ancestors.
    destruct (OptionTree.lru_find _ _ _); [eauto|]. rewrite Hr0. simpl. eauto. }
  exists r, s'. split; [done|].
  apply get_change_set_caches_ok in Hget as [_ Hbody]; [|done].
  by apply change_set_with_ancestors_spec.
Qed.

Lemma get_change_set_with_ancestors_proper_prefixes_witness :
  exists r s',
    OptionTree.get_change_set_with_ancestors Sample.s1 false = Ok (r, s') /\
    (OptionTree.iter_changes Sample.s1 false).2 = Ok tt /\
    forall p, p ∈ r <->
      exists c, c ∈ (OptionTree.iter_changes Sample.s1 false).1 /\
        p `prefix_of` c.1.1 /\ p <> c.1.1.
Proof.
  apply (get_change_set_with_ancestors_proper_prefixes Sample.s1 false).
  exact sample_s1_reachable.
Defined.

(** The example of the specification: [a.b.c] is the only changed attribute
    of this state, and the set is the root, [a] and [a.b]. *)
Lemma change_set_of_a_single_change :
  (OptionTree.iter_changes Sample.s1 false).1.*1.*1 = [["a"; "b"; "c"]] /\
  exists s', OptionTree.get_change_set_with_ancestors Sample.s1 false
             = Ok ({[ []; ["a"]; ["a"; "b"] ]}, s').
Proof.
  split; [vm_compute; reflexivity|]. eexists. vm_compute. reflexivity.
Qed.

(** * The shape of the tree *)

(** ** Links of the nodes *)

Lemma links_ok_image f m m' :
  links_ok m -> image f m m' ->
  (forall x y, is_Some (m !! x) -> is_Some (m !! y) -> f x = f y -> x = y) ->
  (forall x, is_Some (m !! x) -> length (f x) = length x) ->
  links_ok m'.
Proof.
  intros [Hs Hn Hp Hl Ht] Him Hinj Hlen.
  assert (forall k n, m !! k = Some n -> m' !! f k = Some (rename_node f n)) as Hfwd.
  { intros k n Hk. apply Him. eauto. }
  split.
  - intros k' n' c' Hk' Hc'. apply Him in Hk' as (k & n & Hk & -> & ->).
    simpl in Hc'. apply list_elem_of_fmap in Hc' as (c & -> & Hc).
    destruct (Hs k n c Hk Hc) as (cn & Hcn & Hpred).
    exists (rename_node f cn). split; [by apply Hfwd|]. simpl. by rewrite Hpred.
  - intros k' n' Hk'. apply Him in Hk' as (k & n & Hk & -> & ->). simpl.
    apply NoDup_fmap_2_strong; [|by eapply Hn].
    intros x y Hx Hy. 
    destruct (Hs k n x Hk Hx) as (? & ? & _). destruct (Hs k n y Hk Hy) as (? & ? & _).
    apply Hinj; by eexists.
  - intros k' n' p' Hk' Hp'. apply Him in Hk' as (k & n & Hk & -> & ->).
    simpl in Hp'. destruct (treelib.predecessor n) as [p|] eqn:Hpn; [|done].
    injection Hp' as <-. destruct (Hp k n p Hk Hpn) as (pn & Hpk & Hin).
    exists (rename_node f pn). split; [by apply Hfwd|]. simpl.
    by apply list_elem_of_fmap_2.
  - intros k' n' p' Hk' Hp'. apply Him in Hk' as (k & n & Hk & -> & ->).
    simpl in Hp'. destruct (treelib.predecessor n) as [p|] eqn:Hpn; [|done].
    injection Hp' as <-. destruct (Hp k n p Hk Hpn) as (pn & Hpk & Hin).
    rewrite !Hlen by (by eexists). by eapply Hl.
  - intros k' n' Hk'. apply Him in Hk' as (k & n & Hk & -> & ->). simpl.
    by rewrite (Ht k n Hk).
Qed.

Lemma swap_other a b k : k <> a -> k <> b -> swap a b k = k.
Proof. intros. unfold swap. by rewrite !decide_False. Qed.

Lemma swap_l a b : swap a b a = b.
Proof. unfold swap. by rewrite decide_True. Qed.

Lemma swap_r a b : swap a b b = a.
Proof. unfold swap. destruct (decide (b = a)); [done|]. by rewrite decide_True. Qed.

Lemma swap_involutive a b k : swap a b (swap a b k) = k.
Proof.
  destruct (decide (k = a)) as [->|Ha]; [by rewrite swap_l, swap_r|].
  destruct (decide (k = b)) as [->|Hb]; [by rewrite swap_r, swap_l|].
  rewrite (swap_other a b k) by done. by apply swap_other.
Qed.

Lemma swap_fmap_other a b (l : list Attribute.t) :
  a ∉ l -> b ∉ l -> swap a b <$> l = l.
Proof.
  induction l as [|x l IH]; [done|]. rewrite !not_elem_of_cons.
  intros [? ?] [? ?]. cbn [fmap list_fmap]. rewrite swap_other by done.
  f_equal. by apply IH.
Qed.

Lemma replace_first_swap a b l r :
  treelib.replace_first a b l = Ok r -> NoDup l -> b ∉ l -> r = swap a b <$> l.
Proof.
  revert r. induction l as [|x l IH]; intros r; cbn [treelib.replace_first]; [done|].
  intros H Hnd Hb. apply NoDup_cons in Hnd as [Hx Hnd]. apply not_elem_of_cons in Hb as [Hbx Hb].
  cbn [fmap list_fmap]. case_decide as Hxa.
  - subst x. injection H as <-. rewrite swap_l. f_equal. symmetry. by apply swap_fmap_other.
  - apply rbind_Ok in H as (r' & Hr' & H). injection H as <-.
    rewrite swap_other by done. f_equal. by apply IH.
Qed.

Lemma replace_first_elem a b l r : treelib.replace_first a b l = Ok r -> a ∈ l.
Proof.
  revert r. induction l as [|x l IH]; intros r; cbn [treelib.replace_first]; [done|].
  case_decide as Hxa; [subst; by left|].
  intros H. apply rbind_Ok in H as (r' & Hr' & _). right. by eapply IH.
Qed.

Lemma for_each_set_predecessor (val : Attribute.t) (l : list Attribute.t)
    (m m' : gmap Attribute.t treelib.Node) :
  for_each (fun m fp => let* c := treelib.getitem m fp in
                        Ok (<[fp := treelib.set_predecessor (Some val) c]> m)) l m = Ok m' ->
  forall k, m' !! k = if decide (k ∈ l) then treelib.set_predecessor (Some val) <$> m !! k
                      else m !! k.
Proof.
  revert m. induction l as [|fp l IH]; intros m; cbn [for_each].
  - intros [= <-] k. rewrite decide_False; [done|]. apply not_elem_of_nil.
  - intros H. apply rbind_Ok in H as (m1 & Hm1 & H).
    apply rbind_Ok in Hm1 as (c & Hc & Hm1). injection Hm1 as <-.
    apply getitem_Ok in Hc. intros k. rewrite (IH _ H k).
    destruct (decide (k = fp)) as [->|Hne].
    + rewrite lookup_insert_eq, Hc. rewrite (decide_True (P := fp ∈ fp :: l)) by (by left).
      by case_decide.
    + rewrite lookup_insert_ne by done.
      destruct (decide (k ∈ l)) as [Hin|Hin].
      * by rewrite decide_True by (by right).
      * rewrite decide_False; [done|]. rewrite not_elem_of_cons. done.
Qed.

Lemma update_node_identifier_fresh t a val t' :
  links_ok (treelib.nodes t) -> treelib.nodes t !! val = None ->
  treelib.update_node_identifier t a val = Ok t' ->
  (forall k', treelib.nodes t' !! k'
              = rename_node (swap a val) <$> (treelib.nodes t !! swap a val k')) /\
  treelib.root t' = (if decide (treelib.root t = Some a) then Some val else treelib.root t).
Proof.
  intros [Hs Hn Hp Hl Ht] Hval. unfold treelib.update_node_identifier. intros H.
  apply rbind_Ok in H as (cn & Hcn & H). apply getitem_Ok in Hcn.
  apply rbind_Ok in H as (m2 & Hm2 & H).
  apply rbind_Ok in H as (cn2 & Hcn2 & H). apply getitem_Ok in Hcn2.
  apply rbind_Ok in H as (m3 & Hm3 & H).
  injection H as <-. cbn [treelib.nodes treelib.root]. split; [|done].
  set (B := treelib.nodes t) in *.
  assert (a <> val) as Hav by congruence.
  assert (forall x, is_Some (B !! x) -> x <> val) as Hreg by (intros x [? ?] ->; congruence).
  assert (forall c, c ∈ treelib.successors cn ->
            exists n, B !! c = Some n /\ treelib.predecessor n = Some a /\ c <> a /\ c <> val)
    as Hchild.
  { intros c Hc. destruct (Hs a cn c Hcn Hc) as (n & Hcreg & Hcp).
    exists n. repeat split; try done.
    - intros ->. specialize (Hl a n a Hcreg Hcp). lia.
    - apply Hreg. by eexists. }
  assert ((swap a val) <$> treelib.successors cn = treelib.successors cn) as Hsucc_cn.
  { apply swap_fmap_other; intros Hin; destruct (Hchild _ Hin) as (? & ? & ? & ? & ?); done. }
  (* the registry after the parent's list has been rewritten *)
  assert (exists pnew : option (Attribute.t * treelib.Node),
            (forall k, m2 !! k =
               match pnew with
               | Some (p, pn') => if decide (k = p) then Some pn' else
                   if decide (k = val) then Some cn else if decide (k = a) then None else B !! k
               | None =>
                   if decide (k = val) then Some cn else if decide (k = a) then None else B !! k
               end) /\
            match pnew with
            | Some (p, pn') =>
                treelib.predecessor cn = Some p /\ p <> a /\ p <> val /\
                exists pn, B !! p = Some pn /\
                  pn' = treelib.set_successors ((swap a val) <$> treelib.successors pn) pn
            | None => treelib.predecessor cn = None
            end) as (pnew & Hm2k & Hpnew).
  { destruct (treelib.predecessor cn) as [p|] eqn:Hpred.
    - apply rbind_Ok in Hm2 as (pn & Hpn & Hm2). apply getitem_Ok in Hpn.
      apply rbind_Ok in Hm2 as (l & Hrep & Hm2). injection Hm2 as <-.
      destruct (Hp a cn p Hcn Hpred) as (pn0 & Hpreg & Hin).
      assert (p <> a) by (intros ->; specialize (Hl a cn a Hcn Hpred); lia).
      assert (p <> val) by (apply Hreg; by eexists).
      rewrite lookup_insert_ne, lookup_delete_ne in Hpn by done.
      rewrite Hpreg in Hpn. injection Hpn as <-.
      exists (Some (p, treelib.set_successors l pn0)). split.
      + intros k. destruct (decide (k = p)) as [->|?]; [by rewrite lookup_insert_eq|].
        rewrite lookup_insert_ne by done.
        destruct (decide (k = val)) as [->|?]; [by rewrite lookup_insert_eq|].
        rewrite lookup_insert_ne by done.
        destruct (decide (k = a)) as [->|?]; [by rewrite lookup_delete_eq|].
        by rewrite lookup_delete_ne.
      + repeat split; try done. exists pn0. split; [done|]. f_equal.
        eapply replace_first_swap; [exact Hrep|by eapply Hn|].
        intros Hin'. destruct (Hs p pn0 val Hpreg Hin') as (? & ? & _). congruence.
    - injection Hm2 as <-. exists None. split; [|done].
      intros k. destruct (decide (k = val)) as [->|?]; [by rewrite lookup_insert_eq|].
      rewrite lookup_insert_ne by done.
      destruct (decide (k = a)) as [->|?]; [by rewrite lookup_delete_eq|].
      by rewrite lookup_delete_ne. }
  assert (cn2 = cn) as ->.
  { rewrite Hm2k in Hcn2. destruct pnew as [[p pn']|].
    - destruct Hpnew as (_ & _ & Hpv & _). rewrite decide_False in Hcn2 by done.
      rewrite decide_True in Hcn2 by done. congruence.
    - rewrite decide_True in Hcn2 by done. congruence. }
  pose proof (for_each_set_predecessor _ _ _ _ Hm3) as Hm3k. clear Hm3 Hm2.
  intros k'.
  destruct (decide (k' = val)) as [->|Hkv].
  { rewrite lookup_alter_eq, Hm3k.
    rewrite decide_False by (intros Hin; destruct (Hchild _ Hin) as (? & ? & ? & ? & ?); done).
    rewrite Hcn2. rewrite swap_r, Hcn. simpl. f_equal.
    unfold treelib.set_tag, rename_node. rewrite (Ht a cn Hcn), swap_l.
    rewrite Hsucc_cn. f_equal.
    destruct pnew as [[p pn']|].
    - destruct Hpnew as (-> & ? & ? & _). simpl. by rewrite swap_other.
    - by rewrite Hpnew. }
  rewrite lookup_alter_ne by done. rewrite Hm3k.
  destruct (decide (k' = a)) as [->|Hka].
  { rewrite swap_l. fold B. rewrite Hval. simpl.
    rewrite decide_False by (intros Hin; destruct (Hchild _ Hin) as (? & ? & ? & ? & ?); done).
    rewrite Hm2k. destruct pnew as [[p pn']|].
    - destruct Hpnew as (_ & ? & _). rewrite decide_False by done.
      rewrite decide_False by done. by rewrite decide_True.
    - rewrite decide_False by done. by rewrite decide_True. }
  rewrite swap_other by done.
  assert (m2 !! k' =
          match pnew with
          | Some (p, pn') => if decide (k' = p) then Some pn' else B !! k'
          | None => B !! k'
          end) as Hm2k'.
  { rewrite Hm2k. destruct pnew as [[p pn']|]; repeat case_decide; done. }
  destruct (B !! k') as [n|] eqn:Hk'.
  2:{ assert (m2 !! k' = None) as ->.
      { rewrite Hm2k'. destruct pnew as [[p pn']|]; [|done].
        destruct Hpnew as (_ & _ & _ & pn & Hpn & _).
        rewrite decide_False; [done|]. intros ->. congruence. }
      by case_decide. }
  (* a node that keeps its identifier *)
  assert (treelib.tag n = k') as Htag by (by eapply Ht).
  assert (k' ∈ treelib.successors cn <-> treelib.predecessor n = Some a) as Hischild.
  { split.
    - intros Hin. destruct (Hchild _ Hin) as (n0 & Hn0 & ? & _). congruence.
    - intros Hpa. destruct (Hp k' n a Hk' Hpa) as (pn & Hpn & Hin). congruence. }
  assert (forall q, treelib.predecessor n = Some q -> q <> a -> (swap a val) q = q) as Hpredq.
  { intros q Hq Hqa. apply swap_other; [done|].
    destruct (Hp k' n q Hk' Hq) as (qn & Hqn & _). apply Hreg. by eexists. }
  assert (val ∉ treelib.successors n) as Hvaln.
  { intros Hin. destruct (Hs k' n val Hk' Hin) as (? & ? & _). congruence. }
  assert (rename_node (swap a val) n =
          treelib.mkNode k' (treelib.data n)
            (if decide (k' ∈ treelib.successors cn) then Some val else treelib.predecessor n)
            ((swap a val) <$> treelib.successors n)) as Hren.
  { unfold rename_node. rewrite Htag. rewrite swap_other by done. f_equal.
    case_decide as Hc.
    - apply Hischild in Hc. rewrite Hc. simpl. by rewrite swap_l.
    - destruct (treelib.predecessor n) as [q|] eqn:Hq; [|done]. simpl.
      rewrite Hpredq; [done|done|]. intros ->. apply Hc. by apply Hischild. }
  simpl. rewrite Hren. rewrite Hm2k'.
  assert (forall p, treelib.predecessor cn = Some p -> k' <> p ->
            (swap a val) <$> treelib.successors n = treelib.successors n) as Hnotparent.
  { intros p Hpc Hne. apply swap_fmap_other; [|done].
    intros Hin. destruct (Hs k' n a Hk' Hin) as (cn' & Hcn' & Hback). congruence. }
  destruct pnew as [[p pn']|].
  - destruct Hpnew as (Hpc & Hpa & Hpv & pn & Hpn & ->).
    destruct (decide (k' = p)) as [->|Hkp].
    + rewrite Hk' in Hpn. injection Hpn as <-.
      case_decide as Hc; simpl; f_equal; destruct n; simpl in *; by subst.
    + rewrite (Hnotparent p Hpc Hkp).
      case_decide as Hc; simpl; f_equal; destruct n; simpl in *; by subst.
  - assert ((swap a val) <$> treelib.successors n = treelib.successors n) as ->.
    { apply swap_fmap_other; [|done]. intros Hin.
      destruct (Hs k' n a Hk' Hin) as (cn' & Hcn' & Hback). congruence. }
    case_decide as Hc; simpl; f_equal; destruct n; simpl in *; by subst.
Qed.

Lemma rename_node_ext f g n :
  f (treelib.tag n) = g (treelib.tag n) ->
  (forall p, treelib.predecessor n = Some p -> f p = g p) ->
  (forall c, c ∈ treelib.successors n -> f c = g c) ->
  rename_node f n = rename_node g n.
Proof.
  intros Ht Hp Hs. unfold rename_node. rewrite Ht. f_equal.
  - destruct (treelib.predecessor n) as [p|]; [|done]. simpl. by rewrite Hp.
  - apply list_fmap_ext. intros i c Hc. apply Hs. by eapply list_elem_of_lookup_2.
Qed.

Lemma rename_node_compose f g n :
  rename_node f (rename_node g n) = rename_node (f ∘ g) n.
Proof.
  unfold rename_node. simpl. f_equal.
  - by destruct (treelib.predecessor n).
  - by rewrite <- list_fmap_compose.
Qed.

Lemma rename_node_id n : rename_node id n = n.
Proof.
  unfold rename_node. destruct n as [t d p s]. simpl. f_equal.
  - by destruct p.
  - apply list_fmap_id.
Qed.

(** The identifiers that occur in a node of a consistent registry are
    registered. *)
Lemma links_ok_ids m k n :
  links_ok m -> m !! k = Some n ->
  is_Some (m !! treelib.tag n) /\
  (forall p, treelib.predecessor n = Some p -> is_Some (m !! p)) /\
  (forall c, c ∈ treelib.successors n -> is_Some (m !! c)).
Proof.
  intros [Hs Hn Hp Hl Ht] Hk. split; [|split].
  - rewrite (Ht k n Hk). by eexists.
  - intros p Hpn. destruct (Hp k n p Hk Hpn) as (? & ? & _). by eexists.
  - intros c Hc. destruct (Hs k n c Hk Hc) as (? & ? & _). by eexists.
Qed.

Lemma image_ext f g m m' :
  links_ok m -> (forall x, is_Some (m !! x) -> f x = g x) -> image f m m' -> image g m m'.
Proof.
  intros Hok Hfg Him k' n'. rewrite (Him k' n'). 
  split; intros (k & n & Hk & -> & ->); exists k, n; (split; [done|]);
    destruct (links_ok_ids m k n Hok Hk) as (Ht & Hp & Hs).
  - split; [apply Hfg; by eexists|]. apply rename_node_ext; auto.
  - split; [symmetry; apply Hfg; by eexists|]. symmetry. apply rename_node_ext; auto.
Qed.

Lemma image_id m : image id m m.
Proof.
  intros k' n'. split.
  - intros Hk. exists k', n'. by rewrite rename_node_id.
  - intros (k & n & Hk & -> & ->). by rewrite rename_node_id.
Qed.

(** A fresh rename, on top of an image, is an image. *)
Lemma image_swap f a val m m1 m2 :
  image f m m1 ->
  (forall k', m2 !! k' = rename_node (swap a val) <$> (m1 !! swap a val k')) ->
  image (swap a val ∘ f) m m2.
Proof.
  intros Him Hsw k' n'. rewrite Hsw. split.
  - destruct (m1 !! swap a val k') as [n1|] eqn:Hn1; [|done]. simpl. intros [= <-].
    apply Him in Hn1 as (k & n & Hk & Hkk & ->). exists k, n. split; [done|]. split.
    + simpl. rewrite <- Hkk. by rewrite swap_involutive.
    + apply rename_node_compose.
  - intros (k & n & Hk & -> & ->). simpl. rewrite swap_involutive.
    assert (m1 !! f k = Some (rename_node f n)) as -> by (apply Him; eauto).
    simpl. by rewrite rename_node_compose.
Qed.

(** ** The traversal *)

Lemma map_resolve_fst m ids ns :
  map_result (treelib.resolve m) ids = Ok ns -> ns.*1 = ids.
Proof.
  revert ns. induction ids as [|i ids IH]; intros ns; cbn [map_result].
  - by intros [= <-].
  - intros H. apply rbind_Ok in H as (x & Hx & H). apply rbind_Ok in H as (xs & Hxs & H).
    injection H as <-. apply resolve_Ok in Hx as [Hx _]. cbn [fmap list_fmap].
    rewrite Hx. f_equal. by apply IH.
Qed.

Lemma expand_queue_spec fuel t queue out :
  treelib.expand_queue fuel t queue = Ok out ->
  (forall x, x ∈ queue -> treelib.nodes t !! x.1 = Some x.2) ->
  (forall i, i ∈ out ->
     is_Some (treelib.nodes t !! i) /\
     (i ∈ queue.*1 \/
      exists q nq, q ∈ out /\ treelib.nodes t !! q = Some nq /\ i ∈ treelib.successors nq)) /\
  (forall x, x ∈ queue -> x.1 ∈ out) /\
  (forall q nq, q ∈ out -> treelib.nodes t !! q = Some nq ->
     forall c, c ∈ treelib.successors nq -> c ∈ out).
Proof.
  revert queue out. induction fuel as [|fuel IH]; intros queue out;
    cbn [treelib.expand_queue]; destruct queue as [|[i n] rest]; try discriminate.
  - intros [= <-] _.
    split; [by intros ? ?%elem_of_nil|split; [by intros ? ?%elem_of_nil|]].
    by intros ? ? ?%elem_of_nil.
  - intros [= <-] _.
    split; [by intros ? ?%elem_of_nil|split; [by intros ? ?%elem_of_nil|]].
    by intros ? ? ?%elem_of_nil.
  - intros H Hreg. apply rbind_Ok in H as (expansion & Hexp & H).
    apply rbind_Ok in H as (tl & Htl & H). injection H as <-.
    pose proof (map_resolve_lookup _ _ _ Hexp) as Hexpreg.
    pose proof (map_resolve_fst _ _ _ Hexp) as Hexpfst.
    assert (treelib.nodes t !! i = Some n) as Hi by (apply (Hreg (i, n)); by left).
    destruct (IH _ _ Htl) as (Ha & Hb & Hc).
    { intros x [Hx|Hx]%elem_of_app; [by apply Hexpreg|apply Hreg; by right]. }
    split; [|split].
    + intros j [->|Hj]%elem_of_cons.
      * split; [by eexists|]. left. cbn [fmap list_fmap]. by left.
      * destruct (Ha j Hj) as [Hjreg Hjfrom]. split; [done|].
        destruct Hjfrom as [Hjq|(q & nq & Hq & Hnq & Hjs)].
        -- rewrite fmap_app, elem_of_app in Hjq. destruct Hjq as [Hjq|Hjq].
           ++ right. exists i, n. split; [by left|]. split; [done|]. by rewrite <- Hexpfst.
           ++ left. cbn [fmap list_fmap]. by right.
        -- right. exists q, nq. split; [by right|done].
    + intros x [->|Hx]%elem_of_cons; [by left|]. right. apply Hb. apply elem_of_app. by right.
    + intros q nq [->|Hq]%elem_of_cons Hnq c Hc'.
      * rewrite Hi in Hnq. injection Hnq as <-. rewrite <- Hexpfst in Hc'.
        apply list_elem_of_fmap in Hc' as (x & -> & Hx). right. apply Hb.
        apply elem_of_app. by left.
      * right. by eapply Hc.
Qed.

Lemma expand_tree_spec fuel t nid ids :
  treelib.expand_tree fuel t nid = Ok ids ->
  nid ∈ ids /\
  (forall i, i ∈ ids ->
     is_Some (treelib.nodes t !! i) /\
     (i = nid \/
      exists q nq, q ∈ ids /\ treelib.nodes t !! q = Some nq /\ i ∈ treelib.successors nq)) /\
  (forall q nq, q ∈ ids -> treelib.nodes t !! q = Some nq ->
     forall c, c ∈ treelib.successors nq -> c ∈ ids).
Proof.
  unfold treelib.expand_tree. intros H.
  apply rbind_Ok in H as (n & Hn & H). apply getitem_Ok in Hn.
  apply rbind_Ok in H as (queue & Hq & H). apply rbind_Ok in H as (tl & Htl & H).
  injection H as <-.
  pose proof (map_resolve_lookup _ _ _ Hq) as Hqreg.
  pose proof (map_resolve_fst _ _ _ Hq) as Hqfst.
  destruct (expand_queue_spec _ _ _ _ Htl Hqreg) as (Ha & Hb & Hc).
  split; [by left|]. split.
  - intros i [->|Hi]%elem_of_cons; [split; [by eexists|by left]|].
    destruct (Ha i Hi) as [Hreg Hfrom]. split; [done|]. right.
    destruct Hfrom as [Hiq|(q & nq & Hq' & Hnq & His)].
    + exists nid, n. split; [by left|]. split; [done|]. by rewrite <- Hqfst.
    + exists q, nq. split; [by right|done].
  - intros q nq [->|Hq']%elem_of_cons Hnq c Hc'.
    + rewrite Hn in Hnq. injection Hnq as <-. rewrite <- Hqfst in Hc'.
      apply list_elem_of_fmap in Hc' as (x & -> & Hx). right. by apply Hb.
    + right. by eapply Hc.
Qed.

Lemma subtree_nodes_fold (nid : Attribute.t) (m : gmap Attribute.t treelib.Node)
    (ns : list (Attribute.t * treelib.Node)) (acc : gmap Attribute.t treelib.Node) k :
  (forall x, x ∈ ns -> m !! x.1 = Some x.2) ->
  foldl (fun m0 x => <[x.1 := if decide (x.1 = nid)
                              then treelib.set_predecessor None x.2 else x.2]> m0) acc ns !! k
  = if decide (k ∈ ns.*1)
    then (if decide (k = nid) then treelib.set_predecessor None <$> m !! k else m !! k)
    else acc !! k.
Proof.
  revert acc. induction ns as [|x ns IH]; intros acc Hreg; cbn [foldl fmap list_fmap].
  - rewrite decide_False; [done|apply not_elem_of_nil].
  - rewrite IH by (intros; apply Hreg; by right).
    destruct (decide (k ∈ ns.*1)) as [Hin|Hin].
    + destruct (decide (k ∈ x.1 :: ns.*1)) as [?|Hn]; [done|].
      exfalso. apply Hn. by right.
    + destruct (decide (k = x.1)) as [->|Hne].
      * destruct (decide (x.1 ∈ x.1 :: ns.*1)) as [?|Hn]; [|exfalso; apply Hn; by left].
        rewrite lookup_insert_eq. rewrite (Hreg x) by (by left).
        by destruct (decide (x.1 = nid)).
      * rewrite lookup_insert_ne by done.
        destruct (decide (k ∈ x.1 :: ns.*1)) as [Hn|?]; [|done].
        apply elem_of_cons in Hn as [?|?]; done.
Qed.

Lemma subtree_spec fuel t nid st :
  treelib.subtree fuel t nid = Ok st ->
  exists ids, treelib.expand_tree fuel t nid = Ok ids /\
    treelib.root st = Some nid /\
    forall k, treelib.nodes st !! k =
      if decide (k ∈ ids)
      then (if decide (k = nid) then treelib.set_predecessor None <$> treelib.nodes t !! k
            else treelib.nodes t !! k)
      else None.
Proof.
  unfold treelib.subtree. intros H.
  apply rbind_Ok in H as (ids & Hids & H). apply rbind_Ok in H as (ns & Hns & H).
  injection H as <-. exists ids. split; [done|]. split; [done|]. intros k.
  cbn [treelib.nodes]. rewrite (subtree_nodes_fold nid (treelib.nodes t)).
  - rewrite (map_resolve_fst _ _ _ Hns). by rewrite lookup_empty.
  - by eapply map_resolve_lookup.
Qed.

(** ** Well-formed trees *)

Lemma wf_prefix_closed m k p :
  wf m -> is_Some (m !! k) -> p `prefix_of` k -> is_Some (m !! p).
Proof.
  intros [Hl Hpaths Hroot _] Hk [s ->]. revert Hk.
  induction s as [|x s IH] using rev_ind; intros Hk; [by rewrite app_nil_r in Hk|].
  apply IH. destruct Hk as [n Hn].
  destruct (treelib.predecessor n) as [q|] eqn:Hq.
  - destruct (Hpaths _ _ _ Hn Hq) as [y Hy].
    rewrite app_assoc in Hy. apply app_inj_tail in Hy as [<- _].
    destruct (links_pred _ Hl _ _ _ Hn Hq) as (qn & Hqn & _). by eexists.
  - apply (Hroot _ _ Hn) in Hq. apply (f_equal length) in Hq.
    rewrite !length_app in Hq. simpl in Hq. lia.
Qed.

Lemma expand_tree_prefix fuel t nid ids :
  wf (treelib.nodes t) -> treelib.expand_tree fuel t nid = Ok ids ->
  forall i, i ∈ ids -> nid `prefix_of` i.
Proof.
  intros [Hl Hpaths Hroot _] H. apply expand_tree_spec in H as (_ & Hfrom & _).
  intros i. remember (length i) as len eqn:Hlen. revert i Hlen.
  induction len as [len IH] using lt_wf_ind. intros i -> Hi.
  destruct (Hfrom i Hi) as [_ [->|(q & nq & Hq & Hnq & His)]]; [done|].
  destruct (links_succ _ Hl _ _ _ Hnq His) as (n & Hn & Hpred).
  destruct (Hpaths _ _ _ Hn Hpred) as [x ->].
  apply prefix_app_r. eapply IH; [|reflexivity|done]. rewrite length_app. simpl. lia.
Qed.

Lemma subtree_branch fuel t nid st :
  wf (treelib.nodes t) -> treelib.subtree fuel t nid = Ok st ->
  branch_of (treelib.nodes t) nid (treelib.nodes st) /\ treelib.root st = Some nid.
Proof.
  intros Hwf H. pose proof (subtree_lookup _ _ _ _ H) as Hpayload.
  apply subtree_spec in H as (ids & Hids & Hroot & Hst). split; [|done].
  pose proof (expand_tree_prefix _ _ _ _ Hwf Hids) as Hprefix.
  apply expand_tree_spec in Hids as (Hnid & Hfrom & Hclosed).
  destruct Hwf as [Hl Hpaths Hrootonly _].
  assert (forall k n', treelib.nodes st !! k = Some n' ->
            k ∈ ids /\ exists n, treelib.nodes t !! k = Some n /\
              n' = if decide (k = nid) then treelib.set_predecessor None n else n) as Hinv.
  { intros k n' Hk. rewrite Hst in Hk. destruct (decide (k ∈ ids)); [|done].
    split; [done|]. destruct (decide (k = nid)).
    - destruct (treelib.nodes t !! k); [|done]. injection Hk as <-. eauto.
    - eauto. }
  assert (forall k n, k ∈ ids -> treelib.nodes t !! k = Some n ->
            treelib.nodes st !! k =
              Some (if decide (k = nid) then treelib.set_predecessor None n else n)) as Hfwd.
  { intros k n Hk Hn. rewrite Hst, decide_True by done. rewrite Hn. by case_decide. }
  assert (forall q nq c n, q ∈ ids -> treelib.nodes t !! q = Some nq ->
            c ∈ treelib.successors nq -> treelib.nodes t !! c = Some n -> c <> nid) as Hnotroot.
  { intros q nq c n Hq Hnq Hc Hn ->.
    destruct (links_succ _ Hl _ _ _ Hnq Hc) as (n0 & Hn0 & Hpred).
    pose proof (links_len _ Hl _ _ _ Hn0 Hpred) as Hlen.
    destruct (Hprefix q Hq) as [s ->]. rewrite length_app in Hlen. lia. }
  split.
  - split.
    + intros k n' c Hk Hc. apply Hinv in Hk as (Hkin & n & Hn & ->).
      assert (c ∈ treelib.successors n) as Hc' by (by destruct (decide (k = nid))).
      destruct (links_succ _ Hl _ _ _ Hn Hc') as (cn & Hcn & Hpred).
      exists cn. split; [|done]. rewrite (Hfwd c cn); [|by eapply Hclosed|done].
      rewrite decide_False; [done|]. by eapply Hnotroot.
    + intros k n' Hk. apply Hinv in Hk as (Hkin & n & Hn & ->).
      pose proof (links_nodup _ Hl _ _ Hn). by destruct (decide (k = nid)).
    + intros k n' p Hk Hp. apply Hinv in Hk as (Hkin & n & Hn & ->).
      destruct (decide (k = nid)) as [->|Hne]; [done|].
      destruct (Hfrom k Hkin) as [_ [?|(q & nq & Hq & Hnq & His)]]; [done|].
      destruct (links_succ _ Hl _ _ _ Hnq His) as (n0 & Hn0 & Hpred).
      rewrite Hn in Hn0. injection Hn0 as <-. rewrite Hp in Hpred. injection Hpred as ->.
      eexists. split; [by apply Hfwd|]. by destruct (decide (q = nid)).
    + intros k n' p Hk Hp. apply Hinv in Hk as (Hkin & n & Hn & ->).
      destruct (decide (k = nid)) as [->|Hne]; [done|]. by eapply (links_len _ Hl).
    + intros k n' Hk. apply Hinv in Hk as (Hkin & n & Hn & ->).
      pose proof (links_tag _ Hl _ _ Hn). by destruct (decide (k = nid)).
  - destruct (Hfrom nid Hnid) as [[n Hn] _]. eexists. split; [by apply Hfwd|].
    by rewrite decide_True.
  - intros k [n' Hk]. apply Hinv in Hk as (Hkin & _). by apply Hprefix.
  - intros k n' Hk Hne. apply Hinv in Hk as (Hkin & n & Hn & ->).
    rewrite decide_False by done.
    destruct (Hfrom k Hkin) as [_ [?|(q & nq & Hq & Hnq & His)]]; [done|].
    destruct (links_succ _ Hl _ _ _ Hnq His) as (n0 & Hn0 & Hpred).
    rewrite Hn in Hn0. injection Hn0 as <-.
    destruct (Hpaths _ _ _ Hn Hpred) as [x Hx]. eauto.
  - exact Hpayload.
Qed.

(** ** Renaming a copied template *)

Lemma index_lookup x l j : Attribute.index x l = Ok j -> l !! j = Some x.
Proof.
  revert j. induction l as [|s l IH]; intros j; cbn [Attribute.index]; [done|].
  case_decide as Hs; [by intros [= <-]; subst|].
  intros H. apply rbind_Ok in H as (i & Hi & H). injection H as <-. simpl. by apply IH.
Qed.

Lemma index_app x l r j : Attribute.index x l = Ok j -> Attribute.index x (l ++ r) = Ok j.
Proof.
  revert j. induction l as [|s l IH]; intros j; cbn [Attribute.index app]; [done|].
  case_decide as Hs; [done|].
  intros H. apply rbind_Ok in H as (i & Hi & H). injection H as <-.
  by rewrite (IH i Hi).
Qed.

Lemma index_elem x l : x ∈ l -> exists j, Attribute.index x l = Ok j.
Proof.
  induction l as [|s l IH]; [by intros ?%elem_of_nil|]. cbn [Attribute.index].
  intros Hin. case_decide as Hs; [eauto|].
  apply elem_of_cons in Hin as [->|Hin]; [done|].
  destruct (IH Hin) as [j ->]. simpl. eauto.
Qed.

Lemma index_lt x l j : Attribute.index x l = Ok j -> j < length l.
Proof. intros H. apply index_lookup in H. by eapply lookup_lt_Some. Qed.

Lemma index_first x l j i : Attribute.index x l = Ok j -> i < j -> l !! i <> Some x.
Proof.
  revert j i. induction l as [|s l IH]; intros j i; cbn [Attribute.index]; [done|].
  case_decide as Hs; [intros [= <-]; lia|].
  intros H Hi. apply rbind_Ok in H as (j' & Hj' & H). injection H as <-.
  destruct i as [|i]; simpl; [congruence|]. eapply IH; [done|lia].
Qed.

Lemma subst_at_inj j seg (x y : Attribute.t) (s : string) :
  x !! j = Some s -> y !! j = Some s -> subst_at j seg x = subst_at j seg y -> x = y.
Proof.
  unfold subst_at. intros Hx Hy Heq. apply list_eq. intros i.
  destruct (decide (i = j)) as [->|Hne]; [congruence|].
  apply (f_equal (fun l => l !! i)) in Heq.
  by rewrite !list_lookup_insert_ne in Heq by done.
Qed.

Lemma subst_at_lookup j seg (x : Attribute.t) (s : string) :
  x !! j = Some s -> subst_at j seg x !! j = Some seg.
Proof.
  intros Hx. unfold subst_at. apply list_lookup_insert_eq. by eapply lookup_lt_Some.
Qed.

Section rename_loop.

Context (attribute : Attribute.t) (seg : string) (j : nat)
        (B0 : gmap Attribute.t treelib.Node).
Context (Hlinks : links_ok B0).
Context (Hend : Attribute.get_end attribute = Ok seg).
Context (Hseg : seg <> name_placeholder).
Context (Hindex : forall k, is_Some (B0 !! k) -> Attribute.index name_placeholder k = Ok j).

Lemma registered_at_j k : is_Some (B0 !! k) -> k !! j = Some name_placeholder.
Proof. intros Hk. apply index_lookup. by apply Hindex. Qed.

Lemma sigma_inj R x y :
  is_Some (B0 !! x) -> is_Some (B0 !! y) -> sigma j seg R x = sigma j seg R y -> x = y.
Proof.
  intros Hx Hy. pose proof (registered_at_j x Hx) as Hxj.
  pose proof (registered_at_j y Hy) as Hyj. unfold sigma.
  destruct (decide (x ∈ R)), (decide (y ∈ R)); intros Heq; [|exfalso..|done].
  - by eapply subst_at_inj.
  - apply (subst_at_lookup j seg) in Hxj. rewrite Heq in Hxj. congruence.
  - apply (subst_at_lookup j seg) in Hyj. rewrite <- Heq in Hyj. congruence.
Qed.

Lemma sigma_length R x : length (sigma j seg R x) = length x.
Proof. unfold sigma, subst_at. case_decide; [apply length_insert|done]. Qed.

Lemma sigma_step R a x :
  is_Some (B0 !! x) -> is_Some (B0 !! a) -> a ∉ R ->
  swap a (subst_at j seg a) (sigma j seg R x) = sigma j seg ({[a]} ∪ R) x.
Proof.
  intros Hx Ha HaR. pose proof (registered_at_j x Hx) as Hxj.
  pose proof (registered_at_j a Ha) as Haj. unfold sigma.
  destruct (decide (x = a)) as [->|Hne].
  - rewrite decide_False by done. rewrite swap_l.
    rewrite decide_True; [done|]. apply elem_of_union. left. by apply elem_of_singleton.
  - destruct (decide (x ∈ R)) as [HxR|HxR].
    + rewrite decide_True by (apply elem_of_union; by right).
      apply swap_other.
      * intros Heq. apply (subst_at_lookup j seg) in Hxj. rewrite Heq in Hxj. congruence.
      * intros Heq. apply Hne. by eapply subst_at_inj.
    + rewrite decide_False.
      * apply swap_other; [done|]. intros Heq.
        apply (subst_at_lookup j seg) in Haj. rewrite <- Heq in Haj. congruence.
      * rewrite elem_of_union, elem_of_singleton. tauto.
Qed.

Lemma rename_loop (L : list (Attribute.t * treelib.Node)) :
  forall (R : gset Attribute.t) (r0 : Attribute.t) tr tr',
    NoDup L.*1 ->
    (forall x, x ∈ L -> (x.1 ∉ R) /\ is_Some (B0 !! x.1)) ->
    is_Some (B0 !! r0) ->
    image (sigma j seg R) B0 (treelib.nodes tr) ->
    treelib.root tr = Some (sigma j seg R r0) ->
    for_each (OptionTree.substitute_name attribute) L tr = Ok tr' ->
    image (sigma j seg (list_to_set L.*1 ∪ R)) B0 (treelib.nodes tr') /\
    treelib.root tr' = Some (sigma j seg (list_to_set L.*1 ∪ R) r0).
Proof.
  induction L as [|[a na] L IH]; intros R r0 tr tr' Hnd HL Hr0 Him Hroot;
    cbn [for_each fmap list_fmap].
  - intros [= <-]. 
    assert (forall x, sigma j seg R x = sigma j seg (list_to_set [] ∪ R) x) as Hsame.
    { intros x. unfold sigma. destruct (decide (x ∈ R)) as [HxR|HxR].
      - rewrite decide_True; [done|]. apply elem_of_union. by right.
      - rewrite decide_False; [done|]. rewrite elem_of_union, elem_of_list_to_set, elem_of_nil.
        tauto. }
    split; [|by rewrite <- Hsame]. eapply image_ext; [done| |exact Him]. auto.
  - intros H. apply rbind_Ok in H as (tr1 & Hstep & H).
    rewrite fmap_cons in Hnd. apply NoDup_cons in Hnd as [HaL Hnd]. cbn [fst] in HaL.
    destruct (HL (a, na)) as [HaR Ha]; [by left|]. cbn [fst] in HaR, Ha.
    unfold OptionTree.substitute_name in Hstep. cbn [fst] in Hstep.
    rewrite Hend in Hstep. cbn [rbind] in Hstep. rewrite (Hindex a Ha) in Hstep.
    cbn [rbind] in Hstep. fold (subst_at j seg a) in Hstep.
    assert (links_ok (treelib.nodes tr)) as Hlk.
    { eapply links_ok_image; [exact Hlinks|exact Him| |].
      - intros x y. apply sigma_inj.
      - intros x _. apply sigma_length. }
    assert (treelib.nodes tr !! subst_at j seg a = None) as Hfresh.
    { destruct (treelib.nodes tr !! subst_at j seg a) as [n|] eqn:Hn; [|done]. exfalso.
      apply Him in Hn as (k & n0 & Hk & Heq & _).
      assert (is_Some (B0 !! k)) as Hk' by (by eexists).
      pose proof (registered_at_j k Hk') as Hkj. pose proof (registered_at_j a Ha) as Haj.
      unfold sigma in Heq. destruct (decide (k ∈ R)) as [HkR|HkR].
      - apply (subst_at_inj j seg a k name_placeholder) in Heq; [|done..]. by subst.
      - apply (subst_at_lookup j seg) in Haj. rewrite Heq in Haj. congruence. }
    destruct (update_node_identifier_fresh _ _ _ _ Hlk Hfresh Hstep) as [Hpt Hroot1].
    assert (image (sigma j seg ({[a]} ∪ R)) B0 (treelib.nodes tr1)) as Him1.
    { eapply image_ext; [done| |eapply image_swap; [exact Him|exact Hpt]].
      intros x Hx. simpl. by apply sigma_step. }
    assert (treelib.root tr1 = Some (sigma j seg ({[a]} ∪ R) r0)) as Hroot1'.
    { rewrite Hroot in Hroot1. rewrite Hroot1. rewrite <- (sigma_step R a r0) by done.
      destruct (decide (Some (sigma j seg R r0) = Some a)) as [Heq|Heq].
      - injection Heq as ->. by rewrite swap_l.
      - f_equal. symmetry. apply swap_other; [congruence|].
        intros Heq'. unfold sigma in Heq'.
        pose proof (registered_at_j r0 Hr0) as Hrj. pose proof (registered_at_j a Ha) as Haj.
        destruct (decide (r0 ∈ R)).
        + apply Heq. f_equal. unfold sigma. rewrite decide_True by done.
          exfalso. apply (subst_at_inj j seg r0 a name_placeholder) in Heq'; [|done..].
          by subst.
        + apply (subst_at_lookup j seg) in Haj. rewrite <- Heq' in Haj. congruence. }
    destruct (IH ({[a]} ∪ R) r0 tr1 tr' Hnd) as [Him' Hroot']; try done.
    { intros x Hx. destruct (HL x) as [HxR Hxreg]; [by right|]. split; [|done].
      rewrite elem_of_union, elem_of_singleton. intros [Hxa|?]; [|done].
      apply HaL. rewrite <- Hxa. by apply list_elem_of_fmap_2. }
    assert (forall x, sigma j seg (list_to_set L.*1 ∪ ({[a]} ∪ R)) x
                      = sigma j seg (list_to_set (a :: L.*1) ∪ R) x) as Hsame.
    { intros x. unfold sigma.
      assert (x ∈ list_to_set L.*1 ∪ ({[a]} ∪ R) <-> x ∈ list_to_set (a :: L.*1) ∪ R) as Hiff.
      { rewrite !elem_of_union, !elem_of_list_to_set, elem_of_cons, elem_of_singleton. tauto. }
      destruct (decide (x ∈ list_to_set L.*1 ∪ ({[a]} ∪ R))) as [Hin|Hin].
      - rewrite decide_True; [done|]. by apply Hiff.
      - rewrite decide_False; [done|]. by rewrite <- Hiff. }
    split; [|by rewrite <- Hsame]. eapply image_ext; [done| |exact Him']. auto.
Qed.

End rename_loop.

Lemma rename_template attribute seg st br spec j :
  links_ok (treelib.nodes st) ->
  (forall k, is_Some (treelib.nodes st !! k) -> spec `prefix_of` k) ->
  is_Some (treelib.nodes st !! spec) -> treelib.root st = Some spec ->
  Attribute.get_end attribute = Ok seg -> seg <> name_placeholder ->
  Attribute.index name_placeholder spec = Ok j ->
  for_each (OptionTree.substitute_name attribute) (treelib.all_nodes st) st = Ok br ->
  image (subst_at j seg) (treelib.nodes st) (treelib.nodes br) /\
  treelib.root br = Some (subst_at j seg spec).
Proof.
  intros Hl Hpre Hspec Hroot Hend Hseg Hj Hloop.
  assert (forall k, is_Some (treelib.nodes st !! k) ->
            Attribute.index name_placeholder k = Ok j) as Hindex.
  { intros k Hk. destruct (Hpre k Hk) as [rest ->]. by apply index_app. }
  destruct (rename_loop attribute seg j (treelib.nodes st) Hl Hend Hseg Hindex
              (treelib.all_nodes st) ∅ spec st br) as [Him Hr]; try done.
  - apply NoDup_fst_map_to_list.
  - intros [k n] Hx. apply elem_of_map_to_list in Hx. split; [apply not_elem_of_empty|].
    by eexists.
  - eapply image_ext; [done| |apply image_id]. intros x _. unfold sigma.
    rewrite decide_False; [done|]. apply not_elem_of_empty.
  - assert (forall x, is_Some (treelib.nodes st !! x) ->
              sigma j seg (list_to_set (treelib.all_nodes st).*1 ∪ ∅) x = subst_at j seg x)
      as Hsame.
    { intros x [n Hx]. unfold sigma. rewrite decide_True; [done|].
      apply elem_of_union. left. apply elem_of_list_to_set.
      apply list_elem_of_fmap. exists (x, n). split; [done|].
      by apply elem_of_map_to_list. }
    split; [by eapply image_ext|]. by rewrite Hr, Hsame.
Qed.

(** ** Hanging a branch below a node *)

Section graft.

Context (t br m3 : gmap Attribute.t treelib.Node) (nid r : Attribute.t)
        (pn rn : treelib.Node) (x : string).
Context (Hwf : wf t) (Hbr : links_ok br).
Context (Hpn : t !! nid = Some pn) (Hrn : br !! r = Some rn).
Context (Hrn_pred : treelib.predecessor rn = None).
Context (Hdisj : forall k, is_Some (br !! k) -> t !! k = None).
Context (Hpaths : forall k n, br !! k = Some n -> k <> r ->
           exists p y, treelib.predecessor n = Some p /\ k = (p ++ [y])%list).
Context (Hr : r = (nid ++ [x])%list).
Context (Hm3 : forall k, m3 !! k =
           if decide (k = nid)
           then Some (treelib.set_successors (treelib.successors pn ++ [r]) pn)
           else if decide (k = r) then Some (treelib.set_predecessor (Some nid) rn)
           else match br !! k with Some n => Some n | None => t !! k end).

Lemma graft_ne : nid <> r.
Proof. intros Heq. apply (f_equal length) in Heq. rewrite Hr, length_app in Heq. simpl in Heq. lia. Qed.

Lemma graft_t_r : t !! r = None.
Proof. apply Hdisj. by eexists. Qed.

Lemma graft_br_nid : br !! nid = None.
Proof.
  destruct (br !! nid) eqn:Hn; [|done]. rewrite Hdisj in Hpn; [done|]. by eexists.
Qed.

Lemma graft_inv k n :
  m3 !! k = Some n ->
  (k = nid /\ n = treelib.set_successors (treelib.successors pn ++ [r]) pn) \/
  (k = r /\ n = treelib.set_predecessor (Some nid) rn) \/
  (k <> nid /\ k <> r /\ br !! k = Some n) \/
  (k <> nid /\ k <> r /\ t !! k = Some n).
Proof.
  rewrite Hm3. destruct (decide (k = nid)); [intros [= <-]; by left|].
  destruct (decide (k = r)); [intros [= <-]; right; by left|].
  destruct (br !! k) eqn:Hb.
  - intros [= <-]. right; right; by left.
  - intros Ht. right; right; by right.
Qed.

Lemma graft_nid :
  m3 !! nid = Some (treelib.set_successors (treelib.successors pn ++ [r]) pn).
Proof. by rewrite Hm3, decide_True. Qed.

Lemma graft_r : m3 !! r = Some (treelib.set_predecessor (Some nid) rn).
Proof.
  pose proof graft_ne. rewrite Hm3, decide_False by done. by rewrite decide_True.
Qed.

Lemma graft_br k n : br !! k = Some n -> k <> r -> m3 !! k = Some n.
Proof.
  intros Hk Hne. rewrite Hm3, decide_False.
  - rewrite decide_False by done. by rewrite Hk.
  - intros ->. by rewrite graft_br_nid in Hk.
Qed.

Lemma graft_t k n : t !! k = Some n -> k <> nid -> m3 !! k = Some n.
Proof.
  intros Hk Hne. rewrite Hm3, decide_False by done. rewrite decide_False.
  - destruct (br !! k) eqn:Hb; [|done]. rewrite Hdisj in Hk; [done|]. by eexists.
  - intros ->. by rewrite graft_t_r in Hk.
Qed.

Lemma graft_wf : wf m3.
Proof.
  pose proof graft_ne as Hne. pose proof graft_t_r as Htr.
  destruct Hwf as [Hl Hp Hroot Htop].
  split; [split|..].
  - intros k n c Hk Hc.
    destruct (graft_inv k n Hk) as [[-> ->]|[[-> ->]|[(Hk1 & Hk2 & Hb)|(Hk1 & Hk2 & Ht)]]].
    + cbn in Hc. apply elem_of_app in Hc as [Hc|Hc].
      * destruct (links_succ _ Hl _ _ _ Hpn Hc) as (cn & Hcn & Hpred).
        exists cn. split; [|done]. apply graft_t; [done|].
        intros ->. pose proof (links_len _ Hl _ _ _ Hcn Hpred). lia.
      * apply list_elem_of_singleton in Hc as ->. eexists. split; [apply graft_r|done].
    + cbn in Hc. destruct (links_succ _ Hbr _ _ _ Hrn Hc) as (cn & Hcn & Hpred).
      exists cn. split; [|done]. apply graft_br; [done|].
      intros ->. pose proof (links_len _ Hbr _ _ _ Hcn Hpred). lia.
    + destruct (links_succ _ Hbr _ _ _ Hb Hc) as (cn & Hcn & Hpred).
      exists cn. split; [|done]. apply graft_br; [done|]. intros ->. congruence.
    + destruct (links_succ _ Hl _ _ _ Ht Hc) as (cn & Hcn & Hpred).
      destruct (decide (c = nid)) as [->|Hcne].
      * eexists. split; [apply graft_nid|]. cbn. congruence.
      * exists cn. split; [|done]. by apply graft_t.
  - intros k n Hk.
    destruct (graft_inv k n Hk) as [[-> ->]|[[-> ->]|[(Hk1 & Hk2 & Hb)|(Hk1 & Hk2 & Ht)]]].
    + cbn. apply NoDup_app. split; [by eapply (links_nodup _ Hl)|]. split.
      * intros c Hc ->%list_elem_of_singleton.
        destruct (links_succ _ Hl _ _ _ Hpn Hc) as (cn & Hcn & _). congruence.
      * apply NoDup_singleton.
    + cbn. by eapply (links_nodup _ Hbr).
    + by eapply (links_nodup _ Hbr).
    + by eapply (links_nodup _ Hl).
  - intros k n p Hk Hpred.
    destruct (graft_inv k n Hk) as [[-> ->]|[[-> ->]|[(Hk1 & Hk2 & Hb)|(Hk1 & Hk2 & Ht)]]].
    + cbn in Hpred. destruct (links_pred _ Hl _ _ _ Hpn Hpred) as (qn & Hq & Hin).
      exists qn. split; [|done]. apply graft_t; [done|].
      intros ->. pose proof (links_len _ Hl _ _ _ Hpn Hpred). lia.
    + cbn in Hpred. injection Hpred as <-. eexists. split; [apply graft_nid|].
      cbn. apply elem_of_app. right. by apply list_elem_of_singleton.
    + destruct (links_pred _ Hbr _ _ _ Hb Hpred) as (qn & Hq & Hin).
      destruct (decide (p = r)) as [->|Hpr].
      * eexists. split; [apply graft_r|]. cbn. congruence.
      * exists qn. split; [|done]. by apply graft_br.
    + destruct (links_pred _ Hl _ _ _ Ht Hpred) as (qn & Hq & Hin).
      destruct (decide (p = nid)) as [->|Hpn'].
      * eexists. split; [apply graft_nid|]. cbn. apply elem_of_app. left. congruence.
      * exists qn. split; [|done]. by apply graft_t.
  - intros k n p Hk Hpred.
    destruct (graft_inv k n Hk) as [[-> ->]|[[-> ->]|[(Hk1 & Hk2 & Hb)|(Hk1 & Hk2 & Ht)]]].
    + by eapply (links_len _ Hl).
    + cbn in Hpred. injection Hpred as <-. rewrite Hr, length_app. simpl. lia.
    + by eapply (links_len _ Hbr).
    + by eapply (links_len _ Hl).
  - intros k n Hk.
    destruct (graft_inv k n Hk) as [[-> ->]|[[-> ->]|[(Hk1 & Hk2 & Hb)|(Hk1 & Hk2 & Ht)]]].
    + cbn. by eapply (links_tag _ Hl).
    + cbn. by eapply (links_tag _ Hbr).
    + by eapply (links_tag _ Hbr).
    + by eapply (links_tag _ Hl).
  - intros k n p Hk Hpred.
    destruct (graft_inv k n Hk) as [[-> ->]|[[-> ->]|[(Hk1 & Hk2 & Hb)|(Hk1 & Hk2 & Ht)]]].
    + by eapply Hp.
    + cbn in Hpred. injection Hpred as <-. eauto.
    + destruct (Hpaths _ _ Hb Hk2) as (p' & y & Hp' & ->). exists y. congruence.
    + by eapply Hp.
  - intros k n Hk Hpred.
    destruct (graft_inv k n Hk) as [[-> ->]|[[-> ->]|[(Hk1 & Hk2 & Hb)|(Hk1 & Hk2 & Ht)]]].
    + by eapply Hroot.
    + done.
    + destruct (Hpaths _ _ Hb Hk2) as (p' & y & Hp' & _). congruence.
    + by eapply Hroot.
  - destruct Htop as [n0 Hn0]. destruct (decide (nid = [])) as [Heq|Hn].
    + rewrite <- Heq, graft_nid. by eexists.
    + rewrite (graft_t [] n0); [by eexists|done|congruence].
Qed.

Lemma graft_dom k : is_Some (m3 !! k) <-> is_Some (br !! k) \/ is_Some (t !! k).
Proof.
  split.
  - intros [n Hk].
    destruct (graft_inv k n Hk) as [[-> ->]|[[-> ->]|[(Hk1 & Hk2 & Hb)|(Hk1 & Hk2 & Ht)]]];
      eauto.
  - intros [[n Hb]|[n Ht]].
    + destruct (decide (k = r)) as [->|Hkr]; [rewrite graft_r; by eexists|].
      rewrite (graft_br k n); [by eexists|done..].
    + destruct (decide (k = nid)) as [->|Hkn]; [rewrite graft_nid; by eexists|].
      rewrite (graft_t k n); [by eexists|done..].
Qed.

End graft.

Lemma paste_graft t nid br t' r rn x :
  wf (treelib.nodes t) -> links_ok (treelib.nodes br) ->
  treelib.root br = Some r -> treelib.nodes br !! r = Some rn ->
  treelib.predecessor rn = None ->
  (forall k n, treelib.nodes br !! k = Some n -> k <> r ->
     exists p y, treelib.predecessor n = Some p /\ k = (p ++ [y])%list) ->
  r = (nid ++ [x])%list ->
  treelib.paste t nid br = Ok t' ->
  wf (treelib.nodes t') /\
  forall k, is_Some (treelib.nodes t' !! k) <->
            is_Some (treelib.nodes br !! k) \/ is_Some (treelib.nodes t !! k).
Proof.
  intros Hwf Hbr Hroot Hrn Hpred Hpaths Hr H. unfold treelib.paste in H.
  rewrite Hroot in H. unfold treelib.contains in H.
  destruct (treelib.nodes t !! nid) as [pn|] eqn:Hpn.
  2:{ rewrite bool_decide_eq_false_2 in H; [done|]. by intros [? ?]. }
  rewrite bool_decide_eq_true_2 in H by (by eexists). cbn [negb] in H.
  destruct (bool_decide (treelib.nodes br ##ₘ treelib.nodes t)) eqn:Hd; [|done].
  apply bool_decide_eq_true_1 in Hd.
  assert (forall k, is_Some (treelib.nodes br !! k) -> treelib.nodes t !! k = None) as Hdisj.
  { intros k [n Hk]. by eapply map_disjoint_Some_l. }
  assert (nid <> r) as Hne.
  { intros Heq. apply (f_equal length) in Heq. rewrite Hr, length_app in Heq.
    simpl in Heq. lia. }
  unfold treelib.getitem in H at 1.
  rewrite (lookup_union_Some_l _ _ _ _ Hrn) in H. cbn [rbind] in H.
  unfold treelib.getitem in H. rewrite lookup_insert_ne in H by done.
  assert (treelib.nodes br !! nid = None) as Hbn.
  { destruct (treelib.nodes br !! nid) eqn:Hn; [|done].
    rewrite Hdisj in Hpn; [done|]. by eexists. }
  rewrite lookup_union_r in H by done. rewrite Hpn in H. cbn [rbind] in H.
  injection H as <-. cbn [treelib.nodes].
  assert (forall k,
    <[nid := treelib.set_successors (treelib.successors pn ++ [r]) pn]>
      (<[r := treelib.set_predecessor (Some nid) rn]>
         (treelib.nodes br ∪ treelib.nodes t)) !! k =
    if decide (k = nid)
    then Some (treelib.set_successors (treelib.successors pn ++ [r]) pn)
    else if decide (k = r) then Some (treelib.set_predecessor (Some nid) rn)
    else match treelib.nodes br !! k with
         | Some n => Some n
         | None => treelib.nodes t !! k
         end) as Hm3.
  { intros k. destruct (decide (k = nid)) as [->|Hk1]; [by rewrite lookup_insert_eq|].
    rewrite lookup_insert_ne by done.
    destruct (decide (k = r)) as [->|Hk2]; [by rewrite lookup_insert_eq|].
    rewrite lookup_insert_ne by done. rewrite lookup_union.
    destruct (treelib.nodes br !! k), (treelib.nodes t !! k); done. }
  split.
  - by eapply (graft_wf (treelib.nodes t) (treelib.nodes br)).
  - intros k. by eapply (graft_dom (treelib.nodes t) (treelib.nodes br)).
Qed.

Lemma links_ok_singleton (k : Attribute.t) (d : option OptionData.t) :
  links_ok {[k := treelib.mkNode k d None []]}.
Proof.
  split.
  - intros k' n c [<- <-]%lookup_singleton_Some Hc. cbn in Hc. by apply elem_of_nil in Hc.
  - intros k' n [<- <-]%lookup_singleton_Some. cbn. apply NoDup_nil_2.
  - by intros k' n p [<- <-]%lookup_singleton_Some.
  - by intros k' n p [<- <-]%lookup_singleton_Some.
  - by intros k' n [<- <-]%lookup_singleton_Some.
Qed.

Lemma create_node_graft t (pid : Attribute.t) (x : string) d t' :
  wf (treelib.nodes t) ->
  treelib.create_node t (pid ++ [x])%list (pid ++ [x])%list (Some pid) d = Ok t' ->
  wf (treelib.nodes t') /\ is_Some (treelib.nodes t' !! (pid ++ [x])%list).
Proof.
  intros Hwf H. unfold treelib.create_node, treelib.add_node, treelib.contains in H.
  destruct (treelib.nodes t !! (pid ++ [x])%list) as [?|] eqn:Hc.
  { rewrite bool_decide_eq_true_2 in H; [done|]. by eexists. }
  rewrite bool_decide_eq_false_2 in H by (by intros [? ?]).
  destruct (treelib.nodes t !! pid) as [pn|] eqn:Hpn; [|done].
  injection H as <-. cbn [treelib.nodes treelib.set_predecessor treelib.tag treelib.data
                          treelib.successors].
  assert (pid <> (pid ++ [x])%list) as Hne.
  { intros Heq. apply (f_equal length) in Heq. rewrite length_app in Heq.
    simpl in Heq. lia. }
  split; [|rewrite lookup_insert_eq; by eexists].
  eapply (graft_wf (treelib.nodes t) {[(pid ++ [x])%list := treelib.mkNode (pid ++ [x])%list d None []]}
            _ pid (pid ++ [x])%list pn (treelib.mkNode (pid ++ [x])%list d None []) x); try done.
  - apply links_ok_singleton.
  - apply lookup_singleton_eq.
  - intros k [n [<- _]%lookup_singleton_Some]. done.
  - intros k n [<- _]%lookup_singleton_Some. done.
  - intros k. destruct (decide (k = pid)) as [->|Hk1].
    + rewrite lookup_insert_ne by done. by rewrite lookup_insert_eq.
    + destruct (decide (k = (pid ++ [x])%list)) as [->|Hk2]; [by rewrite lookup_insert_eq|].
      rewrite !lookup_insert_ne by done. by rewrite lookup_singleton_ne.
Qed.

Lemma wf_same_links m m' :
  wf m -> (forall k, option_Forall2 same_links (m !! k) (m' !! k)) -> wf m'.
Proof.
  intros [Hl Hp Hroot Htop] Hsame.
  assert (forall k n', m' !! k = Some n' -> exists n, m !! k = Some n /\ same_links n n') as Hback.
  { intros k n' Hk. specialize (Hsame k). rewrite Hk in Hsame. inversion Hsame; subst. eauto. }
  assert (forall k n, m !! k = Some n -> exists n', m' !! k = Some n' /\ same_links n n') as Hfwd.
  { intros k n Hk. specialize (Hsame k). rewrite Hk in Hsame. inversion Hsame; subst. eauto. }
  split; [split|..].
  - intros k n' c Hk Hc. destruct (Hback _ _ Hk) as (n & Hn & Ht & Hpr & Hs).
    rewrite Hs in Hc. destruct (links_succ _ Hl _ _ _ Hn Hc) as (cn & Hcn & Hpred).
    destruct (Hfwd _ _ Hcn) as (cn' & Hcn' & _ & Hpr' & _). exists cn'. split; [done|].
    congruence.
  - intros k n' Hk. destruct (Hback _ _ Hk) as (n & Hn & Ht & Hpr & Hs).
    rewrite Hs. by eapply (links_nodup _ Hl).
  - intros k n' p Hk Hpred. destruct (Hback _ _ Hk) as (n & Hn & Ht & Hpr & Hs).
    rewrite Hpr in Hpred. destruct (links_pred _ Hl _ _ _ Hn Hpred) as (qn & Hq & Hin).
    destruct (Hfwd _ _ Hq) as (qn' & Hq' & _ & _ & Hs'). exists qn'. split; [done|].
    by rewrite Hs'.
  - intros k n' p Hk Hpred. destruct (Hback _ _ Hk) as (n & Hn & Ht & Hpr & Hs).
    rewrite Hpr in Hpred. by eapply (links_len _ Hl).
  - intros k n' Hk. destruct (Hback _ _ Hk) as (n & Hn & Ht & Hpr & Hs).
    rewrite Ht. by eapply (links_tag _ Hl).
  - intros k n' p Hk Hpred. destruct (Hback _ _ Hk) as (n & Hn & Ht & Hpr & Hs).
    rewrite Hpr in Hpred. by eapply Hp.
  - intros k n' Hk Hpred. destruct (Hback _ _ Hk) as (n & Hn & Ht & Hpr & Hs).
    rewrite Hpr in Hpred. by eapply Hroot.
  - destruct Htop as [n Hn]. destruct (Hfwd _ _ Hn) as (n' & Hn' & _). by eexists.
Qed.

Lemma update_node_data_wf t nid d t' :
  wf (treelib.nodes t) -> treelib.update_node_data t nid d = Ok t' -> wf (treelib.nodes t').
Proof.
  intros Hwf H. apply update_node_data_spec in H as (cn & Hcn & -> & _).
  eapply wf_same_links; [done|]. intros k.
  destruct (decide (k = nid)) as [->|Hne].
  - rewrite lookup_insert_eq, Hcn. by constructor.
  - rewrite lookup_insert_ne by done. destruct (treelib.nodes t !! k); by constructor.
Qed.

(** ** Insertion of a path *)

Lemma index_fresh x l : x ∉ l -> Attribute.index x (l ++ [x]) = Ok (length l).
Proof.
  induction l as [|s l IH]; intros Hx; cbn [Attribute.index app length].
  - by rewrite decide_True.
  - apply not_elem_of_cons in Hx as [Hne Hx]. rewrite decide_False by done.
    by rewrite (IH Hx).
Qed.

Lemma get_end_snoc (P : Attribute.t) (s : string) :
  Attribute.get_end (P ++ [s]) = Ok s.
Proof. unfold Attribute.get_end. by rewrite last_snoc. Qed.

Lemma get_set_snoc (P : Attribute.t) (s : string) : Attribute.get_set (P ++ [s]) = P.
Proof. unfold Attribute.get_set. apply removelast_last. Qed.

(** The branch made for a new child [P ++ [s]] of an attribute set: either
    a tree rooted at the child, with consistent links and every other node
    one segment below its parent, or (a template met below a placeholder of
    [P]) a tree without the child and without any path below it. *)
Lemma template_branch_wf fuel tr (P : Attribute.t) (s : string) br :
  wf (treelib.nodes tr) -> s <> name_placeholder ->
  OptionTree._get_attribute_set_template_branch fuel tr (P ++ [s]) = Ok br ->
  (links_ok (treelib.nodes br) /\ treelib.root br = Some (P ++ [s])%list /\
   (exists rn, treelib.nodes br !! (P ++ [s])%list = Some rn /\
               treelib.predecessor rn = None) /\
   (forall k n, treelib.nodes br !! k = Some n -> k <> (P ++ [s])%list ->
      exists p y, treelib.predecessor n = Some p /\ k = (p ++ [y])%list)) \/
  (forall ext, treelib.nodes br !! ((P ++ [s]) ++ ext)%list = None).
Proof.
  intros Hwf Hs H. unfold OptionTree._get_attribute_set_template_branch in H.
  rewrite get_set_snoc in H.
  apply rbind_Ok in H as (d0 & Hd0 & H). destruct d0 as [d|]; [|done].
  destruct (decide (OptionData._type d = VStr "attribute set of submodules")) as [Hty|Hty].
  - apply rbind_Ok in H as (st & Hst & H). unfold treelib.deep_copy in H.
    unfold Attribute.from_insertion in Hst.
    destruct (subtree_branch _ _ _ _ Hwf Hst) as [[Hbl [rn0 [Hrn0 Hrp]] Hbp Hbpaths _] Hroot].
    assert (is_Some (treelib.nodes st !! (P ++ [name_placeholder])%list)) as Hspec
      by (by eexists).
    destruct (decide (name_placeholder ∈ P)) as [Hin|Hnin].
    + right. destruct (index_elem _ _ Hin) as [j Hj].
      pose proof (index_lookup _ _ _ Hj) as HPj.
      pose proof (index_app _ _ [name_placeholder] _ Hj) as Hj'.
      destruct (rename_template _ _ _ _ _ _ Hbl Hbp Hspec Hroot (get_end_snoc P s) Hs Hj' H)
        as [Him _].
      intros ext. destruct (treelib.nodes br !! ((P ++ [s]) ++ ext)%list) as [n'|] eqn:Hk;
        [|done]. exfalso.
      apply Him in Hk as (k0 & n0 & Hk0 & Heq & _).
      destruct (Hbp k0) as [rest ->]; [by eexists|].
      pose proof (index_lookup _ _ _ (index_app _ _ rest _ Hj')) as Hk0j.
      apply (subst_at_lookup j s) in Hk0j. rewrite <- Heq in Hk0j.
      rewrite <- !app_assoc in Hk0j. rewrite (lookup_app_l_Some _ _ _ _ HPj) in Hk0j.
      congruence.
    + left. pose proof (index_fresh _ _ Hnin) as Hj.
      destruct (rename_template _ _ _ _ _ _ Hbl Hbp Hspec Hroot (get_end_snoc P s) Hs Hj H)
        as [Him Hr].
      assert (subst_at (length P) s (P ++ [name_placeholder]) = (P ++ [s])%list) as Hfspec.
      { unfold subst_at. rewrite insert_app_r_alt by lia. by rewrite Nat.sub_diag. }
      assert (forall k, is_Some (treelib.nodes st !! k) ->
                k !! length P = Some name_placeholder) as Hat.
      { intros k Hk. destruct (Hbp k Hk) as [rest ->].
        apply index_lookup. by apply index_app. }
      assert (forall k, is_Some (treelib.nodes st !! k) -> length P < length k) as Hlen.
      { intros k Hk. apply Hat in Hk. by eapply lookup_lt_Some. }
      rewrite Hfspec in Hr. split; [|split; [done|split]].
      * eapply links_ok_image; [exact Hbl|exact Him| |].
        -- intros x y Hx Hy. eapply subst_at_inj; by apply Hat.
        -- intros x _. apply length_insert.
      * exists (rename_node (subst_at (length P) s) rn0). split; [|by cbn; rewrite Hrp].
        apply Him. exists (P ++ [name_placeholder])%list, rn0. by rewrite Hfspec.
      * intros k' n' Hk' Hne. apply Him in Hk' as (k & n & Hk & -> & ->).
        destruct (Hbpaths k n Hk) as (p & y & Hp & ->); [by intros ->|].
        exists (subst_at (length P) s p), y. split; [by cbn; rewrite Hp|].
        unfold subst_at. apply insert_app_l. apply Hlen.
        destruct (links_pred _ Hbl _ _ _ Hk Hp) as (pn & Hpn & _). by eexists.
  - left. apply rbind_Ok in H as (ods & Hods & H). apply rbind_Ok in H as (ty & Hty' & H).
    unfold treelib.add_node, treelib.contains in H. cbn [treelib.nodes treelib.new] in H.
    rewrite bool_decide_eq_false_2 in H.
    2:{ rewrite lookup_empty. by intros [? ?]. }
    cbn in H. injection H as <-. cbn [treelib.nodes treelib.root].
    rewrite insert_empty. split; [apply links_ok_singleton|]. split; [done|]. split.
    + eexists. split; [apply lookup_singleton_eq|done].
    + intros k n [<- _]%lookup_singleton_Some. done.
Qed.

Lemma insert_segment_wf fuel tr (P : Attribute.t) (s : string) tr' child :
  wf (treelib.nodes tr) -> is_Some (treelib.nodes tr !! P) ->
  OptionTree.insert_segment fuel (tr, P) s = Ok (tr', child) ->
  child = (P ++ [s])%list /\
  ((wf (treelib.nodes tr') /\ is_Some (treelib.nodes tr' !! child)) \/
   (forall ext, treelib.nodes tr' !! (child ++ ext)%list = None)).
Proof.
  intros Hwf HP H. unfold OptionTree.insert_segment, Attribute.from_insertion in H.
  apply rbind_Ok in H as (tr1 & Htr1 & H). injection H as -> <-. split; [done|].
  unfold treelib.contains in Htr1.
  destruct (treelib.nodes tr !! (P ++ [s])%list) as [c|] eqn:Hc.
  { rewrite bool_decide_eq_true_2 in Htr1 by (by eexists). injection Htr1 as <-.
    left. split; [done|]. rewrite Hc. by eexists. }
  rewrite bool_decide_eq_false_2 in Htr1 by (by intros [? ?]).
  apply rbind_Ok in Htr1 as (is_set & His_set & Htr1).
  apply rbind_Ok in Htr1 as (from_template & Hft & Htr1).
  destruct from_template.
  - destruct is_set; [|done]. rewrite get_end_snoc in Hft. cbn [rbind] in Hft.
    injection Hft as Hs. apply bool_decide_eq_true_1 in Hs.
    apply rbind_Ok in Htr1 as (br & Hbr & Hpaste).
    destruct (template_branch_wf _ _ _ _ _ Hwf Hs Hbr)
      as [(Hl & Hroot & (rn & Hrn & Hrp) & Hpaths)|Hbad].
    + destruct (paste_graft _ _ _ _ _ _ s Hwf Hl Hroot Hrn Hrp Hpaths eq_refl Hpaste)
        as [Hwf' Hdom].
      left. split; [done|]. apply Hdom. left. by eexists.
    + right. intros ext.
      destruct (treelib.nodes tr' !! ((P ++ [s]) ++ ext)%list) as [n'|] eqn:Hk; [|done].
      exfalso. assert (is_Some (treelib.nodes tr !! ((P ++ [s]) ++ ext)%list)) as Hold.
      { destruct (paste_spec _ _ _ _ Hpaste) as [->|[_ Hsame]]; [by eexists|].
        specialize (Hsame ((P ++ [s]) ++ ext)%list). rewrite Hk in Hsame.
        inversion Hsame as [n0 ? _ Hn0|]; subst. symmetry in Hn0.
        apply lookup_union_Some_raw in Hn0 as [Hn0|[_ Hn0]]; [|by eexists].
        by rewrite Hbad in Hn0. }
      pose proof (wf_prefix_closed _ _ (P ++ [s])%list Hwf Hold) as Hpre.
      rewrite Hc in Hpre. destruct Hpre as [? ?]; [by apply prefix_app_r|done].
  - left. by apply (create_node_graft _ _ _ _ _ Hwf Htr1).
Qed.

Lemma insert_segments_wf fuel (l : list string) :
  forall tr (P : Attribute.t) st,
    wf (treelib.nodes tr) -> is_Some (treelib.nodes tr !! P) ->
    for_each (OptionTree.insert_segment fuel) l (tr, P) = Ok st ->
    st.2 = (P ++ l)%list /\
    ((wf (treelib.nodes st.1) /\ is_Some (treelib.nodes st.1 !! st.2)) \/
     (forall ext, treelib.nodes st.1 !! (st.2 ++ ext)%list = None)).
Proof.
  induction l as [|s l IH]; intros tr P st Hwf HP; cbn [for_each].
  - intros [= <-]. cbn [fst snd]. rewrite app_nil_r. split; [done|]. by left.
  - intros H. apply rbind_Ok in H as ([tr1 child] & Hstep & H).
    destruct (insert_segment_wf _ _ _ _ _ _ Hwf HP Hstep) as [-> [[Hwf1 Hc]|Hbad]].
    + destruct (IH _ _ _ Hwf1 Hc H) as [-> Hres]. split; [by rewrite <- app_assoc|].
      destruct Hres as [?|Hbad]; [by left|]. right. intros ext.
      specialize (Hbad ext). by rewrite <- app_assoc in *.
    + destruct l as [|s2 l]; cbn [for_each] in H.
      * injection H as <-. cbn [fst snd]. split; [done|]. by right.
      * exfalso. apply rbind_Ok in H as ([tr2 child2] & Hstep2 & _).
        unfold OptionTree.insert_segment, Attribute.from_insertion in Hstep2.
        apply rbind_Ok in Hstep2 as (tr3 & Htr3 & _). unfold treelib.contains in Htr3.
        rewrite bool_decide_eq_false_2 in Htr3.
        2:{ rewrite Hbad. by intros [? ?]. }
        apply rbind_Ok in Htr3 as (is_set & His_set & _).
        unfold OptionTree._is_attribute_set, OptionTree.node_data, treelib.get_node
          in His_set.
        specialize (Hbad []). rewrite app_nil_r in Hbad. by rewrite Hbad in His_set.
Qed.

Lemma upsert_wf fuel t option_path dict t' :
  wf (treelib.nodes t) ->
  OptionTree._upsert_node_data fuel t option_path dict = Ok t' ->
  wf (treelib.nodes t').
Proof.
  intros Hwf H. unfold OptionTree._upsert_node_data in H.
  apply rbind_Ok in H as (tr1 & Htr1 & H). apply rbind_Ok in H as (d & Hd & H).
  apply rbind_Ok in H as (od & _ & H).
  apply (update_node_data_wf _ _ _ _) in H; [done|].
  unfold treelib.get_node in Htr1.
  destruct (treelib.nodes t !! option_path) eqn:Hk; [by injection Htr1 as <-|].
  apply rbind_Ok in Htr1 as (st & Hst & Htr1). injection Htr1 as <-.
  destruct (insert_segments_wf _ _ _ _ _ Hwf (wf_top _ Hwf) Hst) as [Hp [[? _]|Hbad]];
    [done|]. exfalso. cbn [app] in Hp. rewrite Hp in Hbad.
  specialize (Hbad []). rewrite app_nil_r in Hbad.
  unfold OptionTree.node_data, treelib.get_node in Hd. by rewrite Hbad in Hd.
Qed.

Lemma init_wf str fuel system_option_data config_options s :
  OptionTree.__init__ str fuel system_option_data config_options = Ok s ->
  wf (treelib.nodes (OptionTree.tree s)).
Proof.
  intros H. unfold OptionTree.__init__ in H.
  apply rbind_Ok in H as (tr0 & Htr0 & H). apply rbind_Ok in H as (tr1 & Htr1 & H).
  apply rbind_Ok in H as (st & Hst & H). injection H as <-. cbn [OptionTree.tree].
  assert (wf (treelib.nodes tr0)) as Hwf0.
  { unfold treelib.create_node, treelib.add_node, treelib.contains in Htr0.
    cbn [treelib.nodes treelib.new] in Htr0.
    rewrite bool_decide_eq_false_2 in Htr0.
    2:{ rewrite lookup_empty. by intros [? ?]. }
    cbn in Htr0. injection Htr0 as <-. cbn [treelib.nodes]. rewrite insert_empty.
    split; [apply links_ok_singleton|..].
    - by intros k n p [<- <-]%lookup_singleton_Some.
    - by intros k n [<- _]%lookup_singleton_Some.
    - rewrite lookup_singleton_eq. by eexists. }
  assert (wf (treelib.nodes tr1)) as Hwf1.
  { revert Hwf0 Htr1. apply (for_each_inv (fun tr => wf (treelib.nodes tr))).
    intros acc x acc' _ Hacc Hx. by eapply upsert_wf. }
  revert Hst. apply (for_each_inv (fun st => wf (treelib.nodes st.1))); [|done].
  intros [tr c] [a v] [tr' c'] _ Hacc Hx. cbn [fst] in *.
  unfold OptionTree.load_config_option in Hx.
  destruct (treelib.get_node tr a); [|by injection Hx as <- _].
  apply rbind_Ok in Hx as (tr2 & Htr2 & Hx). injection Hx as <- _. by eapply upsert_wf.
Qed.

Lemma run_wf fuel c s s' :
  is_rename c = false -> wf (treelib.nodes (OptionTree.tree s)) ->
  run fuel c s = Ok s' -> wf (treelib.nodes (OptionTree.tree s')).
Proof.
  intros Hc Hwf H. destruct c as [a v|a|a b|flag]; [| | done|]; cbn [run] in H.
  - apply set_definition_spec in H as (tr & n & d & Hup & _ & _ & ->).
    cbn [OptionTree.tree]. by eapply upsert_wf.
  - unfold OptionTree.insert_attribute in H. apply rbind_Ok in H as (tr & Hup & H).
    injection H as <-. cbn. by eapply upsert_wf.
  - apply rbind_Ok in H as (r & Hr & H). injection H as <-.
    unfold OptionTree.get_change_set_with_ancestors in Hr.
    destruct (OptionTree.lru_find _ _ _); [by injection Hr as <-|].
    apply rbind_Ok in Hr as (r0 & _ & Hr). by injection Hr as <-.
Qed.

Lemma reachable_wf s :
  reachable_without_rename s -> wf (treelib.nodes (OptionTree.tree s)).
Proof.
  induction 1 as [str fuel sod co s Hinit|fuel c s s' _ IH Hc Hrun].
  - by eapply init_wf.
  - by eapply run_wf.
Qed.

(** ** The traversals return *)







(** ** What the traversals hand out *)


(** The children of a node are the registered paths one segment below it. *)
Lemma successors_paths m (a : Attribute.t) n (k : Attribute.t) :
  wf m -> m !! a = Some n ->
  k ∈ treelib.successors n <-> is_Some (m !! k) /\ exists x, k = (a ++ [x])%list.
Proof.
  intros [Hl Hp Hroot _] Hn. split.
  - intros Hk. destruct (links_succ _ Hl _ _ _ Hn Hk) as (cn & Hcn & Hpred).
    split; [by eexists|]. by eapply Hp.
  - intros [[cn Hcn] [x ->]].
    destruct (treelib.predecessor cn) as [p|] eqn:Hpred.
    + destruct (Hp _ _ _ Hcn Hpred) as [y Hy]. apply app_inj_tail in Hy as [<- _].
      destruct (links_pred _ Hl _ _ _ Hcn Hpred) as (pn & Hpn & Hin). congruence.
    + apply (Hroot _ _ Hcn) in Hpred. by destruct a.
Qed.


Lemma expand_tree_below fuel t (a : Attribute.t) ids :
  wf (treelib.nodes t) -> treelib.expand_tree fuel t a = Ok ids ->
  forall k, k ∈ ids <-> is_Some (treelib.nodes t !! k) /\ a `prefix_of` k.
Proof.
  intros Hwf H k. pose proof (expand_tree_prefix _ _ _ _ Hwf H) as Hprefix.
  apply expand_tree_spec in H as (Hnid & Hfrom & Hclosed). split.
  - intros Hk. split; [by apply Hfrom|by apply Hprefix].
  - intros [Hk [ext ->]]. revert Hk.
    induction ext as [|x ext IH] using rev_ind; intros Hk; [by rewrite app_nil_r|].
    rewrite app_assoc in Hk |- *. destruct Hk as [cn Hcn].
    assert (is_Some (treelib.nodes t !! (a ++ ext)%list)) as [pn Hpn].
    { eapply wf_prefix_closed; [done|by eexists|]. by apply prefix_app_r. }
    eapply Hclosed; [apply IH; by eexists|exact Hpn|].
    apply (successors_paths _ _ _ _ Hwf Hpn). split; [by eexists|by exists x].
Qed.


(** ** Navigation *)






(** Why the states of C5 are those reached without [rename_attribute]: a
    rename onto the name of a sibling registers the node over the sibling,
    and the parent lists the name twice; after a second rename the parent
    lists a name that is not registered, and [children] fails for the
    parent, which has a node. *)
Lemma children_after_colliding_renames :
  reachable Sample.w2 /\
  (exists n, treelib.get_node (OptionTree.tree Sample.w2) [] = Some n /\
             treelib.successors n = [["c"]; ["b"]]) /\
  treelib.get_node (OptionTree.tree Sample.w2) ["b"] = None /\
  OptionTree.children 3 (OptionTree.tree Sample.w2) [] "direct" = Raise NameError /\
  OptionTree.children 3 (OptionTree.tree Sample.w2) [] "leaves" = Raise NameError.
Proof.
  split.
  - apply (reachable_call 2 (Rename_attribute ["b"] ["c"]) Sample.w1);
      [|vm_compute; reflexivity].
    apply (reachable_call 2 (Rename_attribute ["a"] ["b"]) Sample.w0);
      [|vm_compute; reflexivity].
    apply (reachable_init Sample.str 1 Sample.sibling_option_data []).
    vm_compute. reflexivity.
  - split; [eexists; split; vm_compute; reflexivity|].
    repeat split; vm_compute; reflexivity.
Qed.


(** C6, on the code.  In the sample the root has the single child [a], [a]
    the single child [a.b], and [a.b] the single child [a.b.c], which has no
    child: the claim has [get_next_branching_option] return [a.b.c] from
    the root.  The call raises KeyError instead, as it does whenever the
    attribute has exactly one child. *)
Theorem get_next_branching_option_single_child :
  (exists d, OptionTree.children 3 (OptionTree.tree Sample.s0) [] "direct" = Ok d /\
     dom d = {[ ["a"] ]}) /\
  OptionTree.get_next_branching_option 3 (OptionTree.tree Sample.s0) [] = Raise KeyError /\
  OptionTree.get_next_branching_option 3 (OptionTree.tree Sample.s0) ["a"; "b"; "c"]
    = Ok ["a"; "b"; "c"].
Proof.
  split; [|split].
  - eexists. split; [vm_compute; reflexivity|]. by vm_compute.
  - vm_compute. reflexivity.
  - vm_compute. reflexivity.
Qed.

(** In a reachable state [iter_attributes] and [iter_attribute_data] yield
    no attribute that has the placeholder among its segments. *)
Lemma iter_attribute_data_no_placeholder s x :
  reachable s -> x ∈ OptionTree.iter_attribute_data (OptionTree.tree s) ->
  name_placeholder ∉ x.1.
Proof.
  intros Hreach Hx. apply reachable_tree_ok in Hreach.
  unfold OptionTree.iter_attribute_data, treelib.all_nodes in Hx.
  apply list_elem_of_omap in Hx as ([k n] & Hin & Hsome).
  apply elem_of_map_to_list in Hin. destruct (Hreach k n Hin) as [Htag _].
  simpl in Hsome. rewrite Htag in Hsome.
  unfold Attribute.contains in Hsome. case_bool_decide as Hc; simpl in Hsome; [done|].
  by injection Hsome as <-.
Qed.

Lemma iter_attributes_no_placeholder s a :
  reachable s -> a ∈ OptionTree.iter_attributes (OptionTree.tree s) ->
  name_placeholder ∉ a.
Proof.
  intros Hreach Ha. unfold OptionTree.iter_attributes in Ha.
  apply list_elem_of_fmap in Ha as (x & -> & Hx).
  by eapply iter_attribute_data_no_placeholder.
Qed.

(** C7, on the code.  The sample has the attribute set of submodules [a]
    and its template [a.<name>]: [iter_attributes] leaves the template
    out, and [children] of [a] has an entry for it, because it looks for
    the placeholder written between quotes among the segments. *)
Theorem children_yields_template_child :
  reachable Sample.t0 /\
  (exists d, OptionTree.children 1 (OptionTree.tree Sample.t0) ["a"] "direct" = Ok d /\
     is_Some (d !! ["a"; name_placeholder])) /\
  ["a"; name_placeholder] ∉ OptionTree.iter_attributes (OptionTree.tree Sample.t0).
Proof.
  split; [eapply reachable_init; exact sample_t0_init|]. split.
  - eexists. split; [vm_compute; reflexivity|]. vm_compute. by eexists.
  - intros Hin. eapply iter_attributes_no_placeholder in Hin.
    + apply Hin. unfold name_placeholder. set_solver.
    + eapply reachable_init. exact sample_t0_init.
Qed.

(** ** Updating a record *)

Lemma setattr_getattr_other self k v f :
  f ∈ OptionData.field_names -> k <> f ->
  OptionData.getattr (OptionData.setattr self k v) f = OptionData.getattr self f.
Proof.
  unfold OptionData.field_names. rewrite !elem_of_cons, elem_of_nil.
  intros Hf Hk. unfold OptionData.setattr.
  repeat (case_decide; [subst k; destruct Hf as [->|[->|[->|[->|[->|[->|[]]]]]]];
                        first [done|reflexivity]|]).
  destruct Hf as [->|[->|[->|[->|[->|[->|[]]]]]]]; reflexivity.
Qed.



Lemma update_item_getattr_other self k v f :
  f ∈ OptionData.field_names -> k <> f -> "_" +:+ k <> f ->
  OptionData.getattr (OptionData.update_item self (k, v)) f = OptionData.getattr self f.
Proof.
  intros Hf Hk Hk'. unfold OptionData.update_item.
  destruct (OptionData.hasattr self k); [by apply setattr_getattr_other|].
  destruct (OptionData.hasattr self ("_" +:+ k)); [by apply setattr_getattr_other|done].
Qed.

Lemma update_getattr_other self new f :
  f ∈ OptionData.field_names ->
  (forall k, k ∈ new.*1 -> k <> f /\ "_" +:+ k <> f) ->
  OptionData.getattr (OptionData.update self new) f = OptionData.getattr self f.
Proof.
  intros Hf. unfold OptionData.update. revert self.
  induction new as [|[k v] new IH]; intros self Hkeys; cbn [foldl]; [done|].
  rewrite IH.
  - destruct (Hkeys k) as [? ?]; [by left|]. by apply update_item_getattr_other.
  - intros k' Hk'. apply Hkeys. by right.
Qed.




(** ** Records keep their methods

    The hypothesis of C8 on the method [update] holds in every state that is
    reached from metadata whose keys are no method names. *)

Lemma setattr_field_instance_attrs self f v :
  f ∈ OptionData.field_names ->
  OptionData.instance_attrs (OptionData.setattr self f v) = OptionData.instance_attrs self.
Proof.
  unfold OptionData.field_names. rewrite !elem_of_cons, elem_of_nil.
  intros [->|[->|[->|[->|[->|[->|[]]]]]]]; reflexivity.
Qed.

Lemma update_keeps_methods d dict :
  (forall k, k ∈ dict.*1 -> k ∉ OptionData.method_names) ->
  OptionData.instance_attrs d = [] ->
  OptionData.instance_attrs (OptionData.update d dict) = [].
Proof.
  unfold OptionData.update. revert d.
  induction dict as [|[k v] dict IH]; intros d Hkeys Hd; cbn [foldl]; [done|].
  apply IH; [intros k' Hk'; apply Hkeys; by right|].
  assert (k ∉ OptionData.method_names) as Hk by (apply Hkeys; by left).
  assert (forall k0, k0 ∉ OptionData.method_names ->
            OptionData.hasattr d k0 = true -> k0 ∈ OptionData.field_names) as Hfield.
  { intros k0 Hk0. unfold OptionData.hasattr. rewrite Hd. simpl.
    rewrite !orb_true_iff, !bool_decide_eq_true.
    intros [[?|?]|?]; done. }
  assert ("_" +:+ k ∉ OptionData.method_names) as Hk'.
  { unfold OptionData.method_names. rewrite !elem_of_cons, elem_of_nil.
    intros [?|[?|[]]]; discriminate. }
  unfold OptionData.update_item.
  destruct (OptionData.hasattr d k) eqn:Hh.
  - rewrite setattr_field_instance_attrs; [done|by apply Hfield].
  - destruct (OptionData.hasattr d ("_" +:+ k)) eqn:Hh'; [|done].
    rewrite setattr_field_instance_attrs; [done|by apply Hfield].
Qed.

Lemma closed_under_cloning_methods :
  closed_under_cloning (fun d => OptionData.instance_attrs d = []).
Proof. split; [reflexivity|]. intros d v _. reflexivity. Qed.

Lemma records_keep_methods_init str fuel system_option_data config_options s :
  (forall item k, item ∈ system_option_data -> k ∈ item.2.*1 ->
     k ∉ OptionData.method_names) ->
  OptionTree.__init__ str fuel system_option_data config_options = Ok s ->
  tree_ok (fun d => OptionData.instance_attrs d = []) (treelib.nodes (OptionTree.tree s)).
Proof.
  intros Hkeys. apply init_tree_ok; [apply closed_under_cloning_methods| |].
  - intros item d Hitem. apply update_keeps_methods. intros k. by apply Hkeys.
  - intros item d _ Hd. by rewrite update_configured.
Qed.

Lemma records_keep_methods_run fuel c s s' :
  tree_ok (fun d => OptionData.instance_attrs d = []) (treelib.nodes (OptionTree.tree s)) ->
  run fuel c s = Ok s' ->
  tree_ok (fun d => OptionData.instance_attrs d = []) (treelib.nodes (OptionTree.tree s')).
Proof.
  apply run_tree_ok; [apply closed_under_cloning_methods|].
  intros d v Hd. by rewrite update_in_memory.
Qed.

(** ** The properties at the sample *)

Lemma get_definition_precedence_witness :
  exists d, treelib.data Sample.node_abc = Some d /\
    OptionTree.get_definition (OptionTree.tree Sample.s1) ["a"; "b"; "c"] true true =
    Ok (if true && bool_decide (OptionData.in_memory_definition d <> undefined)
        then OptionData.in_memory_definition d
        else if true && bool_decide (OptionData.configured_definition d <> undefined)
        then OptionData.configured_definition d
        else if bool_decide (OptionData.system_default_definition d <> undefined)
        then OptionData.system_default_definition d
        else undefined).
Proof.
  apply (get_definition_precedence Sample.s1 ["a"; "b"; "c"] Sample.node_abc true true).
  - apply reachable_without_rename_reachable. exact sample_s1_reachable.
  - vm_compute. reflexivity.
Defined.


(** * Further properties of the methods *)

(** ** Inserting an attribute that is there *)

Lemma set_data_same n d : treelib.data n = Some d -> treelib.set_data (Some d) n = n.
Proof. destruct n. cbn. by intros ->. Qed.

(** X1.  [insert_attribute] of an attribute that has a node with a record
    leaves the object as it is; it fails with TypeError when the record has
    an instance attribute [update], which hides the method. *)
Theorem insert_attribute_of_existing fuel s a n d :
  treelib.get_node (OptionTree.tree s) a = Some n -> treelib.data n = Some d ->
  OptionTree.insert_attribute fuel s a =
    if bool_decide ("update" ∈ (OptionData.instance_attrs d).*1) then Raise TypeError
    else Ok s.
Proof.
  intros Hn Hd. unfold treelib.get_node in Hn. case_bool_decide as Hm.
  - unfold OptionTree.insert_attribute, OptionTree._upsert_node_data, treelib.get_node.
    rewrite Hn. cbn [rbind]. unfold OptionTree.node_data, treelib.get_node. rewrite Hn.
    cbn [rbind]. rewrite Hd. cbn [default].
    unfold OptionData.call_update, OptionData.call_method.
    by rewrite bool_decide_eq_true_2.
  - unfold OptionTree.insert_attribute.
    rewrite (upsert_existing_total fuel _ _ [] n d Hn Hd Hm). cbn [rbind].
    rewrite update_nil, (set_data_same _ _ Hd), insert_id by done.
    destruct s as [[m r] ? ? ? ? ?]. reflexivity.
Qed.

Lemma insert_attribute_of_existing_witness :
  OptionTree.insert_attribute 1 Sample.s1 ["a"; "b"; "c"] = Ok Sample.s1.
Proof.
  apply (insert_attribute_of_existing 1 Sample.s1 ["a"; "b"; "c"] Sample.node_abc
           Sample.data_abc); reflexivity.
Defined.

(** ** Writing and reading a definition *)

(** X2.  After a returning [set_definition(a, v)] the in-memory definition of
    [a] is [v]; [get_definition] returns [v] when [v] is a definition, and
    what it returns without the in-memory layer when [v] is the undefined
    sentinel; the layers below are those of the record [a] had. *)
Theorem set_definition_then_get fuel s a v s' :
  OptionTree.set_definition fuel s a v = Ok s' ->
  OptionTree.get_in_memory_definition (OptionTree.tree s') a = Ok v /\
  (forall cf, v <> undefined -> OptionTree.get_definition (OptionTree.tree s') a true cf = Ok v) /\
  (forall cf, v = undefined ->
     OptionTree.get_definition (OptionTree.tree s') a true cf
     = OptionTree.get_definition (OptionTree.tree s') a false cf) /\
  (forall d cf, OptionTree._get_data (OptionTree.tree s) a = Ok d ->
     OptionTree.get_definition (OptionTree.tree s') a false cf
     = OptionTree.get_definition (OptionTree.tree s) a false cf).
Proof.
  intros H. apply set_definition_spec in H as (tr & n & d' & Hup & Hn & Hd' & ->).
  cbn [OptionTree.tree].
  destruct (upsert_target _ _ _ _ _ Hup) as (n' & d0 & Hn' & Hd0).
  rewrite Hn in Hn'. injection Hn' as <-. rewrite Hd' in Hd0. injection Hd0 as ->.
  assert (OptionTree._get_data tr a = Ok (OptionData.update d0 [("in_memory_definition", v)]))
    as Hdata by (apply get_data_node; eauto).
  split; [|split; [|split]].
  - unfold OptionTree.get_in_memory_definition. rewrite Hdata. reflexivity.
  - intros cf Hv. rewrite (get_definition_chain _ _ _ true cf Hdata).
    rewrite update_in_memory. cbn. by rewrite bool_decide_eq_true_2.
  - intros cf ->. rewrite !(get_definition_chain _ _ _ _ cf Hdata).
    rewrite update_in_memory. cbn. by rewrite bool_decide_eq_false_2 by (by intros ?).
  - intros d cf Hd. pose proof (upsert_get_data _ _ _ _ _ _ _ Hup Hd) as Hd2.
    rewrite decide_True in Hd2 by done.
    rewrite (get_definition_chain _ _ _ false cf Hd2), (get_definition_chain _ _ _ false cf Hd).
    by rewrite update_in_memory.
Qed.

Lemma set_definition_then_get_witness :
  OptionTree.get_in_memory_definition (OptionTree.tree Sample.s1) ["a"; "b"; "c"]
    = Ok (Sample.one "2") /\
  (forall cf, Sample.one "2" <> undefined ->
     OptionTree.get_definition (OptionTree.tree Sample.s1) ["a"; "b"; "c"] true cf
     = Ok (Sample.one "2")) /\
  (forall cf, Sample.one "2" = undefined ->
     OptionTree.get_definition (OptionTree.tree Sample.s1) ["a"; "b"; "c"] true cf
     = OptionTree.get_definition (OptionTree.tree Sample.s1) ["a"; "b"; "c"] false cf) /\
  (forall d cf, OptionTree._get_data (OptionTree.tree Sample.s0) ["a"; "b"; "c"] = Ok d ->
     OptionTree.get_definition (OptionTree.tree Sample.s1) ["a"; "b"; "c"] false cf
     = OptionTree.get_definition (OptionTree.tree Sample.s0) ["a"; "b"; "c"] false cf).
Proof.
  apply (set_definition_then_get 1 Sample.s0 ["a"; "b"; "c"] (Sample.one "2") Sample.s1).
  exact sample_s1_set.
Defined.

(** ** What a call leaves alone *)

(** X3.  A returning [set_definition], [insert_attribute] or
    [get_change_set_with_ancestors] keeps every attribute that has a record,
    with its record: only [set_definition(a, v)] changes a record, that of
    [a], and there the in-memory definition only. *)
Theorem calls_keep_the_records fuel c s s' b d :
  is_rename c = false -> run fuel c s = Ok s' ->
  OptionTree._get_data (OptionTree.tree s) b = Ok d ->
  OptionTree._get_data (OptionTree.tree s') b =
    Ok (match c with
        | Set_definition a v =>
            if decide (b = a)
            then OptionData.mk (OptionData.description d) (OptionData.readOnly d)
                   (OptionData._type d) (OptionData.system_default_definition d)
                   (OptionData.configured_definition d) v (OptionData.instance_attrs d)
            else d
        | _ => d
        end).
Proof.
  intros Hc H Hd. destruct c as [a v|a|a a'|flag]; [| |done|]; cbn [run] in H.
  - apply set_definition_spec in H as (tr & n & d' & Hup & _ & _ & ->).
    cbn [OptionTree.tree]. rewrite (upsert_get_data _ _ _ _ _ _ _ Hup Hd).
    by rewrite update_in_memory.
  - unfold OptionTree.insert_attribute in H. apply rbind_Ok in H as (tr & Hup & H).
    injection H as <-. cbn. rewrite (upsert_get_data _ _ _ _ _ _ _ Hup Hd).
    rewrite update_nil. by case_decide.
  - apply rbind_Ok in H as (r & Hr & H). injection H as <-.
    unfold OptionTree.get_change_set_with_ancestors in Hr.
    destruct (OptionTree.lru_find _ _ _); [by injection Hr as <-|].
    apply rbind_Ok in Hr as (r0 & _ & Hr). by injection Hr as <-.
Qed.

Lemma calls_keep_the_records_witness :
  OptionTree._get_data (OptionTree.tree Sample.s2) ["a"; "b"; "c"] = Ok Sample.data_abc.
Proof.
  apply (calls_keep_the_records 1 (Set_definition ["a"; "b"] (Sample.one "3"))
           Sample.s1 Sample.s2 ["a"; "b"; "c"] Sample.data_abc).
  - reflexivity.
  - exact sample_s2_set.
  - reflexivity.
Defined.

(** ** Enumeration of the attributes *)

Lemma omap_fst_sublist {A B} (f : Attribute.t * A -> option (Attribute.t * B))
    (l : list (Attribute.t * A)) :
  (forall x y, f x = Some y -> y.1 = x.1) -> (omap f l).*1 `sublist_of` l.*1.
Proof.
  intros Hf. induction l as [|x l IH]; cbn [omap list_omap fmap list_fmap]; [done|].
  destruct (f x) as [y|] eqn:Hy.
  - cbn [fmap list_fmap]. rewrite (Hf _ _ Hy). by apply sublist_skip.
  - by apply sublist_cons.
Qed.

(** X4.  In a reachable state [iter_attribute_data] yields the registered nodes
    whose path has no placeholder segment, each with its record, and
    [iter_attributes] yields each of these paths once. *)
Theorem iter_attributes_exact s :
  reachable s ->
  (forall a od, (a, od) ∈ OptionTree.iter_attribute_data (OptionTree.tree s) <->
     (name_placeholder ∉ a) /\
     exists n, treelib.get_node (OptionTree.tree s) a = Some n /\ od = treelib.data n) /\
  (forall a, a ∈ OptionTree.iter_attributes (OptionTree.tree s) <->
     (name_placeholder ∉ a) /\ is_Some (treelib.get_node (OptionTree.tree s) a)) /\
  NoDup (OptionTree.iter_attributes (OptionTree.tree s)).
Proof.
  intros Hreach. pose proof (reachable_tree_ok s Hreach) as Hok.
  assert (forall a od, (a, od) ∈ OptionTree.iter_attribute_data (OptionTree.tree s) <->
     (name_placeholder ∉ a) /\
     exists n, treelib.get_node (OptionTree.tree s) a = Some n /\ od = treelib.data n) as Hdata.
  { intros a od. unfold OptionTree.iter_attribute_data, treelib.all_nodes, treelib.get_node.
    rewrite list_elem_of_omap. split.
    - intros ([k n] & Hx & Hf). apply elem_of_map_to_list in Hx.
      destruct (Hok k n Hx) as [Htag _]. cbn [fst snd] in Hf. rewrite Htag in Hf.
      unfold Attribute.contains in Hf. case_bool_decide as Hin; [done|].
      cbn in Hf. injection Hf as <- <-. eauto.
    - intros (Hin & n & Hn & ->). exists (a, n). split; [by apply elem_of_map_to_list|].
      destruct (Hok a n Hn) as [Htag _]. cbn [fst snd]. rewrite Htag.
      unfold Attribute.contains. by rewrite bool_decide_eq_false_2. }
  split; [done|]. split.
  - intros a. unfold OptionTree.iter_attributes. rewrite list_elem_of_fmap. split.
    + intros ([a' od] & -> & Hx). apply Hdata in Hx as (Hin & n & Hn & _).
      cbn [fst]. split; [done|by eexists].
    + intros (Hin & n & Hn). exists (a, treelib.data n). split; [done|]. apply Hdata. eauto.
  - unfold OptionTree.iter_attributes, OptionTree.iter_attribute_data, treelib.all_nodes.
    apply (sublist_NoDup _ (map_to_list (treelib.nodes (OptionTree.tree s))).*1);
      [apply NoDup_fst_map_to_list|].
    apply omap_fst_sublist. intros [k n] y. cbn [fst snd].
    destruct (negb _); [by intros [= <-]|done].
Qed.

Lemma iter_attributes_exact_witness :
  (forall a od, (a, od) ∈ OptionTree.iter_attribute_data (OptionTree.tree Sample.t0) <->
     (name_placeholder ∉ a) /\
     exists n, treelib.get_node (OptionTree.tree Sample.t0) a = Some n /\
               od = treelib.data n) /\
  (forall a, a ∈ OptionTree.iter_attributes (OptionTree.tree Sample.t0) <->
     (name_placeholder ∉ a) /\ is_Some (treelib.get_node (OptionTree.tree Sample.t0) a)) /\
  NoDup (OptionTree.iter_attributes (OptionTree.tree Sample.t0)).
Proof.
  apply (iter_attributes_exact Sample.t0).
  apply (reachable_init Sample.str 1 Sample.template_option_data []). exact sample_t0_init.
Defined.

(** ** The accessors *)

(** X5.  The accessors and [get_definition] fail with AttributeError for an
    attribute that has no node.  In a reachable state every node has a
    record, so that they return its fields for an attribute that has a node
    (the ValueError of [_get_data] is never raised), among them every
    attribute that [iter_attributes] yields. *)
Theorem accessors_return_for_nodes s :
  reachable s ->
  (forall a, treelib.get_node (OptionTree.tree s) a = None ->
     OptionTree._get_data (OptionTree.tree s) a = Raise AttributeError /\
     OptionTree.get_type (OptionTree.tree s) a = Raise AttributeError /\
     OptionTree.get_description (OptionTree.tree s) a = Raise AttributeError /\
     OptionTree.is_readonly (OptionTree.tree s) a = Raise AttributeError /\
     OptionTree.get_in_memory_definition (OptionTree.tree s) a = Raise AttributeError /\
     OptionTree.get_configured_definition (OptionTree.tree s) a = Raise AttributeError /\
     OptionTree.get_system_default_definition (OptionTree.tree s) a = Raise AttributeError /\
     forall im cf, OptionTree.get_definition (OptionTree.tree s) a im cf
                   = Raise AttributeError) /\
  (forall a n, treelib.get_node (OptionTree.tree s) a = Some n ->
     exists d, treelib.data n = Some d /\
       OptionTree._get_data (OptionTree.tree s) a = Ok d /\
       OptionTree.get_type (OptionTree.tree s) a = Ok (OptionData._type d) /\
       OptionTree.get_description (OptionTree.tree s) a = Ok (OptionData.description d) /\
       OptionTree.is_readonly (OptionTree.tree s) a = Ok (OptionData.readOnly d) /\
       OptionTree.get_in_memory_definition (OptionTree.tree s) a
         = Ok (OptionData.in_memory_definition d) /\
       OptionTree.get_configured_definition (OptionTree.tree s) a
         = Ok (OptionData.configured_definition d) /\
       OptionTree.get_system_default_definition (OptionTree.tree s) a
         = Ok (OptionData.system_default_definition d)) /\
  (forall a, a ∈ OptionTree.iter_attributes (OptionTree.tree s) ->
     exists v, OptionTree.get_type (OptionTree.tree s) a = Ok v).
Proof.
  intros Hreach.
  assert (forall a n, treelib.get_node (OptionTree.tree s) a = Some n ->
            exists d, treelib.data n = Some d /\
                      OptionTree._get_data (OptionTree.tree s) a = Ok d) as Hsome.
  { intros a n Hn. destruct (reachable_tree_ok s Hreach a n Hn) as (_ & d & Hd & _).
    exists d. split; [done|]. apply get_data_node. eauto. }
  split; [|split].
  - intros a Hn.
    assert (OptionTree._get_data (OptionTree.tree s) a = Raise AttributeError) as Hdata.
    { unfold OptionTree._get_data, OptionTree.node_data. by rewrite Hn. }
    unfold OptionTree.get_type, OptionTree.get_description, OptionTree.is_readonly.
    assert (OptionTree.get_in_memory_definition (OptionTree.tree s) a = Raise AttributeError)
      as Him by (unfold OptionTree.get_in_memory_definition; by rewrite Hdata).
    assert (OptionTree.get_configured_definition (OptionTree.tree s) a = Raise AttributeError)
      as Hcf by (unfold OptionTree.get_configured_definition; by rewrite Hdata).
    assert (OptionTree.get_system_default_definition (OptionTree.tree s) a
            = Raise AttributeError)
      as Hsd by (unfold OptionTree.get_system_default_definition; by rewrite Hdata).
    rewrite Hdata. repeat split; try done.
    intros im cf. unfold OptionTree.get_definition. rewrite Him, Hcf, Hsd.
    by destruct im, cf.
  - intros a n Hn. destruct (Hsome a n Hn) as (d & Hd & Hdata). exists d.
    unfold OptionTree.get_type, OptionTree.get_description, OptionTree.is_readonly,
      OptionTree.get_in_memory_definition, OptionTree.get_configured_definition,
      OptionTree.get_system_default_definition. rewrite Hdata. by repeat split.
  - intros a Hin. unfold OptionTree.iter_attributes in Hin.
    apply list_elem_of_fmap in Hin as ([a' od] & -> & Hx).
    unfold OptionTree.iter_attribute_data in Hx. apply list_elem_of_omap in Hx as ([k n] & Hx & Hf).
    apply elem_of_map_to_list in Hx. cbn [fst snd] in Hf.
    destruct (negb _); [|done]. injection Hf as <- <-. cbn [fst].
    destruct (Hsome k n Hx) as (d & _ & Hdata). exists (OptionData._type d).
    unfold OptionTree.get_type. by rewrite Hdata.
Qed.

Lemma accessors_return_for_nodes_witness :
  (forall a, treelib.get_node (OptionTree.tree Sample.s0) a = None ->
     OptionTree._get_data (OptionTree.tree Sample.s0) a = Raise AttributeError /\
     OptionTree.get_type (OptionTree.tree Sample.s0) a = Raise AttributeError /\
     OptionTree.get_description (OptionTree.tree Sample.s0) a = Raise AttributeError /\
     OptionTree.is_readonly (OptionTree.tree Sample.s0) a = Raise AttributeError /\
     OptionTree.get_in_memory_definition (OptionTree.tree Sample.s0) a = Raise AttributeError /\
     OptionTree.get_configured_definition (OptionTree.tree Sample.s0) a = Raise AttributeError /\
     OptionTree.get_system_default_definition (OptionTree.tree Sample.s0) a = Raise AttributeError /\
     forall im cf, OptionTree.get_definition (OptionTree.tree Sample.s0) a im cf
                   = Raise AttributeError) /\
  (forall a n, treelib.get_node (OptionTree.tree Sample.s0) a = Some n ->
     exists d, treelib.data n = Some d /\
       OptionTree._get_data (OptionTree.tree Sample.s0) a = Ok d /\
       OptionTree.get_type (OptionTree.tree Sample.s0) a = Ok (OptionData._type d) /\
       OptionTree.get_description (OptionTree.tree Sample.s0) a = Ok (OptionData.description d) /\
       OptionTree.is_readonly (OptionTree.tree Sample.s0) a = Ok (OptionData.readOnly d) /\
       OptionTree.get_in_memory_definition (OptionTree.tree Sample.s0) a
         = Ok (OptionData.in_memory_definition d) /\
       OptionTree.get_configured_definition (OptionTree.tree Sample.s0) a
         = Ok (OptionData.configured_definition d) /\
       OptionTree.get_system_default_definition (OptionTree.tree Sample.s0) a
         = Ok (OptionData.system_default_definition d)) /\
  (forall a, a ∈ OptionTree.iter_attributes (OptionTree.tree Sample.s0) ->
     exists v, OptionTree.get_type (OptionTree.tree Sample.s0) a = Ok v).
Proof.
  apply (accessors_return_for_nodes Sample.s0).
  apply reachable_without_rename_reachable. exact sample_s0_reachable.
Defined.

(** ** The memo of the change set *)





(** ** The next branching option *)




(** ** The tree is a tree of paths *)



(** ** Construction from the metadata *)

Lemma update_item_documented d k v :
  OptionData.instance_attrs d = [] -> k ∈ documented_keys ->
  OptionData.instance_attrs (OptionData.update_item d (k, v)) = [] /\
  OptionData.in_memory_definition (OptionData.update_item d (k, v))
    = OptionData.in_memory_definition d /\
  OptionData.description (OptionData.update_item d (k, v))
    = (if decide (k = "description") then v else OptionData.description d) /\
  OptionData.readOnly (OptionData.update_item d (k, v))
    = (if decide (k = "readOnly") then v else OptionData.readOnly d) /\
  OptionData._type (OptionData.update_item d (k, v))
    = (if decide (k = "type") then v else OptionData._type d).
Proof.
  intros Hi Hk. unfold documented_keys in Hk.
  rewrite !elem_of_cons, elem_of_nil in Hk. destruct d. cbn in Hi. subst.
  destruct Hk as [->|[->|[->|[->|[]]]]]; by vm_compute.
Qed.

Lemma update_documented d dict :
  OptionData.instance_attrs d = [] -> NoDup dict.*1 ->
  (forall k, k ∈ dict.*1 -> k ∈ documented_keys) ->
  OptionData.instance_attrs (OptionData.update d dict) = [] /\
  OptionData.in_memory_definition (OptionData.update d dict)
    = OptionData.in_memory_definition d /\
  (forall v, ("description", v) ∈ dict -> OptionData.description (OptionData.update d dict) = v) /\
  (forall v, ("readOnly", v) ∈ dict -> OptionData.readOnly (OptionData.update d dict) = v) /\
  (forall v, ("type", v) ∈ dict -> OptionData._type (OptionData.update d dict) = v) /\
  ("description" ∉ dict.*1 ->
   OptionData.description (OptionData.update d dict) = OptionData.description d) /\
  ("readOnly" ∉ dict.*1 ->
   OptionData.readOnly (OptionData.update d dict) = OptionData.readOnly d) /\
  ("type" ∉ dict.*1 -> OptionData._type (OptionData.update d dict) = OptionData._type d).
Proof.
  unfold OptionData.update. revert d.
  induction dict as [|[k v] dict IH]; intros d Hi Hnd Hdoc; cbn [foldl].
  { repeat split; try done; by intros v ?%elem_of_nil. }
  rewrite fmap_cons in Hnd. apply NoDup_cons in Hnd as [Hk Hnd]. cbn [fst] in Hk.
  destruct (update_item_documented d k v Hi) as (Hi' & Him & Hde & Hro & Hty);
    [apply Hdoc; by left|].
  destruct (IH _ Hi' Hnd) as (Hi2 & Him2 & Hde2 & Hro2 & Hty2 & Hde3 & Hro3 & Hty3);
    [intros; apply Hdoc; by right|].
  rewrite fmap_cons. cbn [fst].
  split; [done|]. split; [congruence|].
  split; [|split; [|split; [|split; [|split]]]].
  - intros v' [[= <- <-]|Hin]%elem_of_cons; [|by apply Hde2].
    rewrite Hde3 by done. rewrite Hde. by rewrite decide_True.
  - intros v' [[= <- <-]|Hin]%elem_of_cons; [|by apply Hro2].
    rewrite Hro3 by done. rewrite Hro. by rewrite decide_True.
  - intros v' [[= <- <-]|Hin]%elem_of_cons; [|by apply Hty2].
    rewrite Hty3 by done. rewrite Hty. by rewrite decide_True.
  - intros [Hne Hnin]%not_elem_of_cons. rewrite Hde3 by done. rewrite Hde.
    by rewrite decide_False.
  - intros [Hne Hnin]%not_elem_of_cons. rewrite Hro3 by done. rewrite Hro.
    by rewrite decide_False.
  - intros [Hne Hnin]%not_elem_of_cons. rewrite Hty3 by done. rewrite Hty.
    by rewrite decide_False.
Qed.

Lemma upsert_loop_frame fuel (L : list (Attribute.t * list (string * value))) :
  forall t t' p d,
    (forall x, x ∈ L -> x.1 <> p) ->
    for_each (fun tr (item : Attribute.t * list (string * value)) =>
                OptionTree._upsert_node_data fuel tr item.1 item.2) L t = Ok t' ->
    OptionTree._get_data t p = Ok d -> OptionTree._get_data t' p = Ok d.
Proof.
  induction L as [|x L IH]; intros t t' p d Hne; cbn [for_each]; [by intros [= <-]|].
  intros H Hd. apply rbind_Ok in H as (t1 & Hup & H).
  apply (IH t1 t' p d); [intros; apply Hne; by right|done|].
  rewrite (upsert_get_data _ _ _ _ _ _ _ Hup Hd). rewrite decide_False; [done|].
  intros ->. by apply (Hne x); [left|].
Qed.

Lemma upsert_loop_metadata fuel (L : list (Attribute.t * list (string * value))) :
  forall t t',
    tree_ok (fun d => OptionData.instance_attrs d = [] /\
                      OptionData.in_memory_definition d = undefined) (treelib.nodes t) ->
    NoDup L.*1 ->
    (forall item k, item ∈ L -> k ∈ item.2.*1 -> k ∈ documented_keys) ->
    for_each (fun tr (item : Attribute.t * list (string * value)) =>
                OptionTree._upsert_node_data fuel tr item.1 item.2) L t = Ok t' ->
    tree_ok (fun d => OptionData.instance_attrs d = [] /\
                      OptionData.in_memory_definition d = undefined) (treelib.nodes t') /\
    forall p dict, (p, dict) ∈ L -> NoDup dict.*1 ->
      exists d, OptionTree._get_data t' p = Ok d /\
        (forall v, ("description", v) ∈ dict -> OptionData.description d = v) /\
        (forall v, ("readOnly", v) ∈ dict -> OptionData.readOnly d = v) /\
        (forall v, ("type", v) ∈ dict -> OptionData._type d = v).
Proof.
  assert (closed_under_cloning (fun d => OptionData.instance_attrs d = [] /\
            OptionData.in_memory_definition d = undefined)) as Hclosed.
  { split; [done|]. intros d v [_ Him]. split; [reflexivity|].
    destruct d. cbn in *. unfold OptionData.setattr. cbn. done. }
  induction L as [|[q qd] L IH]; intros t t' Hok Hnd Hdoc; cbn [for_each].
  { intros [= <-]. split; [done|]. by intros p dict ?%elem_of_nil. }
  intros H. apply rbind_Ok in H as (t1 & Hup & H). cbn [fst snd] in Hup.
  rewrite fmap_cons in Hnd. apply NoDup_cons in Hnd as [Hq Hnd]. cbn [fst] in Hq.
  assert (tree_ok (fun d => OptionData.instance_attrs d = [] /\
            OptionData.in_memory_definition d = undefined) (treelib.nodes t1)) as Hok1.
  { eapply upsert_ok; [exact Hclosed| |exact Hok|exact Hup].
    intros d [Hi Him]. split.
    - apply update_keeps_methods; [|done]. intros k Hk.
      specialize (Hdoc (q, qd) k (ltac:(by left)) Hk). unfold documented_keys in Hdoc.
      unfold OptionData.method_names. rewrite !elem_of_cons, elem_of_nil in Hdoc.
      rewrite !elem_of_cons, elem_of_nil. intros [->|[->|[]]];
        destruct Hdoc as [?|[?|[?|[?|[]]]]]; discriminate.
    - assert (OptionData.getattr (OptionData.update d qd) "in_memory_definition"
              = OptionData.getattr d "in_memory_definition") as Hg.
      { apply update_getattr_other; [by vm_compute; repeat (try (by left); right)|].
        intros k Hk. specialize (Hdoc (q, qd) k (ltac:(by left)) Hk).
        unfold documented_keys in Hdoc. rewrite !elem_of_cons, elem_of_nil in Hdoc.
        destruct Hdoc as [->|[->|[->|[->|[]]]]]; by split. }
      change (Some (OptionData.in_memory_definition (OptionData.update d qd))
              = Some (OptionData.in_memory_definition d)) in Hg. congruence. }
  destruct (IH t1 t' Hok1 Hnd) as [Hok' Hall]; [|done|].
  { intros item k Hitem. apply Hdoc. by right. }
  split; [done|]. intros p dict [[= -> ->]|Hin]%elem_of_cons Hnd'; [|by apply Hall].
  destruct (upsert_spec _ _ _ _ _ Hup) as (t0 & n1 & Hmid & _ & Hn1 & Hnodes & _).
  assert (tree_ok (fun d => OptionData.instance_attrs d = [] /\
            OptionData.in_memory_definition d = undefined) (treelib.nodes t0)) as Hok0.
  { destruct (treelib.nodes t !! q); [by subst|].
    destruct Hmid as (st & Hst & ->).
    eapply insert_branch_ok; [exact Hclosed|exact Hok|exact Hst]. }
  destruct (Hok0 _ _ Hn1) as (_ & d0 & Hd0 & Hi0 & _).
  rewrite Hd0 in Hnodes. cbn [default] in Hnodes.
  destruct (update_documented d0 qd Hi0 Hnd') as (_ & _ & Hde & Hro & Hty & _).
  { intros k. apply (Hdoc (q, qd)). by left. }
  exists (OptionData.update d0 qd). split; [|done].
  apply (upsert_loop_frame fuel L t1 t' q); [|done|].
  - intros x Hx Heq. apply Hq. rewrite <- Heq. by apply list_elem_of_fmap_2.
  - apply get_data_node. eexists. rewrite Hnodes, lookup_insert_eq. split; [done|]. done.
Qed.

Lemma sorted_Permutation {A} (key : A -> string) (l : list A) : PyStr.sorted key l ≡ₚ l.
Proof.
  assert (forall x l', PyStr.insert_sorted key x l' ≡ₚ x :: l') as Hins.
  { intros x l'. induction l' as [|y l' IH]; cbn [PyStr.insert_sorted]; [done|].
    destruct (String.leb _ _); [done|]. rewrite IH. apply Permutation_swap. }
  induction l as [|x l IH]; [done|]. unfold PyStr.sorted in *. cbn [foldr].
  rewrite Hins. by rewrite IH.
Qed.

(** X9.  [__init__] loads the metadata: when every path is given once and the
    dictionaries have the documented keys, every path of
    [system_option_data] has a node after construction, its record has the
    values given under [description], [readOnly] and [type] (stored as
    [_type]), and no in-memory definition. *)
Theorem init_loads_the_metadata str fuel system_option_data config_options s p dict :
  NoDup system_option_data.*1 -> NoDup dict.*1 ->
  (forall item k, item ∈ system_option_data -> k ∈ item.2.*1 -> k ∈ documented_keys) ->
  OptionTree.__init__ str fuel system_option_data config_options = Ok s ->
  (p, dict) ∈ system_option_data ->
  exists d, OptionTree._get_data (OptionTree.tree s) p = Ok d /\
    (forall v, ("description", v) ∈ dict ->
       OptionTree.get_description (OptionTree.tree s) p = Ok v) /\
    (forall v, ("readOnly", v) ∈ dict -> OptionTree.is_readonly (OptionTree.tree s) p = Ok v) /\
    (forall v, ("type", v) ∈ dict -> OptionTree.get_type (OptionTree.tree s) p = Ok v) /\
    OptionTree.get_in_memory_definition (OptionTree.tree s) p = Ok undefined.
Proof.
  intros Hnd Hnd' Hdoc H Hin.
  destruct (init_stages _ _ _ _ _ H) as (tr0 & tr1 & cache & Htr0 & Htr1 & Hcfg & _).
  assert (tree_ok (fun d => OptionData.instance_attrs d = [] /\
            OptionData.in_memory_definition d = undefined) (treelib.nodes tr0)) as Hok0.
  { unfold treelib.create_node, treelib.add_node, treelib.contains in Htr0.
    cbn [treelib.nodes treelib.new] in Htr0.
    rewrite bool_decide_eq_false_2 in Htr0.
    2:{ rewrite lookup_empty. by intros [? ?]. }
    cbn in Htr0. injection Htr0 as <-. cbn [treelib.nodes]. rewrite insert_empty.
    intros k n [<- <-]%lookup_singleton_Some. split; [done|]. eexists. by split. }
  destruct (upsert_loop_metadata fuel
              (PyStr.sorted (OptionTree.sort_key str) system_option_data) tr0 tr1 Hok0)
    as [Hok1 Hall]; [| |exact Htr1|].
  { rewrite (sorted_Permutation (OptionTree.sort_key str) system_option_data). done. }
  { intros item k Hitem. apply Hdoc. by apply sorted_elem in Hitem. }
  destruct (Hall p dict) as (d1 & Hd1 & Hde & Hro & Hty); [by apply sorted_elem|done|].
  assert (exists d1', OptionTree._get_data tr1 p = Ok d1' /\
            OptionData.description d1' = OptionData.description d1 /\
            OptionData.readOnly d1' = OptionData.readOnly d1 /\
            OptionData._type d1' = OptionData._type d1 /\
            OptionData.in_memory_definition d1' = undefined) as Hstart.
  { exists d1. repeat split; try done.
    apply get_data_node in Hd1 as (n & Hn & Hd).
    destruct (Hok1 _ _ Hn) as (_ & d' & Hd' & _ & Him). congruence. }
  assert (exists d, OptionTree._get_data (OptionTree.tree s) p = Ok d /\
            OptionData.description d = OptionData.description d1 /\
            OptionData.readOnly d = OptionData.readOnly d1 /\
            OptionData._type d = OptionData._type d1 /\
            OptionData.in_memory_definition d = undefined) as (d & Hd & Hde' & Hro' & Hty' & Him).
  { change (OptionTree.tree s) with ((OptionTree.tree s, cache).1).
    revert Hstart Hcfg.
    change tr1 with ((tr1, (∅ : gmap Attribute.t value)).1) at 1.
    apply (for_each_inv (fun st : treelib.Tree * gmap Attribute.t value =>
             exists d, OptionTree._get_data st.1 p = Ok d /\
               OptionData.description d = OptionData.description d1 /\
               OptionData.readOnly d = OptionData.readOnly d1 /\
               OptionData._type d = OptionData._type d1 /\
               OptionData.in_memory_definition d = undefined)).
    intros [tr c] [a v] [tr' c'] _ (d & Hd & ? & ? & ? & ?) Hx. cbn [fst] in *.
    unfold OptionTree.load_config_option in Hx.
    destruct (treelib.get_node tr a); [|injection Hx as <- _; eauto 10].
    apply rbind_Ok in Hx as (tr2 & Htr2 & Hx). injection Hx as <- _.
    eexists. split; [apply (upsert_get_data _ _ _ _ _ _ _ Htr2 Hd)|].
    case_decide; [|done]. by rewrite update_configured. }
  exists d. split; [done|].
  unfold OptionTree.get_description, OptionTree.is_readonly, OptionTree.get_type,
    OptionTree.get_in_memory_definition. rewrite Hd. cbn [rbind].
  repeat split.
  - intros v Hv. f_equal. rewrite Hde'. by apply Hde.
  - intros v Hv. f_equal. rewrite Hro'. by apply Hro.
  - intros v Hv. f_equal. rewrite Hty'. by apply Hty.
  - by rewrite Him.
Qed.

Lemma init_loads_the_metadata_witness :
  exists d, OptionTree._get_data (OptionTree.tree Sample.s0) ["a"; "b"; "c"] = Ok d /\
    (forall v, ("description", v) ∈ [("type", VStr "string"); ("default", VStr "x")] ->
       OptionTree.get_description (OptionTree.tree Sample.s0) ["a"; "b"; "c"] = Ok v) /\
    (forall v, ("readOnly", v) ∈ [("type", VStr "string"); ("default", VStr "x")] ->
       OptionTree.is_readonly (OptionTree.tree Sample.s0) ["a"; "b"; "c"] = Ok v) /\
    (forall v, ("type", v) ∈ [("type", VStr "string"); ("default", VStr "x")] ->
       OptionTree.get_type (OptionTree.tree Sample.s0) ["a"; "b"; "c"] = Ok v) /\
    OptionTree.get_in_memory_definition (OptionTree.tree Sample.s0) ["a"; "b"; "c"]
      = Ok undefined.
Proof.
  apply (init_loads_the_metadata Sample.str 1 Sample.system_option_data
           Sample.config_options Sample.s0 ["a"; "b"; "c"]
           [("type", VStr "string"); ("default", VStr "x")]).
  - apply (bool_decide_unpack _). vm_compute. reflexivity.
  - apply (bool_decide_unpack _). vm_compute. reflexivity.
  - intros item k Hitem Hk. apply list_elem_of_singleton in Hitem as ->.
    apply (bool_decide_unpack _). cbn [snd fmap list_fmap fst] in Hk.
    rewrite !elem_of_cons, elem_of_nil in Hk. destruct Hk as [->|[->|[]]]; vm_compute;
      reflexivity.
  - exact sample_s0_init.
  - apply (bool_decide_unpack _). vm_compute. reflexivity.
Defined.

(** ** Cloning a template *)

Lemma for_each_app {A S} (body : S -> A -> result S) (l1 l2 : list A) (acc : S) :
  for_each body (l1 ++ l2) acc = rbind (for_each body l1 acc) (for_each body l2).
Proof.
  revert acc. induction l1 as [|x l1 IH]; intros acc; cbn [for_each app rbind]; [done|].
  destruct (body acc x); cbn [rbind]; [apply IH|done..].
Qed.

Lemma insert_segments_existing fuel (l : list string) :
  forall tr (P0 : Attribute.t),
    wf (treelib.nodes tr) -> is_Some (treelib.nodes tr !! (P0 ++ l)%list) ->
    for_each (OptionTree.insert_segment fuel) l (tr, P0) = Ok (tr, (P0 ++ l)%list).
Proof.
  induction l as [|x l IH]; intros tr P0 Hwf Hreg; cbn [for_each].
  - by rewrite app_nil_r.
  - unfold OptionTree.insert_segment at 1, Attribute.from_insertion, treelib.contains.
    rewrite bool_decide_eq_true_2.
    + cbn [rbind]. rewrite IH; [by rewrite <- app_assoc|done|by rewrite <- app_assoc].
    + eapply wf_prefix_closed; [done|exact Hreg|]. apply prefix_app, prefix_cons, prefix_nil.
Qed.

Lemma insert_segment_from_template fuel tr (P : Attribute.t) (seg : string) d ty tr1 child :
  OptionTree._get_data tr P = Ok d -> OptionData._type d = VStr ty ->
  PyStr.contains "attribute set of" ty = true -> seg <> name_placeholder ->
  treelib.nodes tr !! (P ++ [seg])%list = None ->
  OptionTree.insert_segment fuel (tr, P) seg = Ok (tr1, child) ->
  child = (P ++ [seg])%list /\
  exists br, OptionTree._get_attribute_set_template_branch fuel tr (P ++ [seg]) = Ok br /\
             treelib.paste tr P br = Ok tr1.
Proof.
  intros Hd Hty Hset Hseg Hnew H.
  unfold OptionTree.insert_segment, Attribute.from_insertion in H.
  apply rbind_Ok in H as (tr' & Htr' & H). injection H as -> <-. split; [done|].
  unfold treelib.contains in Htr'. rewrite Hnew in Htr'.
  rewrite bool_decide_eq_false_2 in Htr' by (by intros [? ?]).
  apply get_data_node in Hd as (n & Hn & Hdn).
  unfold OptionTree._is_attribute_set, OptionTree.node_data, treelib.get_node in Htr'.
  rewrite Hn in Htr'. cbn [rbind] in Htr'. rewrite Hdn, Hty, Hset in Htr'.
  cbn [rbind] in Htr'. rewrite get_end_snoc in Htr'. cbn [rbind] in Htr'.
  rewrite bool_decide_eq_true_2 in Htr' by done.
  apply rbind_Ok in Htr' as (br & Hbr & Hpaste). eauto.
Qed.

(** The branch made from the template of an attribute set of submodules:
    the nodes at and below [P.<name>], each under its path with the first
    placeholder segment replaced, with its record. *)
Lemma template_branch_submodules fuel tr (P : Attribute.t) (seg : string) d br :
  wf (treelib.nodes tr) -> seg <> name_placeholder ->
  OptionTree._get_data tr P = Ok d ->
  OptionData._type d = VStr "attribute set of submodules" ->
  OptionTree._get_attribute_set_template_branch fuel tr (P ++ [seg]) = Ok br ->
  exists j, Attribute.index name_placeholder (P ++ [name_placeholder]) = Ok j /\
    treelib.root br = Some (subst_at j seg (P ++ [name_placeholder])) /\
    (forall rest n, treelib.nodes tr !! (P ++ [name_placeholder] ++ rest)%list = Some n ->
       exists n', treelib.nodes br !! subst_at j seg (P ++ [name_placeholder] ++ rest) = Some n' /\
                  treelib.data n' = treelib.data n) /\
    (forall k' n', treelib.nodes br !! k' = Some n' ->
       exists rest n, treelib.nodes tr !! (P ++ [name_placeholder] ++ rest)%list = Some n /\
         k' = subst_at j seg (P ++ [name_placeholder] ++ rest) /\
         treelib.data n' = treelib.data n) /\
    links_ok (treelib.nodes br) /\
    (exists rn, treelib.nodes br !! subst_at j seg (P ++ [name_placeholder]) = Some rn /\
                treelib.predecessor rn = None) /\
    (forall k n, treelib.nodes br !! k = Some n ->
       k <> subst_at j seg (P ++ [name_placeholder]) ->
       exists p y, treelib.predecessor n = Some p /\ k = (p ++ [y])%list).
Proof.
  intros Hwf Hs Hd Hty H. unfold OptionTree._get_attribute_set_template_branch in H.
  rewrite get_set_snoc in H. apply get_data_node in Hd as (np & Hnp & Hdp).
  unfold OptionTree.node_data, treelib.get_node in H. rewrite Hnp in H. cbn [rbind] in H.
  rewrite Hdp in H. rewrite decide_True in H by done.
  apply rbind_Ok in H as (st & Hst & H). unfold treelib.deep_copy in H.
  unfold Attribute.from_insertion in Hst.
  destruct (subtree_branch _ _ _ _ Hwf Hst) as [[Hbl [rn0 [Hrn0 Hrp]] Hbp Hbpaths _] Hroot].
  assert (is_Some (treelib.nodes st !! (P ++ [name_placeholder])%list)) as Hspec
    by (by eexists).
  destruct (index_elem name_placeholder (P ++ [name_placeholder])) as [j Hj].
  { apply elem_of_app. right. by apply list_elem_of_singleton. }
  destruct (rename_template _ _ _ _ _ _ Hbl Hbp Hspec Hroot (get_end_snoc P seg) Hs Hj H)
    as [Him Hr].
  apply subtree_spec in Hst as (ids & Hids & _ & Hlook).
  pose proof (expand_tree_below _ _ _ _ Hwf Hids) as Hbelow.
  assert (forall k, is_Some (treelib.nodes st !! k) -> k !! j = Some name_placeholder) as Hat.
  { intros k Hk. destruct (Hbp k Hk) as [rest ->]. apply index_lookup. by apply index_app. }
  assert (forall k, is_Some (treelib.nodes st !! k) -> j < length k) as Hlen.
  { intros k Hk. apply Hat in Hk. by eapply lookup_lt_Some. }
  exists j. split; [done|]. split; [done|]. split; [|split; [|split; [|split]]].
  - intros rest n Hn.
    assert ((P ++ [name_placeholder] ++ rest)%list ∈ ids) as Hin.
    { apply Hbelow. split; [by eexists|]. rewrite app_assoc. by apply prefix_app_r. }
    assert (exists n0, treelib.nodes st !! (P ++ [name_placeholder] ++ rest)%list = Some n0 /\
                       treelib.data n0 = treelib.data n) as (n0 & Hn0 & Hdata).
    { rewrite Hlook, decide_True by done. rewrite Hn. case_decide; eauto. }
    exists (rename_node (subst_at j seg) n0). split; [|done]. apply Him. eauto.
  - intros k' n' Hk'. apply Him in Hk' as (k & n0 & Hk & -> & ->).
    destruct (Hbp k) as [rest ->]; [by eexists|].
    rewrite Hlook in Hk. destruct (decide (_ ∈ ids)); [|done].
    rewrite <- app_assoc in Hk |- *.
    destruct (treelib.nodes tr !! (P ++ [name_placeholder] ++ rest)%list) as [n|] eqn:Hn;
      [|by case_decide].
    exists rest, n. split; [done|]. split; [done|]. cbn.
    case_decide; cbn in Hk; by injection Hk as <-.
  - eapply links_ok_image; [exact Hbl|exact Him| |].
    + intros x y Hx Hy. eapply subst_at_inj; by apply Hat.
    + intros x _. apply length_insert.
  - exists (rename_node (subst_at j seg) rn0). split; [|by cbn; rewrite Hrp].
    apply Him. eauto.
  - intros k' n' Hk' Hne. apply Him in Hk' as (k & n & Hk & -> & ->).
    destruct (Hbpaths k n Hk) as (p & y & Hp & ->); [by intros ->|].
    exists (subst_at j seg p), y. split; [by cbn; rewrite Hp|].
    unfold subst_at. apply insert_app_l. apply Hlen.
    destruct (links_pred _ Hbl _ _ _ Hk Hp) as (pn & Hpn & _). by eexists.
Qed.




Lemma insert_segments_doomed fuel (l : list string) tr (P : Attribute.t) st :
  (forall ext, treelib.nodes tr !! (P ++ ext)%list = None) ->
  for_each (OptionTree.insert_segment fuel) l (tr, P) = Ok st -> l = [] /\ st = (tr, P).
Proof.
  intros Hbad. destruct l as [|x l]; cbn [for_each]; [by intros [= <-]|].
  intros H. exfalso. apply rbind_Ok in H as ([tr2 child2] & Hstep & _).
  unfold OptionTree.insert_segment, Attribute.from_insertion in Hstep.
  apply rbind_Ok in Hstep as (tr3 & Htr3 & _). unfold treelib.contains in Htr3.
  rewrite bool_decide_eq_false_2 in Htr3.
  2:{ rewrite Hbad. by intros [? ?]. }
  apply rbind_Ok in Htr3 as (is_set & His_set & _).
  unfold OptionTree._is_attribute_set, OptionTree.node_data, treelib.get_node in His_set.
  specialize (Hbad []). rewrite app_nil_r in Hbad. by rewrite Hbad in His_set.
Qed.

(** X11.  A write at or below a new name [seg] under an attribute set of
    submodules [P] whose own path has a placeholder segment does not
    return: the copied template is renamed at the placeholder of [P], so
    that [P.seg] is not created. *)
Theorem template_below_placeholder_fails fuel s (P : Attribute.t) (seg : string)
    (rest : list string) dict d :
  reachable_without_rename s ->
  OptionTree._get_data (OptionTree.tree s) P = Ok d ->
  OptionData._type d = VStr "attribute set of submodules" ->
  name_placeholder ∈ P -> seg <> name_placeholder ->
  treelib.get_node (OptionTree.tree s) (P ++ [seg])%list = None ->
  match OptionTree._upsert_node_data fuel (OptionTree.tree s) (P ++ [seg] ++ rest) dict with
  | Ok _ => False
  | _ => True
  end.
Proof.
  intros Hreach Hd Hty HP Hseg Hnew. unfold treelib.get_node in *.
  destruct (OptionTree._upsert_node_data _ _ _ _) as [t'| |] eqn:Hup; [|done..].
  pose proof (reachable_wf s Hreach) as Hwf.
  assert (forall ext, treelib.nodes (OptionTree.tree s) !! ((P ++ [seg]) ++ ext)%list = None)
    as Hfresh.
  { intros ext. destruct (treelib.nodes (OptionTree.tree s) !! ((P ++ [seg]) ++ ext)%list)
      eqn:Hk; [|done].
    destruct (wf_prefix_closed _ ((P ++ [seg]) ++ ext)%list (P ++ [seg])%list Hwf)
      as [? Hc]; [by eexists|by apply prefix_app_r|congruence]. }
  destruct (upsert_spec _ _ _ _ _ Hup) as (t1 & n1 & Hmid & _ & Hn1 & _).
  rewrite app_assoc in Hmid, Hn1. rewrite Hfresh in Hmid. destruct Hmid as (st & Hst & ->).
  rewrite <- app_assoc in Hst. rewrite for_each_app in Hst.
  assert (is_Some (treelib.nodes (OptionTree.tree s) !! P)) as HPreg.
  { apply get_data_node in Hd as (n & Hn & _). by eexists. }
  rewrite (insert_segments_existing fuel P _ [] Hwf HPreg) in Hst.
  cbn [rbind for_each app] in Hst. apply rbind_Ok in Hst as ([tr1 child] & Hstep & Hst).
  destruct (insert_segment_from_template _ _ _ _ _ _ _ _ Hd Hty eq_refl Hseg Hnew Hstep)
    as (-> & br & Hbr & Hpaste).
  destruct (template_branch_submodules _ _ _ _ _ _ Hwf Hseg Hd Hty Hbr)
    as (j & Hj & _ & _ & Hbwd & _).
  destruct (index_elem _ _ HP) as [j0 Hj0].
  rewrite (index_app _ _ [name_placeholder] _ Hj0) in Hj. injection Hj as <-.
  pose proof (index_lookup _ _ _ Hj0) as HPj.
  assert (forall ext, treelib.nodes tr1 !! ((P ++ [seg]) ++ ext)%list = None) as Hbad.
  { intros ext. destruct (treelib.nodes tr1 !! ((P ++ [seg]) ++ ext)%list) as [n'|] eqn:Hk;
      [|done]. exfalso.
    destruct (paste_spec _ _ _ _ Hpaste) as [->|[_ Hsame]]; [by rewrite Hfresh in Hk|].
    specialize (Hsame ((P ++ [seg]) ++ ext)%list). rewrite Hk in Hsame.
    inversion Hsame as [n0 ? _ Hn0|]; subst. symmetry in Hn0.
    apply lookup_union_Some_raw in Hn0 as [Hn0|[_ Hn0]]; [|by rewrite Hfresh in Hn0].
    destruct (Hbwd _ _ Hn0) as (rest' & n & Hn & Heq & _).
    assert ((P ++ [name_placeholder] ++ rest')%list !! j0 = Some name_placeholder) as Hat
      by (by apply lookup_app_l_Some).
    apply (subst_at_lookup j0 seg) in Hat. rewrite <- Heq in Hat.
    rewrite <- app_assoc in Hat. rewrite (lookup_app_l_Some _ _ _ _ HPj) in Hat.
    congruence. }
  destruct (insert_segments_doomed _ _ _ _ _ Hbad Hst) as [-> ->].
  rewrite app_nil_r in Hn1. cbn [fst] in Hn1. specialize (Hbad []).
  rewrite app_nil_r in Hbad. congruence.
Qed.

(** ** The child of an attribute set of plain elements *)










(** ** Creating a branch of plain attribute sets *)





(** ** Renaming an attribute *)

Lemma replace_first_total (nid val : Attribute.t) (l : list Attribute.t) :
  nid ∈ l -> exists r, treelib.replace_first nid val l = Ok r.
Proof.
  induction l as [|x l IH]; [by intros ?%elem_of_nil|]. cbn [treelib.replace_first].
  intros Hin. case_decide; [eauto|].
  apply elem_of_cons in Hin as [->|Hin]; [done|]. destruct (IH Hin) as [r ->]. cbn. eauto.
Qed.





Section rename_subtree.

Context (m0 : gmap Attribute.t treelib.Node) (a b : Attribute.t).
Context (Hwf : wf m0).
Context (Hlen : length a = length b).
Context (Hfresh : forall r, m0 !! (b ++ r)%list = None).







Lemma renamed_ext (R R' : gset Attribute.t) (k : Attribute.t) :
  (k ∈ R <-> k ∈ R') ->
  renamed (move_prefix a b) R k = renamed (move_prefix a b) R' k.
Proof.
  intros Hiff. unfold renamed. destruct (decide (k ∈ R)) as [Hk|Hk].
  - rewrite decide_True; [done|]. by apply Hiff.
  - rewrite decide_False; [done|]. by rewrite <- Hiff.
Qed.

End rename_subtree.

Section rename_tree.

Context (m0 : gmap Attribute.t treelib.Node) (a b : Attribute.t).
Context (Hwf : wf m0).
Context (Hlen : length a = length b).
Context (Hfresh : forall r, m0 !! (b ++ r)%list = None).


End rename_tree.

Section rename_tree_spec.

Context (m0 : gmap Attribute.t treelib.Node) (a b : Attribute.t).
Context (Hwf : wf m0).
Context (Hlen : length a = length b).
Context (Hfresh : forall r, m0 !! (b ++ r)%list = None).


End rename_tree_spec.






(** ** The caches after a renaming *)





(** ** The configuration fills one field *)

(** X16.  The configuration creates no node and changes no link: the tree built
    with [config_options] has the nodes of the tree built from
    [system_option_data] alone, with the same links, and their records
    differ in the configured definition at most. *)
Theorem config_options_fill_one_field str fuel system_option_data config_options s :
  OptionTree.__init__ str fuel system_option_data config_options = Ok s ->
  exists s0,
    OptionTree.__init__ str fuel system_option_data [] = Ok s0 /\
    forall k,
      match treelib.get_node (OptionTree.tree s0) k with
      | None => treelib.get_node (OptionTree.tree s) k = None
      | Some n0 =>
          exists n, treelib.get_node (OptionTree.tree s) k = Some n /\
            treelib.tag n = treelib.tag n0 /\
            treelib.predecessor n = treelib.predecessor n0 /\
            treelib.successors n = treelib.successors n0 /\
            forall d0, treelib.data n0 = Some d0 ->
              exists d, treelib.data n = Some d /\
                OptionData.description d = OptionData.description d0 /\
                OptionData.readOnly d = OptionData.readOnly d0 /\
                OptionData._type d = OptionData._type d0 /\
                OptionData.system_default_definition d
                  = OptionData.system_default_definition d0 /\
                OptionData.in_memory_definition d = OptionData.in_memory_definition d0 /\
                OptionData.instance_attrs d = OptionData.instance_attrs d0
      end.
Proof.
  intros H. destruct (init_stages _ _ _ _ _ H) as (tr0 & tr1 & cache & Htr0 & Htr1 & Hcfg & _).
  exists (OptionTree.mk tr1 ∅ ∅ None 0 []). split.
  { unfold OptionTree.__init__. rewrite Htr0. cbn [rbind]. rewrite Htr1. done. }
  cbn [OptionTree.tree]. unfold treelib.get_node.
  change (OptionTree.tree s) with ((OptionTree.tree s, cache).1).
  revert Hcfg.
  apply (for_each_inv (fun st : treelib.Tree * gmap Attribute.t value =>
           forall k,
             match treelib.nodes tr1 !! k with
             | None => treelib.nodes st.1 !! k = None
             | Some n0 =>
                 exists n, treelib.nodes st.1 !! k = Some n /\
                   treelib.tag n = treelib.tag n0 /\
                   treelib.predecessor n = treelib.predecessor n0 /\
                   treelib.successors n = treelib.successors n0 /\
                   forall d0, treelib.data n0 = Some d0 ->
                     exists d, treelib.data n = Some d /\
                       OptionData.description d = OptionData.description d0 /\
                       OptionData.readOnly d = OptionData.readOnly d0 /\
                       OptionData._type d = OptionData._type d0 /\
                       OptionData.system_default_definition d
                         = OptionData.system_default_definition d0 /\
                       OptionData.in_memory_definition d = OptionData.in_memory_definition d0 /\
                       OptionData.instance_attrs d = OptionData.instance_attrs d0
             end)).
  - intros [tr c] [p v] [tr' c'] _ Hinv Hstep. cbn [fst] in *.
    pose proof (load_config_option_tree _ _ _ _ _ _ Hstep) as Hspec. cbn [fst snd] in Hspec.
    destruct (treelib.nodes tr !! p) as [np|] eqn:Hnp; [|by destruct Hspec as [-> _]].
    destruct Hspec as [Hnodes _]. intros k. specialize (Hinv k). rewrite Hnodes.
    destruct (decide (k = p)) as [->|Hne]; [|by rewrite lookup_insert_ne].
    rewrite lookup_insert_eq. rewrite Hnp in Hinv.
    destruct (treelib.nodes tr1 !! p) as [n0|]; [|done].
    destruct Hinv as (n & [= <-] & Ht & Hp & Hs & Hd).
    eexists. split; [done|]. cbn. split; [done|]. split; [done|]. split; [done|].
    intros d0 Hd0. destruct (Hd d0 Hd0) as (d & -> & ?). cbn [default].
    eexists. split; [done|]. by rewrite update_configured.
  - intros k. cbn [fst]. destruct (treelib.nodes tr1 !! k) as [n0|]; [|done].
    exists n0. repeat split; try done. intros d0 ->. exists d0. by repeat split.
Qed.

(** ** Renaming onto a name that is taken *)

Lemma replace_first_val (nid val : Attribute.t) (l r : list Attribute.t) :
  treelib.replace_first nid val l = Ok r -> val ∈ r.
Proof.
  revert r. induction l as [|z l IH]; intros r; cbn [treelib.replace_first]; [done|].
  case_decide as Hz.
  - intros [= <-]. by left.
  - intros Hr. apply rbind_Ok in Hr as (r' & Hr' & Hr). injection Hr as <-. right.
    by apply IH.
Qed.

Lemma replace_first_twice (nid val : Attribute.t) (l r : list Attribute.t) :
  nid <> val -> val ∈ l -> treelib.replace_first nid val l = Ok r -> ~ NoDup r.
Proof.
  intros Hne. revert r. induction l as [|z l IH]; intros r Hin; cbn [treelib.replace_first].
  { by apply elem_of_nil in Hin. }
  case_decide as Hz.
  - intros [= <-]. subst z. apply elem_of_cons in Hin as [?|Hin]; [done|].
    intros Hnd. by apply NoDup_cons in Hnd as [? _].
  - intros Hr. apply rbind_Ok in Hr as (r' & Hr' & Hr). injection Hr as <-.
    intros Hnd. apply NoDup_cons in Hnd as [Hz' Hnd].
    apply elem_of_cons in Hin as [->|Hin].
    + apply Hz'. by eapply replace_first_val.
    + by apply (IH r').
Qed.

(** X17.  [rename_attribute] does not refuse a name that is taken.  Renaming a
    leaf [q.x] to the name of its sibling [q.y] returns: afterwards nothing
    is registered under [q.x], the node registered under [q.y] carries the
    record that [q.x] had (the node that [q.y] had is no longer registered),
    [q] lists a child twice, and every other node keeps its record.
    Renaming an attribute that has no node fails with NodeIDAbsentError. *)
Theorem rename_onto_sibling_overwrites fuel s (q : Attribute.t) (x y : string) nx :
  reachable_without_rename s ->
  treelib.get_node (OptionTree.tree s) (q ++ [x])%list = Some nx ->
  treelib.successors nx = [] ->
  is_Some (treelib.get_node (OptionTree.tree s) (q ++ [y])%list) -> x <> y ->
  (exists s',
     OptionTree.rename_attribute (S fuel) s (q ++ [x]) (q ++ [y]) = Ok s' /\
     treelib.get_node (OptionTree.tree s') (q ++ [x])%list = None /\
     (exists n', treelib.get_node (OptionTree.tree s') (q ++ [y])%list = Some n' /\
        treelib.tag n' = (q ++ [y])%list /\ treelib.data n' = treelib.data nx) /\
     (exists pn', treelib.get_node (OptionTree.tree s') q = Some pn' /\
        ~ NoDup (treelib.successors pn')) /\
     (forall k n, k <> (q ++ [x])%list -> k <> (q ++ [y])%list ->
        treelib.get_node (OptionTree.tree s) k = Some n ->
        exists n2, treelib.get_node (OptionTree.tree s') k = Some n2 /\
                   treelib.data n2 = treelib.data n)) /\
  (forall a b, treelib.get_node (OptionTree.tree s) a = None ->
     OptionTree.rename_attribute (S fuel) s a b = Raise NodeIDAbsentError).
Proof.
  intros Hreach Hnx Hleaf [ny Hny] Hxy. unfold treelib.get_node in *. split.
  2:{ intros a b Ha. unfold OptionTree.rename_attribute.
      cbn [OptionTree.rename_attribute_tree].
      unfold treelib.update_node_identifier, treelib.getitem. by rewrite Ha. }
  pose proof (reachable_wf s Hreach) as Hwf. pose proof (wf_links _ Hwf) as Hl.
  set (m := treelib.nodes (OptionTree.tree s)) in *.
  set (nid := (q ++ [x])%list) in *. set (val := (q ++ [y])%list) in *.
  assert (nid <> val) as Hne.
  { unfold nid, val. intros Heq. apply app_inv_head in Heq. congruence. }
  assert (q <> nid /\ q <> val) as [Hq1 Hq2].
  { split; intros Heq; apply (f_equal length) in Heq; unfold nid, val in Heq;
      rewrite length_app in Heq; cbn in Heq; lia. }
  assert (treelib.predecessor nx = Some q) as Hpred.
  { destruct (treelib.predecessor nx) as [p|] eqn:Hp.
    - destruct (wf_paths _ Hwf _ _ _ Hnx Hp) as [z Hz]. unfold nid in Hz.
      by apply app_inj_tail in Hz as [-> _].
    - apply (wf_root _ Hwf _ _ Hnx) in Hp. by destruct q. }
  destruct (links_pred _ Hl _ _ _ Hnx Hpred) as (pn & Hpn & Hin).
  destruct (replace_first_total nid val _ Hin) as [l Hrep].
  assert (val ∈ treelib.successors pn) as Hvin.
  { apply (successors_paths m q pn val Hwf Hpn). split; [by eexists|by exists y]. }
  set (m2 := <[q := treelib.set_successors l pn]> (<[val := nx]> (delete nid m))).
  assert (treelib.update_node_identifier (OptionTree.tree s) nid val
          = Ok (treelib.mkTree (alter (treelib.set_tag val) val m2)
                  (if decide (treelib.root (OptionTree.tree s) = Some nid)
                   then Some val else treelib.root (OptionTree.tree s)))) as Hupd.
  { unfold treelib.update_node_identifier, treelib.getitem. fold m. rewrite Hnx.
    cbn [rbind]. rewrite Hpred. rewrite lookup_insert_ne, lookup_delete_ne by done.
    rewrite Hpn. cbn [rbind]. rewrite Hrep. cbn [rbind]. fold m2.
    assert (m2 !! val = Some nx) as ->.
    { unfold m2. rewrite lookup_insert_ne by done. by rewrite lookup_insert_eq. }
    cbn [rbind]. rewrite Hleaf. done. }
  assert (alter (treelib.set_tag val) val m2 !! val = Some (treelib.set_tag val nx)) as Hval.
  { rewrite lookup_alter_eq. unfold m2. rewrite lookup_insert_ne by done.
    by rewrite lookup_insert_eq. }
  eexists. split.
  { unfold OptionTree.rename_attribute. cbn [OptionTree.rename_attribute_tree].
    rewrite Hupd. cbn [rbind]. unfold treelib.children, treelib.is_branch, treelib.getitem.
    cbn [treelib.nodes]. rewrite Hval. cbn [rbind treelib.successors treelib.set_tag].
    rewrite Hleaf. cbn [map_result rbind for_each]. reflexivity. }
  cbn [OptionTree.set_tree OptionTree.tree treelib.nodes]. split; [|split; [|split]].
  - rewrite lookup_alter_ne by done. unfold m2.
    rewrite !lookup_insert_ne by done. by rewrite lookup_delete_eq.
  - eexists. split; [exact Hval|]. by split.
  - exists (treelib.set_successors l pn). split.
    + rewrite lookup_alter_ne by done. unfold m2. by rewrite lookup_insert_eq.
    + cbn. exact (replace_first_twice nid val _ l Hne Hvin Hrep).
  - intros k n Hk1 Hk2 Hn. rewrite lookup_alter_ne by done. unfold m2.
    destruct (decide (k = q)) as [->|Hkq].
    + rewrite lookup_insert_eq. eexists. split; [done|]. cbn. congruence.
    + rewrite !lookup_insert_ne, lookup_delete_ne by done. eauto.
Qed.

(** ** The properties at further samples *)

Lemma sample_n0_reachable : reachable_without_rename Sample.n0.
Proof.
  apply (reachable_wr_init Sample.str 1 Sample.nested_option_data []).
  vm_compute. reflexivity.
Qed.


Lemma sample_w0_reachable : reachable_without_rename Sample.w0.
Proof.
  apply (reachable_wr_init Sample.str 1 Sample.sibling_option_data []).
  vm_compute. reflexivity.
Qed.

Lemma template_below_placeholder_fails_witness :
  match OptionTree._upsert_node_data 3 (OptionTree.tree Sample.n0)
          (["a"; name_placeholder; "b"] ++ ["foo"] ++ []) [] with
  | Ok _ => False
  | _ => True
  end.
Proof.
  eapply (template_below_placeholder_fails 3 Sample.n0 ["a"; name_placeholder; "b"] "foo" [] []).
  - exact sample_n0_reachable.
  - vm_compute. reflexivity.
  - reflexivity.
  - apply (bool_decide_unpack _). vm_compute. reflexivity.
  - apply (bool_decide_unpack _). vm_compute. reflexivity.
  - reflexivity.
Defined.



Lemma config_options_fill_one_field_witness :
  exists s0,
    OptionTree.__init__ Sample.str 1 Sample.system_option_data [] = Ok s0 /\
    forall k,
      match treelib.get_node (OptionTree.tree s0) k with
      | None => treelib.get_node (OptionTree.tree Sample.s0) k = None
      | Some n0 =>
          exists n, treelib.get_node (OptionTree.tree Sample.s0) k = Some n /\
            treelib.tag n = treelib.tag n0 /\
            treelib.predecessor n = treelib.predecessor n0 /\
            treelib.successors n = treelib.successors n0 /\
            forall d0, treelib.data n0 = Some d0 ->
              exists d, treelib.data n = Some d /\
                OptionData.description d = OptionData.description d0 /\
                OptionData.readOnly d = OptionData.readOnly d0 /\
                OptionData._type d = OptionData._type d0 /\
                OptionData.system_default_definition d
                  = OptionData.system_default_definition d0 /\
                OptionData.in_memory_definition d = OptionData.in_memory_definition d0 /\
                OptionData.instance_attrs d = OptionData.instance_attrs d0
      end.
Proof.
  apply (config_options_fill_one_field Sample.str 1 Sample.system_option_data
           Sample.config_options Sample.s0).
  exact sample_s0_init.
Defined.

Lemma rename_onto_sibling_overwrites_witness :
  (exists s',
     OptionTree.rename_attribute 1 Sample.w0 ([] ++ ["a"]) ([] ++ ["b"]) = Ok s' /\
     treelib.get_node (OptionTree.tree s') ([] ++ ["a"])%list = None /\
     (exists n', treelib.get_node (OptionTree.tree s') ([] ++ ["b"])%list = Some n' /\
        treelib.tag n' = ([] ++ ["b"])%list /\
        treelib.data n' = treelib.data Sample.sibling_node) /\
     (exists pn', treelib.get_node (OptionTree.tree s') [] = Some pn' /\
        ~ NoDup (treelib.successors pn')) /\
     (forall k n, k <> ([] ++ ["a"])%list -> k <> ([] ++ ["b"])%list ->
        treelib.get_node (OptionTree.tree Sample.w0) k = Some n ->
        exists n2, treelib.get_node (OptionTree.tree s') k = Some n2 /\
                   treelib.data n2 = treelib.data n)) /\
  (forall a b, treelib.get_node (OptionTree.tree Sample.w0) a = None ->
     OptionTree.rename_attribute 1 Sample.w0 a b = Raise NodeIDAbsentError).
Proof.
  apply (rename_onto_sibling_overwrites 0 Sample.w0 [] "a" "b" Sample.sibling_node).
  - exact sample_w0_reachable.
  - reflexivity.
  - reflexivity.
  - vm_compute. eexists. reflexivity.
  - apply (bool_decide_unpack _). vm_compute. reflexivity.
Defined.

(** ** The changes that are enumerated *)

Lemma iter_changes_loop_sublist tr cf (items : list (Attribute.t * value)) :
  (OptionTree.iter_changes_loop tr cf items).1.*1.*1 `sublist_of` items.*1.
Proof.
  induction items as [|[attr v] items IH]; cbn [OptionTree.iter_changes_loop]; [done|].
  destruct (OptionTree.get_definition tr attr false cf) as [old| |];
    [|apply sublist_nil_l..].
  destruct (OptionTree.iter_changes_loop tr cf items) as [ys fin]. cbn [fst] in IH.
  case_decide; cbn [fst fmap list_fmap].
  - by apply sublist_skip.
  - by apply sublist_cons.
Qed.

(** X18.  In a state reached without [rename_attribute] the enumeration of
    the changes ends normally and yields, once per attribute, exactly the
    triples (attribute, old, new) where new is the cached definition of the
    attribute and old, the definition found without the in-memory layer
    (and without the configured layer for the configured changes), differs
    from it: an attribute of the cache whose new definition equals the old
    one is not yielded. *)
Theorem iter_changes_exact s flag :
  reachable_without_rename s ->
  (OptionTree.iter_changes s flag).2 = Ok tt /\
  (forall a old new, (a, old, new) ∈ (OptionTree.iter_changes s flag).1 <->
     (if flag then OptionTree.configured_change_cache s
      else OptionTree.in_memory_change_cache s) !! a = Some new /\
     OptionTree.get_definition (OptionTree.tree s) a false (negb flag) = Ok old /\
     new <> old) /\
  NoDup (OptionTree.iter_changes s flag).1.*1.*1.
Proof.
  intros Hreach. pose proof (reachable_caches_ok s Hreach) as [Him Hcf _ _].
  set (cache := if flag then OptionTree.configured_change_cache s
                else OptionTree.in_memory_change_cache s).
  assert (forall a v, (a, v) ∈ map_to_list cache ->
            exists old, OptionTree.get_definition (OptionTree.tree s) a false (negb flag)
                        = Ok old) as Hdefined.
  { intros a v Hin. apply elem_of_map_to_list in Hin.
    assert (exists d, OptionTree._get_data (OptionTree.tree s) a = Ok d) as [d Hd].
    { unfold cache in Hin. destruct flag.
      - destruct (Hcf _ _ Hin) as (d & Hd & _). eauto.
      - destruct (Him _ _ Hin) as (d & Hd & _). eauto. }
    rewrite (get_definition_chain _ _ _ false (negb flag) Hd). eauto. }
  destruct (iter_changes_loop_total (OptionTree.tree s) (negb flag) (map_to_list cache)
              Hdefined) as [Hfin Hall].
  split; [exact Hfin|]. split.
  - intros a old new. split.
    + intros Hin. apply iter_changes_elem in Hin. exact Hin.
    + intros (Hc & Hold & Hne). apply Hall; [|done..]. by apply elem_of_map_to_list.
  - apply (sublist_NoDup _ (map_to_list cache).*1); [apply NoDup_fst_map_to_list|].
    apply iter_changes_loop_sublist.
Qed.

Lemma iter_changes_exact_witness :
  (OptionTree.iter_changes Sample.s2 false).2 = Ok tt /\
  (forall a old new, (a, old, new) ∈ (OptionTree.iter_changes Sample.s2 false).1 <->
     (if false then OptionTree.configured_change_cache Sample.s2
      else OptionTree.in_memory_change_cache Sample.s2) !! a = Some new /\
     OptionTree.get_definition (OptionTree.tree Sample.s2) a false (negb false) = Ok old /\
     new <> old) /\
  NoDup (OptionTree.iter_changes Sample.s2 false).1.*1.*1.
Proof. apply (iter_changes_exact Sample.s2 false). exact sample_s2_reachable. Defined.
